(** * Vieb: the cross-frame coordinate registry and spatial event router

    A shallow embedding of the main-process frame bookkeeping of
    [app/index.js]: the [frameInfo] registry filled by "frame-details", the
    parent-chain walk of "follow-response" and [translateMouseEvent], the
    hit-tester [findRelevantSubFrame], the "action" dispatcher and the
    [allLinks] aggregate.

    Modelling conventions.
    - JavaScript numbers are doubles.  The registry and its handlers are
      modelled on [Z], which is what the doubles are on integer values:
      there the additions, subtractions and comparisons of the source are
      exact.  What is stated on [Z] is stated through the sums and the
      comparisons that the source itself makes, so that it does not lean on
      the exactness; where a statement does lean on it, it says so, and the
      resolver is given on binary64 values as well ([Doubles]) to show
      what rounding does.  The non-numbers the source can run into
      ([undefined], [null], [NaN]) are kept as constructors of [jsval].
    - [frameInfo] is a plain object used as a dictionary from frame ids
      to mutable records: a [gmap string FrameRec].  A reference to a
      record is its key; in-place writes are inserts at that key.
    - [while] loops over the registry take fuel and return [None] when it
      runs out: a cyclic parent chain makes the source loop for ever. *)

From Stdlib Require Import ZArith String List Lia Ascii Floats.
From stdpp Require Import gmap strings list fin_maps pretty.

Set Warnings "-inexact-float".

Local Open Scope string_scope.
Local Open Scope Z_scope.

(** ** JavaScript values of numeric slots *)

Module JS.

Inductive jsval : Type :=
| Undef
| Null
| NaN
| Num (z : Z).

#[global] Instance jsval_eq_dec : EqDecision jsval.
Proof. solve_decision. Defined.

(** [!!v] *)
Definition truthy (v : jsval) : bool :=
  match v with
  | Num z => negb (z =? 0)
  | _ => false
  end.

(** [a || b] *)
Definition or (a b : jsval) : jsval := if truthy a then a else b.

(** ToNumber; [None] stands for NaN. *)
Definition toNumber (v : jsval) : option Z :=
  match v with
  | Num z => Some z
  | Null => Some 0
  | Undef | NaN => None
  end.

(** [a + b] and [a - b] on these values (no strings among them). *)
Definition add (a b : jsval) : jsval :=
  match toNumber a, toNumber b with
  | Some x, Some y => Num (x + y)
  | _, _ => NaN
  end.

Definition sub (a b : jsval) : jsval :=
  match toNumber a, toNumber b with
  | Some x, Some y => Num (x - y)
  | _, _ => NaN
  end.

(** [a < b] and [a > b]: false as soon as one side is NaN. *)
Definition lt (a b : jsval) : bool :=
  match toNumber a, toNumber b with
  | Some x, Some y => x <? y
  | _, _ => false
  end.

Definition gt (a b : jsval) : bool := lt b a.

(** [typeof v === "number"] *)
Definition isNumber (v : jsval) : bool :=
  match v with
  | Num _ | NaN => true
  | Undef | Null => false
  end.

(** [v || 0], which is always a number. *)
Definition or0 (v : jsval) : Z :=
  match v with
  | Num z => z
  | _ => 0
  end.

(** Truthiness of a string-or-undefined slot: the empty string is falsy. *)
Definition truthyStr (s : option string) : bool :=
  match s with
  | Some s => negb (String.eqb s "")
  | None => false
  end.

End JS.

Import JS.

(** ** The frame registry *)

(** One entry of [frameInfo].  Every field can be missing: "frame-details"
    creates a record as [{}] and fills [id] and [url]; the geometry and
    [parent] are written later, by the report of the parent frame;
    [absX]/[absY] are written by the hit-tester. *)
Module Frame.

Record t : Type := mk {
  id : option string;
  url : option string;
  x : jsval;
  y : jsval;
  width : jsval;
  height : jsval;
  usableWidth : jsval;
  usableHeight : jsval;
  pagex : jsval;
  pagey : jsval;
  parent : option string;
  absX : jsval;
  absY : jsval
}.

#[global] Instance eq_dec : EqDecision t.
Proof. solve_decision. Defined.

(** [{}] *)
Definition empty : t :=
  mk None None Undef Undef Undef Undef Undef Undef Undef Undef None
    Undef Undef.

(** Optional chaining [info?.f] on a looked-up record. *)
Definition optNum (f : t -> jsval) (info : option t) : jsval :=
  match info with
  | Some r => f r
  | None => Undef
  end.

Definition optStr (f : t -> option string) (info : option t)
  : option string :=
  match info with
  | Some r => f r
  | None => None
  end.

End Frame.

Abbreviation FrameRec := Frame.t.

(** The id of a frame: [`${e.frameId}-${e.processId}`], of two integers. *)
Definition frameIdOf (routingId processId : Z) : string :=
  pretty routingId +:+ "-" +:+ pretty processId.

(** A sub-report of "frame-details": one child frame as its parent sees it. *)
Record Subframe : Type := mkSubframe {
  sf_url : string;
  sf_x : Z;
  sf_y : Z;
  sf_width : Z;
  sf_height : Z
}.

(** The [details] payload of "frame-details". *)
Record Details : Type := mkDetails {
  d_url : string;
  d_subframes : list Subframe;
  d_width : Z;
  d_height : Z;
  d_pagex : Z;
  d_pagey : Z
}.

(** [frameInfo[frameId].id = frameId; frameInfo[frameId].url = details.url] *)
Definition setIdUrl (r : FrameRec) (i u : string) : FrameRec :=
  Frame.mk (Some i) (Some u) (Frame.x r) (Frame.y r) (Frame.width r)
    (Frame.height r) (Frame.usableWidth r) (Frame.usableHeight r)
    (Frame.pagex r) (Frame.pagey r) (Frame.parent r)
    (Frame.absX r) (Frame.absY r).

(** [usable = size; overflow = pos + size - viewport;
     if (overflow > 0) usable -= overflow] *)
Definition usable (pos size viewport : Z) : Z :=
  let overflow := pos + size - viewport in
  if 0 <? overflow then size - overflow else size.

(** The body of the inner [if] of "frame-details": the geometry of a child
    record as described by sub-report [sf] of the frame [frameId]. *)
Definition describe (frameId : string) (d : Details) (sf : Subframe)
    (r : FrameRec) : FrameRec :=
  Frame.mk (Frame.id r) (Frame.url r)
    (Num (sf_x sf)) (Num (sf_y sf))
    (Num (sf_width sf)) (Num (sf_height sf))
    (Num (usable (sf_x sf) (sf_width sf) (d_width d)))
    (Num (usable (sf_y sf) (sf_height sf) (d_height d)))
    (Num (d_pagex d)) (Num (d_pagey d))
    (Some frameId) (Frame.absX r) (Frame.absY r).

(** [frameInfo[id].url === subframe.url && id !== frameId] *)
Definition matches (frameId : string) (sf : Subframe) (i : string)
    (r : FrameRec) : bool :=
  bool_decide (Frame.url r = Some (sf_url sf))
  && negb (bool_decide (i = frameId)).

(** [Object.keys(frameInfo).forEach(id => ...)] for one sub-report.  The
    body reads and writes the record at [id] only, and never the [url] it
    tests, so the visiting order is immaterial: a key-wise map. *)
Definition applySubframe (frameId : string) (d : Details)
    (frameInfo : gmap string FrameRec) (sf : Subframe)
  : gmap string FrameRec :=
  map_imap (fun i r =>
    Some (if matches frameId sf i r then describe frameId d sf r else r))
    frameInfo.

(** [ipcMain.on("frame-details", ...)] *)
Definition frame_details (frameInfo : gmap string FrameRec)
    (frameId : string) (d : Details) : gmap string FrameRec :=
  let r := default Frame.empty (frameInfo !! frameId) in
  let fi := <[frameId := setIdUrl r frameId (d_url d)]> frameInfo in
  foldl (applySubframe frameId d) fi (d_subframes d).

(** ** The absolute-position resolver *)

(** The [while (parent)] loop shared by "follow-response" and
    [translateMouseEvent]. *)
Fixpoint walkParents (fuel : nat) (frameInfo : gmap string FrameRec)
    (frameX frameY : Z) (parent : option string) : option (Z * Z) :=
  if truthyStr parent then
    match fuel with
    | O => None
    | S n =>
        let parentInfo := frameInfo !! default "" parent in
        walkParents n frameInfo
          (frameX + or0 (Frame.optNum Frame.x parentInfo))
          (frameY + or0 (Frame.optNum Frame.y parentInfo))
          (Frame.optStr Frame.parent parentInfo)
    end
  else Some (frameX, frameY).

(** Lines 1756-1765 of "follow-response": the absolute origin of [frameId]. *)
Definition resolveAbsolute (fuel : nat) (frameInfo : gmap string FrameRec)
    (frameId : string) : option (Z * Z) :=
  let info := frameInfo !! frameId in
  walkParents fuel frameInfo
    (or0 (Frame.optNum Frame.x info)) (or0 (Frame.optNum Frame.y info))
    (Frame.optStr Frame.parent info).

(** *** The resolver on doubles *)

(** The same loop of lines 1756-1765 on binary64 values: a record with
    the fields the loop reads, [None] for [undefined]. *)
Module Doubles.

Record t : Type := mk {
  x : option float;
  y : option float;
  parent : option string
}.

(** [v || 0]: [undefined], [NaN] and both zeros give 0. *)
Definition orZero (v : option float) : float :=
  match v with
  | Some f =>
      if PrimFloat.is_nan f || PrimFloat.eqb f 0%float then 0%float else f
  | None => 0%float
  end.

Fixpoint walkParents (fuel : nat) (frameInfo : gmap string t)
    (frameX frameY : float) (parent : option string)
  : option (float * float) :=
  if truthyStr parent then
    match fuel with
    | O => None
    | S n =>
        let parentInfo := frameInfo !! default "" parent in
        walkParents n frameInfo
          (PrimFloat.add frameX (orZero (parentInfo ≫= Doubles.x)))
          (PrimFloat.add frameY (orZero (parentInfo ≫= Doubles.y)))
          (parentInfo ≫= Doubles.parent)
    end
  else Some (frameX, frameY).

Definition resolveAbsolute (fuel : nat) (frameInfo : gmap string t)
    (frameId : string) : option (float * float) :=
  let info := frameInfo !! frameId in
  walkParents fuel frameInfo
    (orZero (info ≫= Doubles.x)) (orZero (info ≫= Doubles.y))
    (info ≫= Doubles.parent).

End Doubles.

(** ** The spatial hit-tester *)

(** The property key a plain object turns into: [frameInfo[parent]] with
    [parent] a record looks up [String(parent)]. *)
Definition objectKey : string := "[object Object]".

(** [info.absX = ...; info.absY = ...] *)
Definition setAbs (r : FrameRec) (ax ay : jsval) : FrameRec :=
  Frame.mk (Frame.id r) (Frame.url r) (Frame.x r) (Frame.y r) (Frame.width r)
    (Frame.height r) (Frame.usableWidth r) (Frame.usableHeight r)
    (Frame.pagex r) (Frame.pagey r) (Frame.parent r) ax ay.

(** Lines 1810-1814: the [while (parent)] loop of the hit-tester, on the
    running values of [info.absX] and [info.absY].  Here [parent] is a
    record, not an id, and the next one is [frameInfo[parent]]. *)
Fixpoint sumParents (fuel : nat) (frameInfo : gmap string FrameRec)
    (ax ay : jsval) (parentRec : option FrameRec) : option (jsval * jsval) :=
  match parentRec with
  | None => Some (ax, ay)
  | Some p =>
      match fuel with
      | O => None
      | S n =>
          sumParents n frameInfo
            (add ax (or (Frame.x p) (Num 0)))
            (add ay (or (Frame.y p) (Num 0)))
            (frameInfo !! objectKey)
      end
  end.

(** The callback of [framesInSubtree.map]: the new store and the reference
    returned ([None] for [null]). *)
Definition absolutize (fuel : nat) (frameInfo : gmap string FrameRec)
    (f : string) : option (gmap string FrameRec * option string) :=
  match frameInfo !! f with
  | None => Some (frameInfo, None)
  | Some info =>
      if truthyStr (Frame.parent info) then
        match sumParents fuel frameInfo (Frame.x info) (Frame.y info)
                (frameInfo !! default "" (Frame.parent info)) with
        | None => None
        | Some (ax, ay) => Some (<[f := setAbs info ax ay]> frameInfo, Some f)
        end
      else Some (frameInfo, None)
  end.

(** [framesInSubtree.map(...).filter(f => f)]: the store after all the
    writes, and the references kept, in enumeration order. *)
Fixpoint absoluteFrames (fuel : nat) (frameInfo : gmap string FrameRec)
    (frames : list string) : option (gmap string FrameRec * list string) :=
  match frames with
  | [] => Some (frameInfo, [])
  | f :: fs =>
      match absolutize fuel frameInfo f with
      | None => None
      | Some (fi1, ref) =>
          match absoluteFrames fuel fi1 fs with
          | None => None
          | Some (fi2, refs) =>
              Some (fi2, match ref with
                         | Some i => i :: refs
                         | None => refs
                         end)
          end
      end
  end.

(** Lines 1819-1820: both nested tests. *)
Definition inside (info : FrameRec) (qx qy : jsval) : bool :=
  (lt (Frame.absX info) qx && lt (Frame.absY info) qy)
  && (gt (add (Frame.absX info) (Frame.width info)) qx
      && gt (add (Frame.absY info) (Frame.height info)) qy).

(** The callback of [absoluteFrames.forEach], on the value of
    [relevantFrame]. *)
Definition pick (qx qy : jsval) (relevantFrame : option FrameRec)
    (info : FrameRec) : option FrameRec :=
  if inside info qx qy then
    match relevantFrame with
    | Some rel =>
        if gt (Frame.width rel) (Frame.width info) then Some info
        else relevantFrame
    | None => Some info
    end
  else relevantFrame.

(** [findRelevantSubFrame(wc, x, y)], with [frames] the ids of
    [wc.mainFrame.framesInSubtree].  The references collected by the map
    are read once every write is done, so in the final store. *)
Definition findRelevantSubFrame (fuel : nat)
    (frameInfo : gmap string FrameRec) (frames : list string)
    (qx qy : jsval) : option (gmap string FrameRec * option FrameRec) :=
  match absoluteFrames fuel frameInfo frames with
  | None => None
  | Some (fi, refs) =>
      Some (fi, fold_left (pick qx qy) (omap (fun i => fi !! i) refs) None)
  end.

(** ** The dispatcher of "action" *)

Inductive effect : Type :=
| FrameSend (target : string) (actionName : string) (args : list jsval)
| MainError.

(** [wc.mainFrame.framesInSubtree.find(f => frameId(f) === subframe.id)] *)
Definition findFrameRef (frames : list string) (i : option string)
  : option string :=
  List.find (fun f => bool_decide (Some f = i)) frames.

(** [ipcMain.on("action", ...)] on a page that exists, with [frames] the
    ids of its frames: the store after the call and the messages sent, in
    order.  [opts] holds numbers or missing values.  (What the handler
    does for an id without a page is [action_handler], further down.) *)
Definition action (fuel : nat) (frameInfo : gmap string FrameRec)
    (frames : list string) (actionName : string) (opts : list jsval)
  : option (gmap string FrameRec * list effect) :=
  let opt (n : nat) := nth n opts Undef in
  let broadcast := map (fun f => FrameSend f actionName opts) frames in
  if isNumber (opt 0%nat) && isNumber (opt 1%nat) then
    match findRelevantSubFrame fuel frameInfo frames (opt 0%nat) (opt 1%nat)
    with
    | None => None
    | Some (fi, None) => Some (fi, broadcast)
    | Some (fi, Some subframe) =>
        match findFrameRef frames (Frame.id subframe) with
        | None => Some (fi, [MainError])
        | Some frameRef =>
            let sx := sub (opt 0%nat) (Frame.absX subframe) in
            let sy := sub (opt 1%nat) (Frame.absY subframe) in
            Some (fi,
              ((if String.eqb actionName "selectionRequest" then
                  [FrameSend frameRef actionName
                     [sx; sy; sub (opt 2%nat) (Frame.absX subframe);
                      sub (opt 3%nat) (Frame.absY subframe)]]
                else [])
               ++ [FrameSend frameRef actionName
                     (sx :: sy :: skipn 2 opts)])%list)
        end
    end
  else Some (frameInfo, broadcast).

(** ** The link aggregator *)

(** A link as a frame reports it in "follow-response": its position in the
    frame, and the rest of its properties, which the spread copies. *)
Module RawLink.

Record t : Type := mk {
  x : Z;
  y : Z;
  rest : string
}.

End RawLink.

(** An element of [allLinks]. *)
Module Link.

Record t : Type := mk {
  rest : string;
  frameAbsX : Z;
  frameAbsY : Z;
  frameHeight : jsval;
  frameId : string;
  frameUsableHeight : jsval;
  frameUsableWidth : jsval;
  frameWidth : jsval;
  frameX : jsval;
  frameY : jsval;
  x : Z;
  xInFrame : Z;
  y : Z;
  yInFrame : Z
}.

#[global] Instance eq_dec : EqDecision t.
Proof. solve_decision. Defined.

End Link.

(** The callback of [rawLinks.map] (lines 1766-1781). *)
Definition toLink (info : option FrameRec) (frameId : string)
    (frameX frameY : Z) (l : RawLink.t) : Link.t :=
  Link.mk (RawLink.rest l) frameX frameY
    (Frame.optNum Frame.height info) frameId
    (Frame.optNum Frame.usableHeight info)
    (Frame.optNum Frame.usableWidth info)
    (Frame.optNum Frame.width info)
    (Frame.optNum Frame.x info) (Frame.optNum Frame.y info)
    (RawLink.x l + frameX) (RawLink.x l)
    (RawLink.y l + frameY) (RawLink.y l).

(** The callback of the [filter] that follows (lines 1781-1787). *)
Definition unclipped (l : Link.t) : bool :=
  if negb (truthy (Link.frameUsableHeight l))
     || negb (truthy (Link.frameUsableWidth l))
  then true
  else lt (Num (Link.yInFrame l)) (Link.frameUsableHeight l)
       && lt (Num (Link.xInFrame l)) (Link.frameUsableWidth l).

(** [frameLinks]: the batch of one report. *)
Definition frameLinks (fuel : nat) (frameInfo : gmap string FrameRec)
    (frameId : string) (rawLinks : list RawLink.t) : option (list Link.t) :=
  match resolveAbsolute fuel frameInfo frameId with
  | None => None
  | Some (frameX, frameY) =>
      Some (List.filter unclipped
              (map (toLink (frameInfo !! frameId) frameId frameX frameY)
                 rawLinks))
  end.

(** The callback of [allLinks.filter] (lines 1791-1792). *)
Definition stillLive (allFramesIds : list string) (frameId : string)
    (l : Link.t) : bool :=
  negb (bool_decide (Link.frameId l = frameId))
  && bool_decide (Link.frameId l ∈ allFramesIds).

(** [ipcMain.on("follow-response", ...)]: the new value of [allLinks], which
    is also what is sent to the renderer.  [allFramesIds] are the ids of the
    frames of the main window at the time of the call. *)
Definition follow_response (fuel : nat) (frameInfo : gmap string FrameRec)
    (allFramesIds : list string) (frameId : string)
    (rawLinks : list RawLink.t) (allLinks : list Link.t)
  : option (list Link.t) :=
  match frameLinks fuel frameInfo frameId rawLinks with
  | None => None
  | Some batch =>
      Some (List.filter (stillLive allFramesIds frameId) allLinks ++ batch)%list
  end.

(** ** The event translator *)

(** The positional fields of a [clickInfo], and the url it names. *)
Module Click.

Record t : Type := mk {
  x : jsval;
  y : jsval;
  startX : jsval;
  startY : jsval;
  endX : jsval;
  endY : jsval;
  frame : option string
}.

End Click.

(** What [translateMouseEvent] returns. *)
Module Mouse.

Record t : Type := mk {
  endX : jsval;
  endY : jsval;
  frame : option string;
  frameAbsX : Z;
  frameAbsY : Z;
  frameHeight : jsval;
  frameId : string;
  frameWidth : jsval;
  frameX : jsval;
  frameY : jsval;
  startX : jsval;
  startY : jsval;
  webviewId : option Z;
  x : jsval;
  xInFrame : jsval;
  y : jsval;
  yInFrame : jsval
}.

End Mouse.

(** Lines 1942-1948: the loop of [translateMouseEvent], which also tracks
    [parentId], the id of the outermost ancestor seen. *)
Fixpoint walkOwner (fuel : nat) (frameInfo : gmap string FrameRec)
    (frameId : string) (frameX frameY : Z) (parent : option string)
    (parentId : string) : option (Z * Z * string) :=
  if truthyStr parent then
    match fuel with
    | O => None
    | S n =>
        let parentInfo := frameInfo !! default "" parent in
        let pid := Frame.optStr Frame.id parentInfo in
        walkOwner n frameInfo frameId
          (frameX + or0 (Frame.optNum Frame.x parentInfo))
          (frameY + or0 (Frame.optNum Frame.y parentInfo))
          (Frame.optStr Frame.parent parentInfo)
          (if truthyStr pid then default "" pid else frameId)
    end
  else Some (frameX, frameY, parentId).

(** [translateMouseEvent(e, clickInfo)], with [frameId] the id of the
    sender and [allWebContents] the main-frame id and the id of every live
    webContents. *)
Definition translateMouseEvent (fuel : nat)
    (frameInfo : gmap string FrameRec) (allWebContents : list (string * Z))
    (frameId : string) (clickInfo : Click.t) : option Mouse.t :=
  let info := frameInfo !! frameId in
  match walkOwner fuel frameInfo frameId
          (or0 (Frame.optNum Frame.x info)) (or0 (Frame.optNum Frame.y info))
          (Frame.optStr Frame.parent info) frameId with
  | None => None
  | Some (frameX, frameY, parentId) =>
      let frameUrl :=
        if truthy (Frame.optNum Frame.x info)
           && truthyStr (Frame.optStr Frame.url info)
        then Frame.optStr Frame.url info
        else Click.frame clickInfo in
      let webviewId :=
        snd <$> List.find (fun wc => String.eqb (fst wc) parentId)
                  allWebContents in
      Some (Mouse.mk
        (or (add (Click.endX clickInfo) (Num frameX)) Null)
        (or (add (Click.endY clickInfo) (Num frameY)) Null)
        frameUrl frameX frameY
        (Frame.optNum Frame.height info) frameId
        (Frame.optNum Frame.width info)
        (Frame.optNum Frame.x info) (Frame.optNum Frame.y info)
        (or (add (Click.startX clickInfo) (Num frameX)) Null)
        (or (add (Click.startY clickInfo) (Num frameY)) Null)
        webviewId
        (add (Click.x clickInfo) (Num frameX)) (Click.x clickInfo)
        (add (Click.y clickInfo) (Num frameY)) (Click.y clickInfo))
  end.

(** ** Notions used to state the properties *)

(** *** Resolver *)

(** Moving an origin by an offset. *)
Definition shift (d p : Z * Z) : Z * Z := (p.1 + d.1, p.2 + d.2).

(** The parent chain from [p] ends after [n] hops. *)
Inductive chainEnds (frameInfo : gmap string FrameRec)
  : option string -> nat -> Prop :=
| chain_stop p : truthyStr p = false -> chainEnds frameInfo p 0
| chain_hop p n :
    truthyStr p = true ->
    chainEnds frameInfo
      (Frame.optStr Frame.parent (frameInfo !! default "" p)) n ->
    chainEnds frameInfo p (S n).

(** *** Reports *)

(** What one sub-report of a "frame-details" does to the record at key
    [i]. *)
Definition touch (frameId : string) (d : Details) (sf : Subframe)
    (i : string) (r : FrameRec) : FrameRec :=
  if matches frameId sf i r then describe frameId d sf r else r.

(** The effect of the whole [subframes.forEach] on the record at [i]: the
    last sub-report that matches it describes it. *)
Definition touchAll (frameId : string) (d : Details) (sfs : list Subframe)
    (i : string) (r : FrameRec) : FrameRec :=
  match List.find (fun sf => matches frameId sf i r) (rev sfs) with
  | Some sf => describe frameId d sf r
  | None => r
  end.

(** The registries the main process goes through: [frameInfo] starts
    empty, and the reports and the hit-tests are its only writers. *)
Inductive reachable : gmap string FrameRec -> Prop :=
| reach_start : reachable ∅
| reach_report frameInfo routingId processId d :
    reachable frameInfo ->
    reachable (frame_details frameInfo (frameIdOf routingId processId) d)
| reach_hit frameInfo fuel frames qx qy fi res :
    reachable frameInfo ->
    findRelevantSubFrame fuel frameInfo frames qx qy = Some (fi, res) ->
    reachable fi.

(** The sizes of a record are all unset, or all numbers with each usable
    size at most the full one. *)
Definition usableOk (r : FrameRec) : Prop :=
  (Frame.width r = Undef /\ Frame.usableWidth r = Undef
   /\ Frame.height r = Undef /\ Frame.usableHeight r = Undef)
  \/ exists w uw h uh,
       Frame.width r = Num w /\ Frame.usableWidth r = Num uw
       /\ Frame.height r = Num h /\ Frame.usableHeight r = Num uh
       /\ uw <= w /\ uh <= h.

(** *** Hit-tests *)

(** The string opens with a square bracket, as [objectKey] does. *)
Definition startsBracket (s : string) : bool :=
  match s with
  | String c _ => Ascii.eqb c "["
  | EmptyString => false
  end.

(** The origin the hit-tester ends up storing for a record that has a
    parent: its own [x], [y], plus [x || 0], [y || 0] of the record its
    [parent] names when that record is registered. *)
Definition hitOrigin (frameInfo : gmap string FrameRec) (info : FrameRec)
  : jsval * jsval :=
  match frameInfo !! default "" (Frame.parent info) with
  | Some p =>
      (add (Frame.x info) (or (Frame.x p) (Num 0)),
       add (Frame.y info) (or (Frame.y p) (Num 0)))
  | None => (Frame.x info, Frame.y info)
  end.

Definition absolutized (frameInfo : gmap string FrameRec) (info : FrameRec)
  : FrameRec :=
  setAbs info (hitOrigin frameInfo info).1 (hitOrigin frameInfo info).2.

(** The record at key [i] is visited by the hit-tester and not skipped. *)
Definition enumerated (frames : list string) (i : string) (r : FrameRec)
  : bool :=
  bool_decide (i ∈ frames) && truthyStr (Frame.parent r).

(** The registry a hit-test leaves behind. *)
Definition absStore (frameInfo : gmap string FrameRec) (frames : list string)
  : gmap string FrameRec :=
  map_imap (fun i r =>
    Some (if enumerated frames i r then absolutized frameInfo r else r))
    frameInfo.

(** The references a hit-test keeps. *)
Definition absRefs (frameInfo : gmap string FrameRec) (frames : list string)
  : list string :=
  List.filter
    (fun i => truthyStr (Frame.optStr Frame.parent (frameInfo !! i))) frames.

(** The loop of the hit-tester returns for the frame [f]. *)
Definition stepRuns (fuel : nat) (frameInfo : gmap string FrameRec)
    (f : string) : bool :=
  match frameInfo !! f with
  | None => true
  | Some info =>
      if truthyStr (Frame.parent info) then
        match frameInfo !! default "" (Frame.parent info) with
        | None => true
        | Some _ =>
            match fuel, frameInfo !! objectKey with
            | S _, None => true
            | _, _ => false
            end
        end
      else true
  end.

(** A record without what the hit-tester writes. *)
Definition clearAbs (r : FrameRec) : FrameRec := setAbs r Undef Undef.

(** Two registries that differ in [absX] and [absY] only. *)
Definition absEq (g1 g2 : gmap string FrameRec) : Prop :=
  forall i, clearAbs <$> g1 !! i = clearAbs <$> g2 !! i.

(** The records that pass the test of lines 1819-1820 in a hit-test at
    [(qx, qy)], read in the registry [frameInfo] the hit-tester has written
    to: those of the enumerated frames, in order, that are registered with
    a parent and for which the test holds on what the record stores
    ([absX], [absY], [width], [height]).  Whether the stored origin is the
    window-absolute one is another matter. *)
Definition passing (frameInfo : gmap string FrameRec)
    (frames : list string) (qx qy : jsval) : list FrameRec :=
  List.filter (fun r => inside r qx qy)
    (omap (fun i => frameInfo !! i) (absRefs frameInfo frames)).

(** [res] is the first of the narrowest records of [cands]: every record
    before it is strictly wider, every record after it at least as wide. *)
Definition firstNarrowest (cands : list FrameRec) (res : option FrameRec)
  : Prop :=
  match res with
  | None => cands = []
  | Some r =>
      exists before after w,
        cands = (before ++ r :: after)%list
        /\ toNumber (Frame.width r) = Some w
        /\ Forall (fun c => exists wc,
                     toNumber (Frame.width c) = Some wc /\ w < wc) before
        /\ Forall (fun c => exists wc,
                     toNumber (Frame.width c) = Some wc /\ w <= wc) after
  end.

(** *** Links and mouse events *)

(** The usable rectangle of a frame, as a region of its local coordinates:
    [usableWidth] by [usableHeight] from the frame's own origin. *)
Definition insideUsable (info : option FrameRec) (l : RawLink.t) : Prop :=
  exists w h,
    Frame.optNum Frame.usableWidth info = Num w
    /\ Frame.optNum Frame.usableHeight info = Num h
    /\ 0 <= RawLink.x l < w /\ 0 <= RawLink.y l < h.

(** How a span field of a [clickInfo] comes out of [translateMouseEvent]
    for the offset [off]. *)
Definition spanField (input : jsval) (off : Z) (output : jsval) : Prop :=
  (input = Undef -> output = Null)
  /\ (forall v, input = Num v -> v + off = 0 -> output = Null)
  /\ (forall v, input = Num v -> v + off <> 0 -> output = Num (v + off)).

(** ** Example registries and messages *)

(** The registry of the scenarios of the specification: a root page
    ["1-1"] and a child frame ["2-1"] that has announced itself. *)
Definition twoFrames : gmap string FrameRec :=
  frame_details
    (frame_details ∅ "1-1" (mkDetails "https://root/" [] 800 600 0 0))
    "2-1" (mkDetails "https://child/" [] 300 200 0 0).

Definition childRect : Subframe := mkSubframe "https://child/" 100 50 300 200.

(** The two-frame registry once the root page has described its child:
    the child is at (100, 50), 300 by 200, in a viewport of 800 by 600. *)
Definition described : gmap string FrameRec :=
  frame_details twoFrames "1-1"
    (mkDetails "https://root/" [childRect] 800 600 0 0).

(** Three levels of nesting under the root page ["1-1"]: ["2-1"] at
    (100, 100) in the root, ["3-1"] at (50, 50) in ["2-1"], ["4-1"] at
    (10, 10) in ["3-1"].  Every frame announces itself, then describes its
    child. *)
Definition nested : gmap string FrameRec :=
  let say (u : string) (sfs : list Subframe) (w h : Z) :=
    mkDetails u sfs w h 0 0 in
  let f := frame_details ∅ "1-1" (say "https://root/" [] 800 600) in
  let f := frame_details f "2-1" (say "https://a/" [] 500 400) in
  let f := frame_details f "3-1" (say "https://b/" [] 300 200) in
  let f := frame_details f "4-1" (say "https://c/" [] 20 20) in
  let f := frame_details f "1-1"
             (say "https://root/"
                [mkSubframe "https://a/" 100 100 500 400] 800 600) in
  let f := frame_details f "2-1"
             (say "https://a/" [mkSubframe "https://b/" 50 50 300 200]
                500 400) in
  frame_details f "3-1"
    (say "https://b/" [mkSubframe "https://c/" 10 10 20 20] 300 200).

(** The record of the child frame in [described]. *)
Definition childRec : FrameRec :=
  Frame.mk (Some "2-1") (Some "https://child/") (Num 100) (Num 50)
    (Num 300) (Num 200) (Num 300) (Num 200) (Num 0) (Num 0) (Some "1-1")
    Undef Undef.

(** The same record when the root page reports a viewport 350 wide. *)
Definition childClipped : FrameRec :=
  Frame.mk (Some "2-1") (Some "https://child/") (Num 100) (Num 50)
    (Num 300) (Num 200) (Num 250) (Num 200) (Num 0) (Num 0) (Some "1-1")
    Undef Undef.

Definition nestedFrames : list string := ["1-1"; "2-1"; "3-1"; "4-1"].

(** The frames of the window in these examples. *)
Definition liveFrames : list string := ["1-1"; "2-1"].

(** Two links of the child frame of [described]: one in view, one past the
    right edge of its usable rectangle. *)
Definition twoLinks : list RawLink.t :=
  [RawLink.mk 5 5 "first"; RawLink.mk 400 5 "second"].

(** A follow-mode session on [described]: the root page reports a link,
    then the child frame reports twice. *)
Definition afterRoot : list Link.t :=
  default []
    (follow_response 1 described liveFrames "1-1" [RawLink.mk 30 40 "home"]
       []).

Definition afterFirst : list Link.t :=
  default [] (follow_response 1 described liveFrames "2-1" twoLinks afterRoot).

Definition afterSecond : list Link.t :=
  default []
    (follow_response 1 described liveFrames "2-1" [RawLink.mk 7 7 "again"]
       afterFirst).

(** A drag in the child frame of [described], whose origin is (100, 50):
    it starts at x = -100 of the frame, that is at x = 0 of the window; its
    start has no y. *)
Definition dragInChild : Click.t :=
  Click.mk (Num 20) (Num 20) (Num (-100)) Undef (Num 50) (Num 40) None.

(** What [translateMouseEvent] makes of it. *)
Definition dragInWindow : Mouse.t :=
  Mouse.mk (Num 150) (Num 90) (Some "https://child/") 100 50 (Num 200)
    "2-1" (Num 300) (Num 100) (Num 50) Null Null (Some 7) (Num 120) (Num 20)
    (Num 70) (Num 20).

(** A chain of three frames whose local x origins are fractions, 0.1 in
    ["4-1"], 0.2 in ["3-1"] and 0.3 in ["2-1"], under the page ["1-1"]:
    the fields the resolver reads, on doubles. *)
Definition fractional : gmap string Doubles.t :=
  {[ "1-1" := Doubles.mk None None None;
     "2-1" := Doubles.mk (Some 0.3%float) (Some 0%float) (Some "1-1");
     "3-1" := Doubles.mk (Some 0.2%float) (Some 0%float) (Some "2-1");
     "4-1" := Doubles.mk (Some 0.1%float) (Some 0%float) (Some "3-1") ]}.

(** * The other handlers and the state around them

    The rest of the embedding covers more of the main process: the other
    frame dispatchers, [allLinks] over a follow-mode session, the list of
    downloads and the name a download is saved under, the permission
    handler, the login dialog and the command line.

    Strings are [string], sequences of bytes.  The source cuts and
    compares them at ASCII characters only (".", "=", ",", "~", "-"), on
    which the bytes of UTF-8 and the code units of UTF-16 agree; what
    depends on the alphabet or on a library ([toLowerCase], [trim],
    regular expressions, paths, the file system) is a variable of the
    section that uses it.  Counters are [N]; ids and indices are [Z]. *)


(** ** Further notions: the registry *)

(** What holds of the record [r] at key [i] of a registry the reports
    built: it carries its key and a url; without a parent it has no
    geometry; with one, the parent is the id of another registered frame
    and the geometry is numbers. *)
Definition recordOk (frameInfo : gmap string FrameRec) (i : string)
    (r : FrameRec) : Prop :=
  Frame.id r = Some i
  /\ is_Some (Frame.url r)
  /\ match Frame.parent r with
     | None =>
         Frame.x r = Undef /\ Frame.y r = Undef
         /\ Frame.width r = Undef /\ Frame.height r = Undef
     | Some p =>
         p <> "" /\ p <> i /\ is_Some (frameInfo !! p)
         /\ exists x y w h,
              Frame.x r = Num x /\ Frame.y r = Num y
              /\ Frame.width r = Num w /\ Frame.height r = Num h
     end.

Definition wellFormed (frameInfo : gmap string FrameRec) : Prop :=
  forall i r, frameInfo !! i = Some r -> recordOk frameInfo i r.

(** The three reports by which two frames come to describe each other:
    [A] announces itself, [B] reports with a sub-report for the url of
    [A], and [A] reports again with a sub-report for the url of [B]. *)
Definition mutualReports (frameInfo : gmap string FrameRec) (A B : string)
    (dA dB : Details) : gmap string FrameRec :=
  frame_details (frame_details (frame_details frameInfo A dA) B dB) A dA.


(** ** The other frame handlers *)

(** A position with the other properties of the object that carries it
    ([info] of "contextmenu-data", [location] of "focus-input"). *)
Module Point.

Record t : Type := mk {
  x : jsval;
  y : jsval;
  rest : string
}.

End Point.

(** What a handler sends: to a frame of the page, to the page itself
    ([wc.send]), or "main-error" to the main window. *)
Inductive sent (A B : Type) : Type :=
| ToFrame (frameRef : string) (body : A)
| ToPage (body : B)
| ToMainError.

Arguments ToFrame {A B} frameRef body.
Arguments ToPage {A B} body.
Arguments ToMainError {A B}.

(** How a handler ends: it returns, or an exception that nothing catches
    leaves it. *)
Inductive ending : Type :=
| Returns
| Throws.

(** In the handlers below [wc] is [webContents.fromId(id)]: the ids of the
    frames of the page, or [None] when there is no page with that id.
    [findRelevantSubFrame(undefined, x, y)] catches the exception of
    [wc.mainFrame], sends "main-error" and returns [null]; a call on [wc]
    outside a [try] then throws. *)

(** [ipcMain.on("contextmenu-data", ...)] *)
Definition contextmenu_data (fuel : nat) (frameInfo : gmap string FrameRec)
    (wc : option (list string)) (info : Point.t)
  : option (gmap string FrameRec * list (sent Point.t Point.t) * ending) :=
  match wc with
  | None => Some (frameInfo, [ToMainError], Throws)
  | Some frames =>
      match findRelevantSubFrame fuel frameInfo frames (Point.x info)
              (Point.y info) with
      | None => None
      | Some (fi, Some subframe) =>
          match findFrameRef frames (Frame.id subframe) with
          | Some frameRef =>
              Some (fi,
                [ToFrame frameRef
                   (Point.mk (sub (Point.x info) (Frame.absX subframe))
                      (sub (Point.y info) (Frame.absY subframe))
                      (Point.rest info))],
                Returns)
          | None => Some (fi, [ToMainError], Returns)
          end
      | Some (fi, None) => Some (fi, [ToPage info], Returns)
      end
  end.

(** [ipcMain.on("focus-input", ...)]: [location] is an object or [null];
    a frame gets a fresh object with [x] and [y] only. *)
Definition focus_input (fuel : nat) (frameInfo : gmap string FrameRec)
    (wc : option (list string)) (location : option Point.t)
  : option (gmap string FrameRec
            * list (sent (jsval * jsval) (option Point.t)) * ending) :=
  match wc, location with
  | None, Some _ => Some (frameInfo, [ToMainError], Throws)
  | None, None => Some (frameInfo, [], Throws)
  | Some frames, Some loc =>
      match findRelevantSubFrame fuel frameInfo frames (Point.x loc)
              (Point.y loc) with
      | None => None
      | Some (fi, Some subframe) =>
          match findFrameRef frames (Frame.id subframe) with
          | Some frameRef =>
              Some (fi,
                [ToFrame frameRef
                   (sub (Point.x loc) (Frame.absX subframe),
                    sub (Point.y loc) (Frame.absY subframe))],
                Returns)
          | None => Some (fi, [ToMainError], Returns)
          end
      | Some (fi, None) => Some (fi, [ToPage location], Returns)
      end
  | Some _, None => Some (frameInfo, [ToPage location], Returns)
  end.

(** [ipcMain.on("action", ...)] for any id: [action] is its course on a
    page that exists; without a page the hit-test, when it is made, sends
    "main-error", and [wc.mainFrame] of line 1861 throws. *)
Definition action_handler (fuel : nat) (frameInfo : gmap string FrameRec)
    (wc : option (list string)) (actionName : string) (opts : list jsval)
  : option (gmap string FrameRec * list effect * ending) :=
  match wc with
  | None =>
      Some (frameInfo,
            if isNumber (nth 0 opts Undef) && isNumber (nth 1 opts Undef)
            then [MainError] else [],
            Throws)
  | Some frames =>
      (fun r => (r, Returns)) <$> action fuel frameInfo frames actionName opts
  end.

(** The [inputInfo] of "send-input-event". *)
Module InputInfo.

Record t : Type := mk {
  type : option string;
  x : jsval;
  y : jsval;
  deltaX : jsval;
  deltaY : jsval;
  button : option string
}.

End InputInfo.

(** An event object, as sent to a frame with "custom-mouse-event" or
    handed to [wc.sendInputEvent]: the fields that are set. *)
Module MouseEv.

Record t : Type := mk {
  type : option string;
  x : jsval;
  y : jsval;
  deltaX : option jsval;
  deltaY : option jsval;
  button : option string;
  clickCount : option Z
}.

End MouseEv.

Inductive inputSent : Type :=
| Custom (frameRef : string) (name : string) (ev : MouseEv.t)
| Native (ev : MouseEv.t)
| InputError.

(** [inputInfo.button || "left"] *)
Definition buttonOf (inputInfo : InputInfo.t) : string :=
  if truthyStr (InputInfo.button inputInfo)
  then default "" (InputInfo.button inputInfo)
  else "left".

(** [inputInfo.type === s] *)
Definition typeIs (inputInfo : InputInfo.t) (s : string) : bool :=
  bool_decide (InputInfo.type inputInfo = Some s).

(** [ipcMain.on("send-input-event", ...)] *)
Definition send_input_event (fuel : nat) (frameInfo : gmap string FrameRec)
    (wc : option (list string)) (inputInfo : InputInfo.t)
  : option (gmap string FrameRec * list inputSent * ending) :=
  let X := InputInfo.x inputInfo in
  let Y := InputInfo.y inputInfo in
  let dX := or (InputInfo.deltaX inputInfo) (Num 0) in
  let dY := or (InputInfo.deltaY inputInfo) (Num 0) in
  match wc with
  | None => Some (frameInfo, [InputError], Throws)
  | Some frames =>
      match findRelevantSubFrame fuel frameInfo frames X Y with
      | None => None
      | Some (fi, Some subframe) =>
          match findFrameRef frames (Frame.id subframe) with
          | None => Some (fi, [InputError], Returns)
          | Some frameRef =>
              let lx := sub X (Frame.absX subframe) in
              let ly := sub Y (Frame.absY subframe) in
              let at_ := MouseEv.mk None lx ly None None None None in
              Some (fi,
                (if typeIs inputInfo "scroll" then
                   [Custom frameRef "mousewheel"
                      (MouseEv.mk None lx ly (Some dX) (Some dY) None None)]
                 else if typeIs inputInfo "click" then
                   [Custom frameRef "click"
                      (MouseEv.mk None lx ly None None
                         (Some (buttonOf inputInfo)) None)]
                 else if typeIs inputInfo "leave" then
                   [Custom frameRef "mouseleave" at_]
                 else [Custom frameRef "mouseenter" at_]),
                Returns)
          end
      | Some (fi, None) =>
          let ev (t : string) :=
            MouseEv.mk (Some t) X Y None None None None in
          Some (fi,
            (if typeIs inputInfo "scroll" then
               [Native (MouseEv.mk (Some "mouseWheel") X Y (Some dX)
                          (Some dY) None None)]
             else
               ([Native (ev "mouseEnter"); Native (ev "mouseMove")]
                ++ (if typeIs inputInfo "click" then
                      [Native (MouseEv.mk (Some "mouseDown") X Y None None
                                 (Some (buttonOf inputInfo)) (Some 1));
                       Native (MouseEv.mk (Some "mouseUp") X Y None None
                                 (Some (buttonOf inputInfo)) None)]
                    else [])
                ++ (if typeIs inputInfo "click" || typeIs inputInfo "leave"
                    then [Native (ev "mouseLeave")]
                    else []))%list),
            Returns)
      end
  end.

(** What "send-keyboard-event" emits: an input event of the page with its
    [type], or a "keyboard-type-event" for a frame. *)
Inductive keySent : Type :=
| KeyInput (type : string)
| KeyNotify (routingId processId : Z)
| KeyError.

(** The calls that "send-keyboard-event" goes through on a page that
    exists, in order, and whether the handler throws by itself after the
    last of them: reading [length] of a missing [keyCode] throws, after
    the first event has gone.  [keyCode] is [keyOptions.keyCode] as its
    UTF-16 code units, [mainRouting] the routing id of the main frame of
    the page, [frames] the routing and process ids of its frames. *)
Definition keyboardCalls (mainRouting : Z) (frames : list (Z * Z))
    (keyCode : option (list N)) : list keySent * bool :=
  match keyCode with
  | None => ([KeyInput "keyDown"], true)
  | Some k =>
      (([KeyInput "keyDown"]
        ++ (if (List.length k =? 1)%nat then [KeyInput "char"] else [])
        ++ [KeyInput "keyUp"]
        ++ map (fun f => KeyNotify (fst f) (snd f))
             (List.filter (fun f => negb (fst f =? mainRouting)) frames))%list,
       false)
  end.

(** [ipcMain.on("send-keyboard-event", ...)]: the whole of it is in a
    [try], so whatever throws ends it with "main-error".  [wc] is the page
    ([None] when there is none: the first call throws); [broken] is the
    index of the first call that throws, a call on a page or a frame that
    is gone, if there is one. *)
Definition send_keyboard_event (wc : option (Z * list (Z * Z)))
    (keyCode : option (list N)) (broken : option nat) : list keySent :=
  match wc with
  | None => [KeyError]
  | Some (mainRouting, frames) =>
      let '(calls, throws) := keyboardCalls mainRouting frames keyCode in
      match broken with
      | Some n =>
          if (n <? List.length calls)%nat
          then (firstn n calls ++ [KeyError])%list
          else (calls ++ (if throws then [KeyError] else []))%list
      | None => (calls ++ (if throws then [KeyError] else []))%list
      end
  end.

(** What "follow-mode-start" sends: the filter to a frame, or
    "main-error". *)
Inductive startSent : Type :=
| StartTo (frameRef : string) (followTypeFilter : string)
| StartError.

(** [ipcMain.on("follow-mode-start", ...)]: the messages and the new value
    of [allLinks].  [frames] are the frames of the page with the id given,
    [None] when there is no such page: [webContents.fromId(id)] is then
    undefined, and reading [mainFrame] of it throws before anything else
    is done. *)
Definition follow_mode_start (frames : option (list string))
    (followTypeFilter : string) (switchTo : bool) (allLinks : list Link.t)
  : list startSent * list Link.t :=
  match frames with
  | None => ([StartError], allLinks)
  | Some fs =>
      (map (fun f => StartTo f followTypeFilter) fs,
       if switchTo then [] else allLinks)
  end.

(** *** A follow-mode session *)

(** The two handlers that write [allLinks], with what each call gets; a
    report comes with the registry and the live frames of its time. *)
Inductive linkEvent : Type :=
| ModeStart (frames : option (list string)) (followTypeFilter : string)
    (switchTo : bool)
| Response (frameInfo : gmap string FrameRec) (allFramesIds : list string)
    (frameId : string) (rawLinks : list RawLink.t).

Definition linkStep (fuel : nat) (ev : linkEvent) (allLinks : list Link.t)
  : option (list Link.t) :=
  match ev with
  | ModeStart frames followTypeFilter switchTo =>
      Some (snd (follow_mode_start frames followTypeFilter switchTo allLinks))
  | Response frameInfo allFramesIds frameId rawLinks =>
      follow_response fuel frameInfo allFramesIds frameId rawLinks allLinks
  end.

(** [allLinks] after the calls [evs], in this order. *)
Fixpoint linksAfter (fuel : nat) (evs : list linkEvent)
    (allLinks : list Link.t) : option (list Link.t) :=
  match evs with
  | [] => Some allLinks
  | ev :: rest =>
      match linkStep fuel ev allLinks with
      | None => None
      | Some allLinks' => linksAfter fuel rest allLinks'
      end
  end.

(** The entries of [allLinks] that belong to the frame [B]. *)
Definition linksOf (B : string) (allLinks : list Link.t) : list Link.t :=
  List.filter (fun l => bool_decide (Link.frameId l = B)) allLinks.

(** The batch of the latest report of the frame [B] among [evs], [acc]
    when it made none. *)
Fixpoint lastReport (fuel : nat) (evs : list linkEvent) (B : string)
    (acc : option (list Link.t)) : option (list Link.t) :=
  match evs with
  | [] => acc
  | Response frameInfo _ frameId rawLinks :: rest =>
      lastReport fuel rest B
        (if bool_decide (frameId = B)
         then frameLinks fuel frameInfo frameId rawLinks
         else acc)
  | ModeStart _ _ _ :: rest => lastReport fuel rest B acc
  end.

(** Every "mouseDown" handed to the page is followed at once by a
    "mouseUp" with the same button at the same point, and no "mouseUp"
    comes without its "mouseDown". *)
Fixpoint balanced (msgs : list inputSent) : bool :=
  match msgs with
  | [] => true
  | Native down :: rest =>
      if bool_decide (MouseEv.type down = Some "mouseDown") then
        match rest with
        | Native up :: rest' =>
            bool_decide (MouseEv.type up = Some "mouseUp")
            && bool_decide (MouseEv.button up = MouseEv.button down)
            && bool_decide (MouseEv.x up = MouseEv.x down)
            && bool_decide (MouseEv.y up = MouseEv.y down)
            && balanced rest'
        | _ => false
        end
      else if bool_decide (MouseEv.type down = Some "mouseUp") then false
      else balanced rest
  | _ :: rest => balanced rest
  end.

(** Example messages on [described]. *)
Definition menuAt : Point.t := Point.mk (Num 120) (Num 70) "link".

Definition clickAt : InputInfo.t :=
  InputInfo.mk (Some "click") (Num 120) (Num 70) Undef Undef None.

(** A session on [described]: follow mode starts, the root page and the
    child frame report, the child frame goes away, the root page reports
    again. *)
Definition session : list linkEvent :=
  [ModeStart (Some liveFrames) "all" true;
   Response described liveFrames "1-1" [RawLink.mk 30 40 "home"];
   Response described liveFrames "2-1" twoLinks;
   Response described ["1-1"] "1-1" [RawLink.mk 31 41 "home"]].

(** ** Downloads: the name a file is saved under *)

(** [s.lastIndexOf(pat)] for a non-empty [pat], scanning [s] from the
    index [i] it starts at: the greatest index at which [pat] occurs,
    [acc] when there is none ([None] stands for -1). *)
Fixpoint lastIndexFrom (pat s : string) (i : nat) (acc : option nat)
  : option nat :=
  let acc' := if String.prefix pat s then Some i else acc in
  match s with
  | EmptyString => acc'
  | String _ s' => lastIndexFrom pat s' (S i) acc'
  end.

Definition lastIndexOf (pat s : string) : option nat :=
  lastIndexFrom pat s 0 None.

(** [extStart] after the two look-ups of lines 841-844. *)
Definition extStart (filename : string) : option nat :=
  match lastIndexOf ".tar." filename with
  | Some i => Some i
  | None => lastIndexOf "." filename
  end.

(** [newFilename] as lines 845-850 build it for [duplicateNumber]. *)
Definition numbered (filename : string) (duplicateNumber : N) : string :=
  match extStart filename with
  | None => filename +:+ " (" +:+ pretty duplicateNumber +:+ ")"
  | Some i =>
      substring 0 i filename +:+ " (" +:+ pretty duplicateNumber +:+ ")."
      +:+ substring (i + 1) (String.length filename - (i + 1)) filename
  end.

Section SaveName.

(** The file system and the path library, as the loop sees them. *)
Variable isFile : string -> bool.
Variable joinPath : string -> string -> string.
Variable downloadpath : string.

(** The [while (isFile(save))] loop of "will-download" (lines 839-851),
    from a state of its three variables; [None] when the fuel runs
    out. *)
Fixpoint saveLoop (fuel : nat) (filename : string) (duplicateNumber : N)
    (newFilename save : string) : option (N * string * string) :=
  if isFile save then
    match fuel with
    | O => None
    | S n =>
        let duplicateNumber := (duplicateNumber + 1)%N in
        let newFilename := numbered filename duplicateNumber in
        saveLoop n filename duplicateNumber newFilename
          (joinPath downloadpath newFilename)
    end
  else Some (duplicateNumber, newFilename, save).

(** [duplicateNumber], [newFilename] and [save] when the loop is left
    (lines 834-851). *)
Definition saveName (fuel : nat) (filename : string)
  : option (N * string * string) :=
  saveLoop fuel filename 0 filename (joinPath downloadpath filename).

(** The [n]-th name the loop tries. *)
Definition candidate (filename : string) (n : N) : string :=
  if (n =? 0)%N then filename else numbered filename n.

End SaveName.

(** [pat] occurs in [s]. *)
Definition occurs (pat s : string) : Prop :=
  exists a b, s = a +:+ pat +:+ b.

(** A download folder with an archive and its first copy in it. *)
Definition inFolder (save : string) : bool :=
  bool_decide (save ∈ ["/dl/notes.tar.gz"; "/dl/notes (1).tar.gz"]).

Definition joinSlash (dir name : string) : string := dir +:+ "/" +:+ name.

(** ** Downloads: the list and its requests *)

(** An entry of [downloads].  [item] is the download item it stands for;
    [destroyed] says that the calls on the item throw: Electron has
    destroyed it, or the entry was read from the downloads file and has
    no item of its own.  [rest] is what the entry holds besides. *)
Module Download.

Record t : Type := mk {
  rest : string;
  state : string;
  item : Z;
  destroyed : bool
}.

#[global] Instance eq_dec : EqDecision t.
Proof. solve_decision. Defined.

Definition setState (d : t) (s : string) : t :=
  mk (rest d) s (item d) (destroyed d).

End Download.

(** What the download handlers do besides changing [downloads]. *)
Inductive dlEffect : Type :=
| ItemCancel (item : Z)
| ItemPause (item : Z)
| ItemResume (item : Z)
| DeleteFile
| WriteFile (downloads : list Download.t)
| SendList (downloads : list Download.t).

(** [downloads[downloadId]]: [downloadId] is an integer or, for [None],
    undefined. *)
Definition entryAt (downloads : list Download.t) (downloadId : option Z)
  : option Download.t :=
  match downloadId with
  | Some z => if z <? 0 then None else downloads !! Z.to_nat z
  | None => None
  end.

(** The index at which [downloads.splice(downloadId, 1)] starts: counted
    from the end when negative, 0 for undefined, never outside the
    list. *)
Definition spliceStart (len : nat) (downloadId : option Z) : nat :=
  match downloadId with
  | Some z =>
      if z <? 0 then Z.to_nat (Z.max (Z.of_nat len + z) 0)
      else Z.to_nat (Z.min z (Z.of_nat len))
  | None => 0%nat
  end.

(** [downloads.splice(downloadId, 1)] *)
Definition splice1 (downloads : list Download.t) (downloadId : option Z)
  : list Download.t :=
  let start := spliceStart (List.length downloads) downloadId in
  (firstn start downloads ++ skipn (S start) downloads)%list.

(** The [forEach] of [writeDownloadsToFile] (lines 1172-1181). *)
Definition settle (d : Download.t) : Download.t :=
  if Download.destroyed d
     && bool_decide (Download.state d = "waiting_to_start")
  then Download.setState d "completed"
  else d.

(** [writeDownloadsToFile()], with [downloadSettings.cleardownloadsonquit]
    as a truth value. *)
Definition writeDownloadsToFile (cleardownloadsonquit : bool)
    (downloads : list Download.t) : list Download.t * list dlEffect :=
  let downloads := map settle downloads in
  (downloads,
   if cleardownloadsonquit || bool_decide (downloads = [])
   then [DeleteFile] else [WriteFile downloads]).

(** One call on the item of an entry, in a [try]: nothing when there is
    no entry or the item throws. *)
Definition tryItem (call : Z -> dlEffect) (d : option Download.t)
  : list dlEffect :=
  match d with
  | Some d => if Download.destroyed d then [] else [call (Download.item d)]
  | None => []
  end.

(** [ipcMain.on("download-list-request", ...)] *)
Definition download_list_request (cleardownloadsonquit : bool)
    (action : string) (downloadId : option Z) (downloads : list Download.t)
  : list Download.t * list dlEffect :=
  let '(downloads, e1) :=
    if bool_decide (action = "removeall")
    then ([], flat_map (fun d => tryItem ItemCancel (Some d)) downloads)
    else (downloads, []) in
  let e2 :=
    if bool_decide (action = "pause")
    then tryItem ItemPause (entryAt downloads downloadId) else [] in
  let e3 :=
    if bool_decide (action = "resume")
    then tryItem ItemResume (entryAt downloads downloadId) else [] in
  let '(downloads, e4) :=
    if bool_decide (action = "remove")
    then (splice1
            (match downloadId, entryAt downloads downloadId with
             | Some z, Some d =>
                 <[Z.to_nat z := Download.setState d "removed"]> downloads
             | _, _ => downloads
             end)
            downloadId,
          tryItem ItemCancel (entryAt downloads downloadId))
    else (downloads, []) in
  let '(downloads, e5) :=
    writeDownloadsToFile cleardownloadsonquit downloads in
  (downloads, (e1 ++ e2 ++ e3 ++ e4 ++ e5 ++ [SendList downloads])%list).

(** Three downloads: one running, one done and read back from the file,
    one waiting. *)
Definition threeDownloads : list Download.t :=
  [Download.mk "a.iso" "downloading" 1 false;
   Download.mk "b.pdf" "completed" 2 true;
   Download.mk "c.zip" "waiting_to_start" 3 false].

(** ** Permissions *)

(** [s.replace(/-/g, "")] *)
Fixpoint removeDashes (s : string) : string :=
  match s with
  | EmptyString => EmptyString
  | String c s' =>
      if Ascii.eqb c "-" then removeDashes s' else String c (removeDashes s')
  end.

(** [s.split(sep)] for a separator of one character. *)
Fixpoint splitOn (sep : ascii) (s : string) : list string :=
  match s with
  | EmptyString => [EmptyString]
  | String c s' =>
      if Ascii.eqb c sep then EmptyString :: splitOn sep s'
      else
        match splitOn sep s' with
        | piece :: pieces => String c piece :: pieces
        | [] => [String c EmptyString]
        end
  end.

(** [s.endsWith(suffix)] and [s.startsWith(start)] *)
Definition endsWith (s suffix : string) : bool :=
  (String.length suffix <=? String.length s)%nat
  && bool_decide
       (substring (String.length s - String.length suffix)
          (String.length suffix) s = suffix).

Definition startsWith (s start : string) : bool := String.prefix start s.

(** What the handler reads of [details]; [fingerprint] is
    [details.cert.fingerprint], read for certificate errors only. *)
Module Details.

Record t : Type := mk {
  mediaTypes : option (list string);
  externalURL : option string;
  requestingUrl : string;
  fingerprint : string
}.

End Details.

(** The texts of the "notify" messages, by their kind. *)
Inductive notice : Type :=
| CachedCertificate
| AutomaticRule (setting : string)
| GlobalSetting (setting : option string) (permissionName : string)
| AskRule (action : string)
| Manually (action : string).

Inductive permEffect : Type :=
| NavigateTo (url : string)
| Notify (n : notice)
| ShowDialog
| SetPermission (permissionName action : string).

(** How a call of the handler ends: [callback?.(allow)] and
    [return allow]; a plain [return] after "navigate-to", without the
    callback; the dialog left open, with what its answer will need, and a
    return without a value; or an exception. *)
Inductive outcome : Type :=
| Returned (allow : bool)
| Navigated
| Asking (permission permissionName settingRule domain : string)
| Thrown.

(** The three rule lists in the order of the loop, each with
    [override.replace("ed", "")]. *)
Definition overrides : list (string * string) :=
  [("asked", "ask"); ("blocked", "block"); ("allowed", "allow")].

(** [allowedFingerprints[domain].push(fingerprint)], on a list made when
    there is none. *)
Definition pushFingerprint (allowedFingerprints : gmap string (list string))
    (domain fingerprint : string) : gmap string (list string) :=
  <[domain := (default [] (allowedFingerprints !! domain)
               ++ [fingerprint])%list]> allowedFingerprints.

Section Permissions.

(** What the handler calls of the platform: [String.prototype.toLowerCase]
    and [trim]; [url.match(pattern)] as a truth value, [None] when the
    pattern is no regular expression and [match] throws; the key that
    [domainName(url)] makes in [allowedFingerprints]; and
    [app.getName().toLowerCase()]. *)
Variable toLowerCase : string -> string.
Variable trim : string -> string.
Variable regexMatch : string -> string -> option bool.
Variable domainName : string -> string.
Variable appName : string.

(** Lines 1197-1205. *)
Definition mediaKind (details : Details.t) : string :=
  let includes (s : string) :=
    match Details.mediaTypes details with
    | Some types => bool_decide (s ∈ types)
    | None => false
    end in
  if includes "video" then "camera"
  else if includes "audio" then "microphone"
  else "displaycapture".

(** The body of the inner loop for one rule that is looked at (lines
    1224-1229): whether it sets [settingRule]. *)
Definition ruleSets (permissionName url rule : string) : option bool :=
  match splitOn "~" rule with
  | [] => Some false
  | pattern :: names =>
      match List.find (fun p => endsWith permissionName p) names with
      | Some p =>
          if bool_decide (p = "") then Some false else regexMatch url pattern
      | None => Some false
      end
  end.

(** The inner loop (lines 1220-1230) over one list, for the verb of its
    override. *)
Fixpoint scanRules (permissionName url : string) (rules : list string)
    (verb settingRule : string) : option string :=
  match rules with
  | [] => Some settingRule
  | rule :: rest =>
      if bool_decide (trim rule = "") || negb (bool_decide (settingRule = ""))
      then scanRules permissionName url rest verb settingRule
      else
        match ruleSets permissionName url rule with
        | None => None
        | Some true => scanRules permissionName url rest verb verb
        | Some false => scanRules permissionName url rest verb settingRule
        end
  end.

(** [permissions[`permissions${override}`]?.split(",") || []] *)
Definition permList (permissions : gmap string string) (override : string)
  : list string :=
  match permissions !! ("permissions" +:+ override) with
  | Some v => splitOn "," v
  | None => []
  end.

(** The outer loop (lines 1217-1231): [settingRule] after it. *)
Fixpoint scanOverrides (permissions : gmap string string)
    (permissionName url : string) (todo : list (string * string))
    (settingRule : string) : option string :=
  match todo with
  | [] => Some settingRule
  | (override, verb) :: rest =>
      match scanRules permissionName url (permList permissions override)
              verb settingRule with
      | None => None
      | Some settingRule =>
          scanOverrides permissions permissionName url rest settingRule
      end
  end.

(** [permissionHandler(_, perm, callback, details)]: how the call ends,
    what it sends and shows, and [allowedFingerprints] after it.  It
    never writes [permissions]. *)
Definition permissionHandler (perm : string) (details : Details.t)
    (permissions : gmap string string)
    (allowedFingerprints : gmap string (list string))
  : outcome * list permEffect * gmap string (list string) :=
  let permission := removeDashes (toLowerCase perm) in
  if bool_decide (permission = "mediakeysystem")
  then (Returned false, [], allowedFingerprints)
  else
    let permission :=
      if bool_decide (permission = "media") then mediaKind details
      else permission in
    let permissionName := "permission" +:+ permission in
    if bool_decide (permission = "openexternal")
       && truthyStr (Details.externalURL details)
       && startsWith (default "" (Details.externalURL details))
            (appName +:+ ":")
    then (Navigated, [NavigateTo (default "" (Details.externalURL details))],
          allowedFingerprints)
    else
      let setting := permissions !! permissionName in
      let '(permissionName, setting) :=
        if truthyStr setting then (permissionName, setting)
        else ("permissionunknown", permissions !! "permissionunknown") in
      match scanOverrides permissions permissionName
              (Details.requestingUrl details) overrides "" with
      | None => (Thrown, [], allowedFingerprints)
      | Some settingRule =>
          let domain := domainName (Details.requestingUrl details) in
          if bool_decide (permission = "certificateerror")
             && bool_decide
                  (Details.fingerprint details
                   ∈ default [] (allowedFingerprints !! domain))
          then (Returned true, [Notify CachedCertificate],
                allowedFingerprints)
          else
            let setting :=
              if bool_decide (settingRule = "") then setting
              else Some settingRule in
            if bool_decide (setting = Some "ask")
            then (Asking permission permissionName settingRule domain,
                  [ShowDialog], allowedFingerprints)
            else
              let allow := bool_decide (setting = Some "allow") in
              (Returned allow,
               [Notify (if bool_decide (settingRule = "")
                        then GlobalSetting setting permissionName
                        else AutomaticRule (default "" setting))],
               if bool_decide (permission = "certificateerror") && allow
               then pushFingerprint allowedFingerprints domain
                      (Details.fingerprint details)
               else allowedFingerprints)
      end.

End Permissions.

(** The [then] of the dialog (lines 1307-1335), for the answer
    [response] and [checkboxChecked], on the [permissions] and
    [allowedFingerprints] of its time: the [allow] the callback gets,
    what is sent, and the two stores after it. *)
Definition dialogAnswered (permission permissionName settingRule domain
    fingerprint : string) (response : Z) (checkboxChecked : bool)
    (permissions : gmap string string)
    (allowedFingerprints : gmap string (list string))
  : bool * list permEffect * gmap string string
    * gmap string (list string) :=
  let action := if response =? 0 then "allow" else "block" in
  let allow := bool_decide (action = "allow") in
  let canSave := negb allow || negb (bool_decide (permission = "displaycapture")) in
  let save := checkboxChecked && canSave in
  (allow,
   ([Notify (if bool_decide (settingRule = "") then Manually action
             else AskRule action)]
    ++ (if save then [SetPermission permissionName action] else []))%list,
   if save then <[permissionName := action]> permissions else permissions,
   if bool_decide (permission = "certificateerror") && allow
   then pushFingerprint allowedFingerprints domain fingerprint
   else allowedFingerprints).

(** *** Notions used to state the properties of the handler *)

(** The rule is looked at and sets [settingRule]: it is not blank, the
    first of its names that ends [permissionName] is not empty, and its
    pattern matches the url. *)
Definition ruleApplies (trim : string -> string)
    (regexMatch : string -> string -> option bool)
    (permissionName url rule : string) : bool :=
  negb (bool_decide (trim rule = ""))
  && bool_decide (ruleSets regexMatch permissionName url rule = Some true).

(** Some rule of the list of [override] applies. *)
Definition overrideApplies (trim : string -> string)
    (regexMatch : string -> string -> option bool)
    (permissions : gmap string string) (permissionName url override : string)
  : bool :=
  existsb (ruleApplies trim regexMatch permissionName url)
    (permList permissions override).

(** The fingerprint is among those allowed for the domain. *)
Definition trusted (allowedFingerprints : gmap string (list string))
    (domain fingerprint : string) : Prop :=
  fingerprint ∈ default [] (allowedFingerprints !! domain).

(** The store of fingerprints after a call that allowed the certificate
    [fingerprint] for [domain], by a rule, by the setting or by the
    answer to the dialog, and after any calls that followed. *)
Inductive certAllowed (toLowerCase trim : string -> string)
    (regexMatch : string -> string -> option bool)
    (domainName : string -> string) (appName : string)
    (domain fingerprint : string) : gmap string (list string) -> Prop :=
| allowed_now perm details permissions fps effs fps' :
    removeDashes (toLowerCase perm) = "certificateerror" ->
    domainName (Details.requestingUrl details) = domain ->
    Details.fingerprint details = fingerprint ->
    permissionHandler toLowerCase trim regexMatch domainName appName perm
      details permissions fps = (Returned true, effs, fps') ->
    certAllowed toLowerCase trim regexMatch domainName appName domain
      fingerprint fps'
| allowed_by_answer permissionName settingRule checkboxChecked permissions
    fps effs permissions' fps' :
    dialogAnswered "certificateerror" permissionName settingRule domain
      fingerprint 0 checkboxChecked permissions fps
    = (true, effs, permissions', fps') ->
    certAllowed toLowerCase trim regexMatch domainName appName domain
      fingerprint fps'
| allowed_then_call fps perm details permissions out effs fps' :
    certAllowed toLowerCase trim regexMatch domainName appName domain
      fingerprint fps ->
    permissionHandler toLowerCase trim regexMatch domainName appName perm
      details permissions fps = (out, effs, fps') ->
    certAllowed toLowerCase trim regexMatch domainName appName domain
      fingerprint fps'
| allowed_then_answer fps permission permissionName settingRule domain'
    fingerprint' response checkboxChecked permissions allow effs
    permissions' fps' :
    certAllowed toLowerCase trim regexMatch domainName appName domain
      fingerprint fps ->
    dialogAnswered permission permissionName settingRule domain'
      fingerprint' response checkboxChecked permissions fps
    = (allow, effs, permissions', fps') ->
    certAllowed toLowerCase trim regexMatch domainName appName domain
      fingerprint fps'.

(** The platform of the examples: ASCII strings in lower case already,
    no blanks around rules, a pattern that matches when it starts the
    url, the url as its own domain. *)
Definition plainMatch (url pattern : string) : option bool :=
  Some (String.prefix pattern url).

Definition somePermissions : gmap string string :=
  {[ "permissioncamera" := "block";
     "permissionmicrophone" := "ask";
     "permissioncertificateerror" := "block";
     "permissionunknown" := "block";
     "permissionsasked" := "https://meet~camera";
     "permissionsallowed" := "https://~camera~microphone" ]}.

Definition meetRequest : Details.t :=
  Details.mk (Some ["video"; "audio"]) None "https://meet.example/" "".

Definition certRequest : Details.t :=
  Details.mk None None "https://self.signed/" "sha256/AAAA".

Definition micRequest : Details.t :=
  Details.mk (Some ["audio"]) None "https://meet.example/" "".

(** ** The login dialog *)

(** How a "login" event ends: the handler returns at once because the
    dialog is on screen; or because this contents asked before, and the
    attempt is taken off the list; or the default is prevented and the
    dialog is shown.  Only in the last case is the callback kept. *)
Inductive loginResult : Type :=
| LoginIgnored
| LoginPassed
| LoginPrompted.

(** [list.splice(list.indexOf(id), 1)] for an [id] that the list
    includes. *)
Fixpoint spliceFirst (id : Z) (l : list Z) : list Z :=
  match l with
  | [] => []
  | x :: rest => if x =? id then rest else x :: spliceFirst id rest
  end.

(** [app.on("login", ...)], as far as [loginAttempts] goes: [visible] is
    [loginWindow.isVisible()], [id] is [contents.id]. *)
Definition login (visible : bool) (id : Z) (loginAttempts : list Z)
  : list Z * loginResult :=
  if visible then (loginAttempts, LoginIgnored)
  else if bool_decide (id ∈ loginAttempts)
  then (spliceFirst id loginAttempts, LoginPassed)
  else ((loginAttempts ++ [id])%list, LoginPrompted).

(** The values of [loginAttempts] in a run of the program: empty at the
    start, then changed by "login" events only. *)
Inductive attemptsReachable : list Z -> Prop :=
| attempts_start : attemptsReachable []
| attempts_login visible id l :
    attemptsReachable l -> attemptsReachable (login visible id l).1.

(** ** Command-line arguments *)

(** [pieces.join(sep)] *)
Fixpoint joinWith (sep : string) (pieces : list string) : string :=
  match pieces with
  | [] => ""
  | [piece] => piece
  | piece :: rest => piece +:+ sep +:+ joinWith sep rest
  end.

(** [arg.split("=").slice(1).join("=")] *)
Definition valueOf (arg : string) : string :=
  joinWith "=" (skipn 1 (splitOn "=" arg)).

(** What the callback of [args.forEach] does with one argument. *)
Inductive argEffect : Type :=
| PrintUsage (code : Z)
| PrintVersion
| DebugMode
| Datafolder (value : string)
| Erwic (value : string)
| ConfigOrder (value : string)
| ConfigFile (value : string)
| WindowFrame (value : bool)
| MediaKeys (value : bool)
| AutoplayMedia (value : string)
| Acceleration (value : string)
| ToChromium (arg : string)
| Url (arg : string).

Section Arguments.

(** [String.prototype.trim] and [toLowerCase], and [Number(s) > 0]. *)
Variable trim : string -> string.
Variable toLowerCase : string -> string.
Variable numberPositive : string -> bool.

(** [isTruthyArg(arg)] for a string. *)
Definition isTruthyArg (arg : string) : bool :=
  let argStr := toLowerCase (trim arg) in
  numberPositive argStr
  || bool_decide (argStr ∈ ["y"; "yes"; "true"; "on"]).

(** The callback of [args.forEach] (lines 202-265); [printUsage()] exits
    with code 1. *)
Definition parseArg (a : string) : argEffect :=
  let arg := trim a in
  let equals (s : string) := bool_decide (arg = s) in
  if startsWith arg "-" then
    if equals "--help" then PrintUsage 0
    else if equals "--version" then PrintVersion
    else if equals "--devtools" then DebugMode
    else if equals "--datafolder" then PrintUsage 1
    else if equals "--erwic" then PrintUsage 1
    else if equals "--config-order" then PrintUsage 1
    else if equals "--config-file" then PrintUsage 1
    else if equals "--window-frame" then PrintUsage 1
    else if equals "--media-keys" then PrintUsage 1
    else if equals "--autoplay-media" then PrintUsage 1
    else if equals "--acceleration" then PrintUsage 1
    else if startsWith arg "--datafolder=" then Datafolder (valueOf arg)
    else if startsWith arg "--erwic=" then Erwic (valueOf arg)
    else if startsWith arg "--config-order=" then ConfigOrder (valueOf arg)
    else if startsWith arg "--config-file=" then ConfigFile (valueOf arg)
    else if startsWith arg "--window-frame="
    then WindowFrame (isTruthyArg (valueOf arg))
    else if startsWith arg "--media-keys="
    then MediaKeys (isTruthyArg (valueOf arg))
    else if startsWith arg "--autoplay-media="
    then AutoplayMedia (toLowerCase (valueOf arg))
    else if startsWith arg "--acceleration="
    then Acceleration (toLowerCase (valueOf arg))
    else ToChromium arg
  else Url arg.

End Arguments.

(** The options that take a value, each with what it sets. *)
Definition valueOptions (toLowerCase : string -> string)
    (isTruthy : string -> bool) : list (string * (string -> argEffect)) :=
  [("datafolder", Datafolder); ("erwic", Erwic);
   ("config-order", ConfigOrder); ("config-file", ConfigFile);
   ("window-frame", fun v => WindowFrame (isTruthy v));
   ("media-keys", fun v => MediaKeys (isTruthy v));
   ("autoplay-media", fun v => AutoplayMedia (toLowerCase v));
   ("acceleration", fun v => Acceleration (toLowerCase v))].

(** * Properties *)

(** ** JavaScript values *)

Lemma or0_or (v : jsval) : or v (Num 0) = Num (or0 v).
Proof.
  destruct v as [| | |z]; try reflexivity.
  unfold or; simpl. destruct (Z.eqb_spec z 0) as [->|]; reflexivity.
Qed.

Lemma truthyStr_key (k : string) : k <> "" -> truthyStr (Some k) = true.
Proof.
  intros H. simpl. destruct (String.eqb_spec k ""); [congruence|reflexivity].
Qed.

(** ** The resolver *)

Section Resolver.

Variable frameInfo : gmap string FrameRec.

(** The loop only ever adds to its accumulators. *)
Lemma walkParents_acc (fuel : nat) (fx fy dx dy : Z) (p : option string) :
  walkParents fuel frameInfo (fx + dx) (fy + dy) p
  = shift (dx, dy) <$> walkParents fuel frameInfo fx fy p.
Proof.
  revert fx fy p. induction fuel as [|n IH]; intros fx fy p; simpl.
  - destruct (truthyStr p); reflexivity.
  - destruct (truthyStr p); [|reflexivity].
    rewrite <- IH. f_equal; lia.
Qed.

(** More fuel never changes a result. *)
Lemma walkParents_more (fuel k : nat) (fx fy : Z) (p : option string)
    (r : Z * Z) :
  walkParents fuel frameInfo fx fy p = Some r ->
  walkParents (fuel + k) frameInfo fx fy p = Some r.
Proof.
  revert fx fy p. induction fuel as [|n IH]; intros fx fy p; simpl.
  - destruct k; simpl; destruct (truthyStr p); simpl; congruence.
  - destruct (truthyStr p); [apply IH|congruence].
Qed.

(** On a chain that ends, the loop returns once the fuel covers it. *)
Lemma walkParents_total (p : option string) (n : nat) :
  chainEnds frameInfo p n ->
  forall fuel fx fy, (n <= fuel)%nat ->
    is_Some (walkParents fuel frameInfo fx fy p).
Proof.
  induction 1 as [p Hp|p n Hp _ IH]; intros fuel fx fy Hle.
  - destruct fuel; simpl; rewrite Hp; eauto.
  - destruct fuel as [|m]; [lia|]. simpl. rewrite Hp. apply IH. lia.
Qed.

Lemma resolveAbsolute_total (frameId : string) (n : nat) :
  chainEnds frameInfo (Frame.optStr Frame.parent (frameInfo !! frameId)) n ->
  forall fuel, (n <= fuel)%nat ->
    is_Some (resolveAbsolute fuel frameInfo frameId).
Proof. intros H fuel Hle. now apply walkParents_total with n. Qed.

(** On a cycle no fuel is enough. *)
Lemma walkParents_self_loop (k : string) (r : FrameRec) :
  k <> "" -> frameInfo !! k = Some r -> Frame.parent r = Some k ->
  forall fuel fx fy, walkParents fuel frameInfo fx fy (Some k) = None.
Proof.
  intros Hk Hr Hp. induction fuel as [|n IH]; intros fx fy;
    cbn [walkParents]; rewrite (truthyStr_key k Hk); [reflexivity|].
  simpl default. rewrite Hr. simpl. rewrite Hp. apply IH.
Qed.

(** The loop of [translateMouseEvent] computes the same origin. *)
Lemma walkOwner_origin (fuel : nat) (frameId : string) (fx fy : Z)
    (p : option string) (pid : string) :
  (fun r => (r.1.1, r.1.2)) <$> walkOwner fuel frameInfo frameId fx fy p pid
  = walkParents fuel frameInfo fx fy p.
Proof.
  revert fx fy p pid. induction fuel as [|n IH]; intros fx fy p pid; simpl.
  - destruct (truthyStr p); reflexivity.
  - destruct (truthyStr p); [apply IH|reflexivity].
Qed.

End Resolver.

Lemma translateMouseEvent_origin (fuel : nat)
    (frameInfo : gmap string FrameRec) (allWebContents : list (string * Z))
    (frameId : string) (clickInfo : Click.t) (m : Mouse.t) :
  translateMouseEvent fuel frameInfo allWebContents frameId clickInfo
  = Some m ->
  resolveAbsolute fuel frameInfo frameId
  = Some (Mouse.frameAbsX m, Mouse.frameAbsY m).
Proof.
  unfold translateMouseEvent, resolveAbsolute. intros H.
  rewrite <- (walkOwner_origin frameInfo fuel frameId _ _ _ frameId).
  destruct (walkOwner _ _ _ _ _ _ _) as [[[fx fy] pid]|]; [|discriminate].
  injection H as <-. reflexivity.
Qed.



(** ** The registry *)

Lemma usable_le (pos size viewport : Z) : usable pos size viewport <= size.
Proof. unfold usable. destruct (Z.ltb_spec 0 (pos + size - viewport)); lia. Qed.

Lemma usable_overflow (pos size viewport : Z) :
  0 < pos + size - viewport ->
  usable pos size viewport = size - (pos + size - viewport).
Proof. unfold usable. destruct (Z.ltb_spec 0 (pos + size - viewport)); lia. Qed.

Lemma usable_fits (pos size viewport : Z) :
  pos + size - viewport <= 0 -> usable pos size viewport = size.
Proof. unfold usable. destruct (Z.ltb_spec 0 (pos + size - viewport)); lia. Qed.

Section FrameDetails.

Variables (frameId : string) (d : Details).

Lemma applySubframe_lookup (frameInfo : gmap string FrameRec)
    (sf : Subframe) (i : string) :
  applySubframe frameId d frameInfo sf !! i
  = touch frameId d sf i <$> frameInfo !! i.
Proof.
  unfold applySubframe. rewrite map_lookup_imap.
  destruct (frameInfo !! i); reflexivity.
Qed.

Lemma touch_url (sf : Subframe) (i : string) (r : FrameRec) :
  Frame.url (touch frameId d sf i r) = Frame.url r.
Proof. unfold touch. destruct (matches frameId sf i r); reflexivity. Qed.

Lemma touchAll_url (sfs : list Subframe) (i : string) (r : FrameRec) :
  Frame.url (touchAll frameId d sfs i r) = Frame.url r.
Proof. unfold touchAll. destruct (List.find _ _); reflexivity. Qed.

Lemma foldl_applySubframe_lookup (sfs : list Subframe)
    (frameInfo : gmap string FrameRec) (i : string) :
  foldl (applySubframe frameId d) frameInfo sfs !! i
  = touchAll frameId d sfs i <$> frameInfo !! i.
Proof.
  induction sfs as [|sf sfs IH] using rev_ind.
  - simpl. unfold touchAll. simpl. destruct (frameInfo !! i); reflexivity.
  - rewrite foldl_app. simpl. rewrite applySubframe_lookup, IH.
    destruct (frameInfo !! i) as [r|]; [|reflexivity]. simpl. f_equal.
    unfold touchAll at 2. rewrite rev_app_distr. simpl.
    unfold touch at 1.
    assert (Hm : matches frameId sf i (touchAll frameId d sfs i r)
                 = matches frameId sf i r).
    { unfold matches. rewrite touchAll_url. reflexivity. }
    rewrite Hm. destruct (matches frameId sf i r); [|reflexivity].
    unfold touchAll. destruct (List.find _ _); reflexivity.
Qed.

Lemma frame_details_lookup (frameInfo : gmap string FrameRec) (i : string) :
  frame_details frameInfo frameId d !! i
  = touchAll frameId d (d_subframes d) i
      <$> (<[frameId := setIdUrl (default Frame.empty (frameInfo !! frameId))
                          frameId (d_url d)]> frameInfo) !! i.
Proof. unfold frame_details. apply foldl_applySubframe_lookup. Qed.

(** The reporting frame's own record only gets its [id] and [url]. *)
Lemma touchAll_self (sfs : list Subframe) (r : FrameRec) :
  touchAll frameId d sfs frameId r = r.
Proof.
  unfold touchAll.
  destruct (List.find _ _) as [sf|] eqn:Hf; [|reflexivity].
  apply find_some in Hf as [_ Hm]. unfold matches in Hm.
  rewrite (bool_decide_eq_true_2 (frameId = frameId)) in Hm by reflexivity.
  rewrite andb_false_r in Hm. discriminate.
Qed.

End FrameDetails.

(** *** Frame ids *)

Lemma pretty_N_go_head (n : N) :
  forall s, s <> "" -> startsBracket s = false ->
    pretty_N_go n s <> "" /\ startsBracket (pretty_N_go n s) = false.
Proof.
  induction (N.lt_wf_0 n) as [n _ IH]. intros s Hs Hb.
  assert (n = 0 \/ 0 < n)%N as [->|Hn] by lia.
  - now rewrite pretty_N_go_0.
  - rewrite pretty_N_go_step by assumption. apply IH.
    + now apply N.div_lt.
    + discriminate.
    + unfold pretty_N_char. simpl. now repeat case_match.
Qed.

(** A printed integer opens with a digit or a minus sign. *)
Lemma pretty_Z_head (z : Z) :
  pretty z <> "" /\ startsBracket (pretty z) = false.
Proof.
  assert (Hpos : forall p : positive,
            pretty_N_go (N.pos p) "" <> ""
            /\ startsBracket (pretty_N_go (N.pos p) "") = false).
  { intros p. rewrite pretty_N_go_step by lia. apply pretty_N_go_head.
    - discriminate.
    - unfold pretty_N_char. simpl. now repeat case_match. }
  destruct z as [|p|p]; unfold pretty, pretty_Z.
  - split; [discriminate|reflexivity].
  - apply Hpos.
  - split; [discriminate|reflexivity].
Qed.

(** No frame id is the key a record object stringifies to. *)
Lemma frameIdOf_objectKey (routingId processId : Z) :
  frameIdOf routingId processId <> objectKey.
Proof.
  unfold frameIdOf. destruct (pretty_Z_head routingId) as [Hne Hb].
  destruct (pretty routingId) as [|c s]; [contradiction|].
  simpl in Hb. intros H. injection H as Hc _. rewrite Hc in Hb. discriminate.
Qed.

Example frameIdOf_1_1 : frameIdOf 1 1 = "1-1".
Proof. vm_compute. reflexivity. Qed.

(** Reports never create that key. *)
Lemma frame_details_objectKey (frameInfo : gmap string FrameRec)
    (frameId : string) (d : Details) :
  frameId <> objectKey -> frameInfo !! objectKey = None ->
  frame_details frameInfo frameId d !! objectKey = None.
Proof.
  intros Hne Hk. rewrite frame_details_lookup.
  rewrite lookup_insert_ne by assumption. rewrite Hk. reflexivity.
Qed.


(** ** The hit-tester: what it stores *)

Section SumParents.

Variable frameInfo : gmap string FrameRec.

(** Once [frameInfo[parent]] finds a record the loop never leaves it. *)
Lemma sumParents_stuck (q : FrameRec) :
  frameInfo !! objectKey = Some q ->
  forall fuel ax ay p, sumParents fuel frameInfo ax ay (Some p) = None.
Proof.
  intros Hq. induction fuel as [|n IH]; intros ax ay p; simpl; [reflexivity|].
  rewrite Hq. apply IH.
Qed.

(** The loop in closed form: at most one turn. *)
Lemma sumParents_eq (fuel : nat) (ax ay : jsval) (pr : option FrameRec) :
  sumParents fuel frameInfo ax ay pr
  = match pr with
    | None => Some (ax, ay)
    | Some p =>
        match fuel, frameInfo !! objectKey with
        | S _, None =>
            Some (add ax (or (Frame.x p) (Num 0)),
                  add ay (or (Frame.y p) (Num 0)))
        | _, _ => None
        end
    end.
Proof.
  destruct pr as [p|]; [|destruct fuel; reflexivity].
  destruct fuel as [|n]; [reflexivity|]. simpl.
  destruct (frameInfo !! objectKey) as [q|] eqn:Hq.
  - rewrite <- Hq. rewrite Hq. now apply sumParents_stuck with q.
  - destruct n; reflexivity.
Qed.

End SumParents.

Lemma clearAbs_fields (r1 r2 : FrameRec) :
  clearAbs r1 = clearAbs r2 ->
  Frame.x r1 = Frame.x r2 /\ Frame.y r1 = Frame.y r2
  /\ Frame.parent r1 = Frame.parent r2
  /\ forall a b, setAbs r1 a b = setAbs r2 a b.
Proof.
  destruct r1, r2. unfold clearAbs, setAbs. simpl. intros H.
  injection H as -> -> -> -> -> -> -> -> -> -> ->. repeat split.
Qed.

Lemma absEq_None (g1 g2 : gmap string FrameRec) (i : string) :
  absEq g1 g2 -> g1 !! i = None -> g2 !! i = None.
Proof.
  intros H Hi. specialize (H i). rewrite Hi in H.
  destruct (g2 !! i); [discriminate|reflexivity].
Qed.

Lemma absEq_Some (g1 g2 : gmap string FrameRec) (i : string) (r1 : FrameRec) :
  absEq g1 g2 -> g1 !! i = Some r1 ->
  exists r2, g2 !! i = Some r2 /\ clearAbs r1 = clearAbs r2.
Proof.
  intros H Hi. specialize (H i). rewrite Hi in H.
  destruct (g2 !! i) as [r2|]; [|discriminate].
  simpl in H. exists r2. split; [reflexivity|congruence].
Qed.

Lemma hitOrigin_absEq (g1 g2 : gmap string FrameRec) (r1 r2 : FrameRec) :
  absEq g1 g2 -> clearAbs r1 = clearAbs r2 ->
  hitOrigin g1 r1 = hitOrigin g2 r2.
Proof.
  intros Hg Hr. apply clearAbs_fields in Hr as (Hx & Hy & Hp & _).
  unfold hitOrigin. rewrite Hx, Hy, Hp.
  destruct (g1 !! default "" (Frame.parent r2)) as [p1|] eqn:H1.
  - destruct (absEq_Some _ _ _ _ Hg H1) as (p2 & -> & Hc).
    apply clearAbs_fields in Hc as (-> & -> & _). reflexivity.
  - rewrite (absEq_None _ _ _ Hg H1). reflexivity.
Qed.

Lemma absolutized_absEq (g1 g2 : gmap string FrameRec) (r1 r2 : FrameRec) :
  absEq g1 g2 -> clearAbs r1 = clearAbs r2 ->
  absolutized g1 r1 = absolutized g2 r2.
Proof.
  intros Hg Hr. unfold absolutized. rewrite (hitOrigin_absEq _ _ _ _ Hg Hr).
  now apply clearAbs_fields.
Qed.

Lemma absStore_lookup (g : gmap string FrameRec) (frames : list string)
    (i : string) :
  absStore g frames !! i
  = (fun r => if enumerated frames i r then absolutized g r else r)
      <$> g !! i.
Proof.
  unfold absStore. rewrite map_lookup_imap. destruct (g !! i); reflexivity.
Qed.

Lemma absStore_absEq (g : gmap string FrameRec) (frames : list string) :
  absEq (absStore g frames) g.
Proof.
  intros i. rewrite absStore_lookup. destruct (g !! i) as [r|]; [|reflexivity].
  simpl. destruct (enumerated frames i r); reflexivity.
Qed.

Lemma enumerated_app (l1 l2 : list string) (i : string) (r : FrameRec) :
  enumerated (l1 ++ l2)%list i r = enumerated l1 i r || enumerated l2 i r.
Proof.
  unfold enumerated.
  rewrite (bool_decide_ext (i ∈ (l1 ++ l2)%list) (i ∈ l1 \/ i ∈ l2))
    by apply elem_of_app.
  rewrite bool_decide_or. destruct (truthyStr (Frame.parent r));
    rewrite ?andb_true_r, ?andb_false_r; reflexivity.
Qed.

(** Visiting [l1] and then [l2] is visiting [l1 ++ l2]. *)
Lemma absStore_absStore (g : gmap string FrameRec) (l1 l2 : list string) :
  absStore (absStore g l1) l2 = absStore g (l1 ++ l2)%list.
Proof.
  apply map_eq. intros i. rewrite !absStore_lookup.
  destruct (g !! i) as [r|]; [|reflexivity]. simpl. f_equal.
  rewrite enumerated_app.
  assert (He : forall r', clearAbs r' = clearAbs r ->
            enumerated l2 i r' = enumerated l2 i r).
  { intros r' Hc. apply clearAbs_fields in Hc as (_ & _ & Hp & _).
    unfold enumerated. now rewrite Hp. }
  destruct (enumerated l1 i r) eqn:E1; simpl.
  - rewrite He by reflexivity. destruct (enumerated l2 i r); [|reflexivity].
    apply absolutized_absEq; [apply absStore_absEq|reflexivity].
  - destruct (enumerated l2 i r); [|reflexivity].
    apply absolutized_absEq; [apply absStore_absEq|reflexivity].
Qed.

Lemma absStore_twice (g : gmap string FrameRec) (frames : list string) :
  absStore (absStore g frames) frames = absStore g frames.
Proof.
  rewrite absStore_absStore. apply map_eq. intros i. rewrite !absStore_lookup.
  destruct (g !! i) as [r|]; [|reflexivity]. simpl.
  rewrite enumerated_app, orb_diag. reflexivity.
Qed.

Lemma absRefs_absEq (g1 g2 : gmap string FrameRec) (frames : list string) :
  absEq g1 g2 -> absRefs g1 frames = absRefs g2 frames.
Proof.
  intros Hg. unfold absRefs. induction frames as [|f fs IH]; [reflexivity|].
  simpl. rewrite IH.
  destruct (g1 !! f) as [r1|] eqn:H1.
  - destruct (absEq_Some _ _ _ _ Hg H1) as (r2 & -> & Hc).
    apply clearAbs_fields in Hc as (_ & _ & Hp & _). simpl. now rewrite Hp.
  - now rewrite (absEq_None _ _ _ Hg H1).
Qed.

Lemma stepRuns_absEq (fuel : nat) (g1 g2 : gmap string FrameRec) (f : string) :
  absEq g1 g2 -> stepRuns fuel g1 f = stepRuns fuel g2 f.
Proof.
  intros Hg. unfold stepRuns.
  assert (Hk : forall k, match g1 !! k with Some _ => true | None => false end
                       = match g2 !! k with Some _ => true | None => false end).
  { intros k. destruct (g1 !! k) eqn:H1.
    - destruct (absEq_Some _ _ _ _ Hg H1) as (r2 & -> & _). reflexivity.
    - now rewrite (absEq_None _ _ _ Hg H1). }
  destruct (g1 !! f) as [r1|] eqn:H1.
  - destruct (absEq_Some _ _ _ _ Hg H1) as (r2 & -> & Hc).
    apply clearAbs_fields in Hc as (_ & _ & Hp & _). rewrite Hp.
    destruct (truthyStr (Frame.parent r2)); [|reflexivity].
    pose proof (Hk (default "" (Frame.parent r2))) as Hpar.
    pose proof (Hk objectKey) as Hobj.
    destruct (g1 !! default "" (Frame.parent r2)),
             (g2 !! default "" (Frame.parent r2)); try discriminate;
      [|reflexivity].
    destruct fuel; [reflexivity|].
    destruct (g1 !! objectKey), (g2 !! objectKey); try discriminate;
      reflexivity.
  - now rewrite (absEq_None _ _ _ Hg H1).
Qed.

Lemma forallb_stepRuns_absEq (fuel : nat) (g1 g2 : gmap string FrameRec)
    (frames : list string) :
  absEq g1 g2 ->
  forallb (stepRuns fuel g1) frames = forallb (stepRuns fuel g2) frames.
Proof.
  intros Hg. induction frames as [|f fs IH]; [reflexivity|].
  simpl. now rewrite IH, (stepRuns_absEq fuel g1 g2 f Hg).
Qed.

(** One call of the callback of [map], in closed form. *)
Lemma absolutize_eq (fuel : nat) (g : gmap string FrameRec) (f : string) :
  absolutize fuel g f
  = if stepRuns fuel g f
    then Some (absStore g [f],
               if truthyStr (Frame.optStr Frame.parent (g !! f))
               then Some f else None)
    else None.
Proof.
  assert (Hsame : forall r, g !! f = Some r ->
            truthyStr (Frame.parent r) = false -> absStore g [f] = g).
  { intros r Hr Hp. apply map_eq. intros i. rewrite absStore_lookup.
    destruct (g !! i) as [ri|] eqn:Hi; [|reflexivity]. simpl. f_equal.
    unfold enumerated. destruct (decide (i = f)) as [->|Hne].
    - rewrite Hr in Hi. injection Hi as <-. rewrite Hp.
      now rewrite andb_false_r.
    - rewrite bool_decide_eq_false_2; [reflexivity|].
      rewrite list_elem_of_singleton. exact Hne. }
  unfold absolutize, stepRuns.
  destruct (g !! f) as [info|] eqn:Hf; simpl.
  - destruct (truthyStr (Frame.parent info)) eqn:Hp.
    + rewrite sumParents_eq.
      assert (Hst : <[f := absolutized g info]> g = absStore g [f]).
      { apply map_eq. intros i. rewrite absStore_lookup.
        destruct (decide (i = f)) as [->|Hne].
        - rewrite lookup_insert_eq, Hf. simpl. unfold enumerated.
          rewrite Hp, bool_decide_eq_true_2; [reflexivity|].
          apply list_elem_of_singleton. reflexivity.
        - rewrite lookup_insert_ne by congruence.
          destruct (g !! i) as [ri|]; [|reflexivity]. simpl. f_equal.
          unfold enumerated. rewrite bool_decide_eq_false_2; [reflexivity|].
          rewrite list_elem_of_singleton. exact Hne. }
      unfold absolutized, hitOrigin in Hst.
      destruct (g !! default "" (Frame.parent info)) as [p|].
      * destruct fuel; [reflexivity|].
        destruct (g !! objectKey); [reflexivity|].
        simpl in Hst. now rewrite Hst.
      * simpl in Hst. now rewrite Hst.
    + now rewrite (Hsame info eq_refl Hp).
  - replace (absStore g [f]) with g; [reflexivity|].
    apply map_eq. intros i.
    rewrite absStore_lookup. destruct (g !! i) as [ri|] eqn:Hi; [|reflexivity].
    simpl. f_equal. unfold enumerated.
    rewrite bool_decide_eq_false_2; [reflexivity|].
    rewrite list_elem_of_singleton. congruence.
Qed.

(** The whole [map(...).filter(f => f)], in closed form. *)
Lemma absoluteFrames_eq (fuel : nat) (frames : list string) :
  forall g : gmap string FrameRec,
    absoluteFrames fuel g frames
    = if forallb (stepRuns fuel g) frames
      then Some (absStore g frames, absRefs g frames)
      else None.
Proof.
  induction frames as [|f fs IH]; intros g.
  - simpl. replace (absStore g []) with g; [reflexivity|].
    apply map_eq. intros i. rewrite absStore_lookup.
    destruct (g !! i) as [r|]; reflexivity.
  - cbn [absoluteFrames forallb]. rewrite absolutize_eq.
    destruct (stepRuns fuel g f); [|reflexivity]. rewrite IH.
    rewrite (forallb_stepRuns_absEq fuel _ g fs (absStore_absEq g [f])).
    destruct (forallb (stepRuns fuel g) fs); [|reflexivity]. simpl.
    rewrite absStore_absStore.
    rewrite (absRefs_absEq _ g fs (absStore_absEq g [f])).
    unfold absRefs at 2. simpl.
    destruct (truthyStr (Frame.optStr Frame.parent (g !! f))); reflexivity.
Qed.

(** With no key [objectKey] in the registry, one unit of fuel is enough. *)
Lemma forallb_stepRuns_plain (n : nat) (g : gmap string FrameRec)
    (frames : list string) :
  g !! objectKey = None -> forallb (stepRuns (S n) g) frames = true.
Proof.
  intros Hk. apply forallb_forall. intros f _. unfold stepRuns.
  destruct (g !! f) as [info|]; [|reflexivity].
  destruct (truthyStr (Frame.parent info)); [|reflexivity].
  destruct (g !! default "" (Frame.parent info)); [|reflexivity].
  now rewrite Hk.
Qed.

Lemma findRelevantSubFrame_eq (fuel : nat) (g : gmap string FrameRec)
    (frames : list string) (qx qy : jsval) :
  findRelevantSubFrame fuel g frames qx qy
  = if forallb (stepRuns fuel g) frames
    then Some (absStore g frames,
               fold_left (pick qx qy)
                 (omap (fun i => absStore g frames !! i) (absRefs g frames))
                 None)
    else None.
Proof.
  unfold findRelevantSubFrame. rewrite absoluteFrames_eq.
  destruct (forallb _ _); reflexivity.
Qed.

Lemma findRelevantSubFrame_total (n : nat) (g : gmap string FrameRec)
    (frames : list string) (qx qy : jsval) :
  g !! objectKey = None ->
  is_Some (findRelevantSubFrame (S n) g frames qx qy).
Proof.
  intros Hk.
  rewrite findRelevantSubFrame_eq, forallb_stepRuns_plain by exact Hk.
  eauto.
Qed.

(** ** The hit-tester: what it returns *)

Lemma inside_width (r : FrameRec) (qx qy : jsval) :
  inside r qx qy = true -> exists w, toNumber (Frame.width r) = Some w.
Proof.
  unfold inside, gt, lt, add. intros H.
  apply andb_prop in H as [_ H]. apply andb_prop in H as [H _].
  destruct (toNumber (Frame.width r)) as [w|]; [eauto|].
  destruct (toNumber qx), (toNumber (Frame.absX r)); discriminate.
Qed.

(** For a point with numeric coordinates, [inside] is strict containment
    in the stored bounds. *)
Lemma inside_bounds (r : FrameRec) (qx qy : Z) :
  inside r (Num qx) (Num qy) = true ->
  exists ax ay w h,
    toNumber (Frame.absX r) = Some ax /\ toNumber (Frame.absY r) = Some ay
    /\ toNumber (Frame.width r) = Some w /\ toNumber (Frame.height r) = Some h
    /\ ax < qx < ax + w /\ ay < qy < ay + h.
Proof.
  unfold inside, gt, lt, add. simpl. intros H.
  destruct (toNumber (Frame.absX r)) as [ax|]; [|discriminate].
  destruct (toNumber (Frame.absY r)) as [ay|];
    [|rewrite andb_false_r in H; discriminate].
  destruct (toNumber (Frame.width r)) as [w|];
    [|rewrite andb_false_r in H; discriminate].
  destruct (toNumber (Frame.height r)) as [h|];
    [|rewrite !andb_false_r in H; discriminate].
  simpl in H. exists ax, ay, w, h.
  repeat (apply andb_prop in H as [? H] || apply andb_prop in H as [H ?]).
  repeat match goal with
         | Hlt : (_ <? _) = true |- _ => apply Z.ltb_lt in Hlt
         end.
  repeat split; (reflexivity || lia).
Qed.

Section Pick.

Variables qx qy : jsval.

(** The winner so far is replaced by a strictly narrower record. *)
Lemma firstNarrowest_replace (a c : FrameRec) (rest : list FrameRec)
    (res : option FrameRec) (wa : Z) :
  toNumber (Frame.width a) = Some wa ->
  gt (Frame.width a) (Frame.width c) = true ->
  firstNarrowest (c :: rest) res -> firstNarrowest (a :: c :: rest) res.
Proof.
  intros Ha Hgt. destruct res as [r|]; [|discriminate]. simpl.
  intros (before & after & w & Heq & Hw & Hb & Haf).
  exists (a :: before), after, w. repeat split; try assumption.
  - simpl. now rewrite Heq.
  - constructor; [|assumption]. exists wa. split; [assumption|].
    unfold gt, lt in Hgt. rewrite Ha in Hgt.
    destruct (toNumber (Frame.width c)) as [wc|] eqn:Hc; [|discriminate].
    apply Z.ltb_lt in Hgt.
    destruct before as [|b before].
    + injection Heq as -> _. rewrite Hc in Hw. injection Hw as <-. lia.
    + injection Heq as -> _. inversion Hb as [|? ? (wb & Hwb & Hlt) _]; subst.
      rewrite Hc in Hwb. injection Hwb as <-. lia.
Qed.

(** ... and kept against a record that is not strictly narrower. *)
Lemma firstNarrowest_keep (a c : FrameRec) (rest : list FrameRec)
    (res : option FrameRec) (wa wc : Z) :
  toNumber (Frame.width a) = Some wa ->
  toNumber (Frame.width c) = Some wc ->
  gt (Frame.width a) (Frame.width c) = false ->
  firstNarrowest (a :: rest) res -> firstNarrowest (a :: c :: rest) res.
Proof.
  intros Ha Hc Hgt. destruct res as [r|]; [|discriminate]. simpl.
  intros (before & after & w & Heq & Hw & Hb & Haf).
  unfold gt, lt in Hgt. rewrite Ha, Hc in Hgt. apply Z.ltb_ge in Hgt.
  destruct before as [|b before].
  - injection Heq as -> ->. rewrite Ha in Hw. injection Hw as <-.
    exists [], (c :: after), wa.
    repeat split; try assumption; try reflexivity.
    constructor; [|assumption]. exists wc. split; [assumption|lia].
  - injection Heq as -> ->.
    inversion Hb as [|? ? (wb & Hwb & Hlt) Hb']; subst.
    rewrite Ha in Hwb. injection Hwb as <-.
    exists (b :: c :: before), after, w.
    repeat split; try assumption; try reflexivity.
    constructor; [exists wa; split; [assumption|lia]|].
    constructor; [exists wc; split; [assumption|lia]|assumption].
Qed.

(** The [forEach] selects the first of the narrowest records that pass. *)
Lemma fold_pick_narrowest (l : list FrameRec) :
  forall acc : option FrameRec,
    (forall a, acc = Some a -> exists wa, toNumber (Frame.width a) = Some wa) ->
    firstNarrowest
      (option_list acc ++ List.filter (fun r => inside r qx qy) l)%list
      (fold_left (pick qx qy) l acc).
Proof.
  induction l as [|c l IH]; intros acc Hacc.
  - simpl. destruct acc as [a|]; simpl; [|reflexivity].
    destruct (Hacc a eq_refl) as [wa Hwa].
    exists [], [], wa. repeat split; try assumption; constructor.
  - simpl. unfold pick at 2. destruct (inside c qx qy) eqn:Hin.
    + destruct (inside_width _ _ _ Hin) as [wc Hwc].
      destruct acc as [a|]; simpl.
      * destruct (Hacc a eq_refl) as [wa Hwa].
        destruct (gt (Frame.width a) (Frame.width c)) eqn:Hgt.
        -- apply (firstNarrowest_replace a c _ _ wa Hwa Hgt).
           apply (IH (Some c)). intros ? [= <-]. eauto.
        -- apply (firstNarrowest_keep a c _ _ wa wc Hwa Hwc Hgt).
           apply (IH (Some a)). intros ? [= <-]. eauto.
      * apply (IH (Some c)). intros ? [= <-]. eauto.
    + apply IH. exact Hacc.
Qed.

End Pick.

(** What a hit-test that returns leaves and returns, in closed form. *)
Lemma findRelevantSubFrame_Some (fuel : nat)
    (frameInfo : gmap string FrameRec) (frames : list string)
    (qx qy : jsval) (fi : gmap string FrameRec) (res : option FrameRec) :
  findRelevantSubFrame fuel frameInfo frames qx qy = Some (fi, res) ->
  forallb (stepRuns fuel frameInfo) frames = true
  /\ fi = absStore frameInfo frames
  /\ res = fold_left (pick qx qy)
             (omap (fun i => fi !! i) (absRefs fi frames)) None.
Proof.
  rewrite findRelevantSubFrame_eq.
  destruct (forallb (stepRuns fuel frameInfo) frames); [|discriminate].
  intros [= <- <-]. split; [reflexivity|]. split; [reflexivity|].
  now rewrite (absRefs_absEq _ _ frames (absStore_absEq frameInfo frames)).
Qed.

Lemma findRelevantSubFrame_first (fuel : nat)
    (frameInfo : gmap string FrameRec) (frames : list string)
    (qx qy : jsval) (fi : gmap string FrameRec) (res : option FrameRec) :
  findRelevantSubFrame fuel frameInfo frames qx qy = Some (fi, res) ->
  firstNarrowest (passing fi frames qx qy) res.
Proof.
  intros H. apply findRelevantSubFrame_Some in H as (_ & _ & ->).
  apply (fold_pick_narrowest qx qy _ None). discriminate.
Qed.

(** X24.  Among the records that pass its own test, on the origin it
    stored, the hit-tester returns the first, in enumeration order, of
    those of the smallest width, and [null] when none passes; a second
    evaluation on the registry it left returns the same record and leaves
    that registry as it is. *)
Theorem findRelevantSubFrame_narrowest (fuel : nat)
    (frameInfo : gmap string FrameRec) (frames : list string)
    (qx qy : jsval) (fi : gmap string FrameRec) (res : option FrameRec) :
  findRelevantSubFrame fuel frameInfo frames qx qy = Some (fi, res) ->
  firstNarrowest (passing fi frames qx qy) res
  /\ findRelevantSubFrame fuel fi frames qx qy = Some (fi, res).
Proof.
  intros H. split; [now apply findRelevantSubFrame_first in H|].
  apply findRelevantSubFrame_Some in H as (Hruns & -> & ->).
  rewrite findRelevantSubFrame_eq.
  rewrite (forallb_stepRuns_absEq fuel _ _ frames
             (absStore_absEq frameInfo frames)), Hruns.
  now rewrite absStore_twice.
Qed.

(** A returned frame is one of those that pass: the point is strictly
    inside the bounds stored in the returned record. *)
Lemma findRelevantSubFrame_stored_bounds (fuel : nat)
    (frameInfo : gmap string FrameRec) (frames : list string)
    (qx qy : Z) (fi : gmap string FrameRec) (r : FrameRec) :
  findRelevantSubFrame fuel frameInfo frames (Num qx) (Num qy)
  = Some (fi, Some r) ->
  exists ax ay w h,
    toNumber (Frame.absX r) = Some ax /\ toNumber (Frame.absY r) = Some ay
    /\ toNumber (Frame.width r) = Some w /\ toNumber (Frame.height r) = Some h
    /\ ax < qx < ax + w /\ ay < qy < ay + h.
Proof.
  intros H. apply findRelevantSubFrame_first in H.
  destruct H as (before & after & w & Hc & _).
  apply inside_bounds.
  assert (Hin : In r (passing fi frames (Num qx) (Num qy))).
  { rewrite Hc. apply in_or_app. right. now left. }
  unfold passing in Hin. now apply filter_In in Hin as [_ Hin].
Qed.

(** C9.  A hit-test that returns has written to the registry: the
    record of every enumerated frame that is registered with a parent
    holds, as [absX] and [absY], the origin the hit-tester computed, its
    own [x] and [y] plus [x || 0] and [y || 0] of the record its [parent]
    names when there is one, whatever these two fields held before, and
    all its other fields as they were; every other record, and every
    missing key, is as before. *)
Theorem findRelevantSubFrame_writes_abs (fuel : nat)
    (frameInfo : gmap string FrameRec) (frames : list string)
    (qx qy : jsval) (fi : gmap string FrameRec) (res : option FrameRec) :
  findRelevantSubFrame fuel frameInfo frames qx qy = Some (fi, res) ->
  (forall i r, frameInfo !! i = Some r ->
     i ∈ frames -> truthyStr (Frame.parent r) = true ->
     exists r',
       fi !! i = Some r'
       /\ Frame.absX r'
          = match frameInfo !! default "" (Frame.parent r) with
            | Some p => add (Frame.x r) (or (Frame.x p) (Num 0))
            | None => Frame.x r
            end
       /\ Frame.absY r'
          = match frameInfo !! default "" (Frame.parent r) with
            | Some p => add (Frame.y r) (or (Frame.y p) (Num 0))
            | None => Frame.y r
            end
       /\ Frame.id r' = Frame.id r /\ Frame.url r' = Frame.url r
       /\ Frame.x r' = Frame.x r /\ Frame.y r' = Frame.y r
       /\ Frame.width r' = Frame.width r
       /\ Frame.height r' = Frame.height r
       /\ Frame.usableWidth r' = Frame.usableWidth r
       /\ Frame.usableHeight r' = Frame.usableHeight r
       /\ Frame.pagex r' = Frame.pagex r /\ Frame.pagey r' = Frame.pagey r
       /\ Frame.parent r' = Frame.parent r)
  /\ (forall i r, frameInfo !! i = Some r ->
        ~ (i ∈ frames /\ truthyStr (Frame.parent r) = true) ->
        fi !! i = Some r)
  /\ (forall i, frameInfo !! i = None -> fi !! i = None).
Proof.
  intros H. apply findRelevantSubFrame_Some in H as (_ & -> & _).
  repeat split.
  - intros i r Hi Hin Hp. rewrite absStore_lookup, Hi. simpl.
    unfold enumerated. rewrite Hp, bool_decide_eq_true_2 by assumption.
    eexists. split; [reflexivity|]. unfold absolutized, hitOrigin.
    destruct (frameInfo !! default "" (Frame.parent r)); simpl;
      repeat split; reflexivity.
  - intros i r Hi Hno. rewrite absStore_lookup, Hi. simpl. f_equal.
    unfold enumerated. destruct (truthyStr (Frame.parent r)).
    + rewrite bool_decide_eq_false_2; [reflexivity|]. intros Hin.
      apply Hno. now split.
    + now rewrite andb_false_r.
  - intros i Hi. now rewrite absStore_lookup, Hi.
Qed.

(** ** The usable sizes *)

Lemma usableOk_describe (frameId : string) (d : Details) (sf : Subframe)
    (r : FrameRec) : usableOk (describe frameId d sf r).
Proof.
  right. eexists _, _, _, _. simpl.
  repeat split; try reflexivity; apply usable_le.
Qed.

Lemma usableOk_touchAll (frameId : string) (d : Details)
    (sfs : list Subframe) (i : string) (r : FrameRec) :
  usableOk r -> usableOk (touchAll frameId d sfs i r).
Proof.
  intros Hr. unfold touchAll. destruct (List.find _ _); [|exact Hr].
  apply usableOk_describe.
Qed.

Lemma frame_details_usableOk (frameInfo : gmap string FrameRec)
    (frameId : string) (d : Details) :
  (forall i r, frameInfo !! i = Some r -> usableOk r) ->
  forall i r, frame_details frameInfo frameId d !! i = Some r -> usableOk r.
Proof.
  intros Hinv i r. rewrite frame_details_lookup.
  destruct (decide (i = frameId)) as [->|Hne].
  - rewrite lookup_insert_eq. simpl. intros [= <-]. rewrite touchAll_self.
    destruct (frameInfo !! frameId) as [r0|] eqn:H0; simpl.
    + exact (Hinv _ _ H0).
    + left. now repeat split.
  - rewrite lookup_insert_ne by congruence.
    destruct (frameInfo !! i) as [r0|] eqn:H0; [|discriminate].
    simpl. intros [= <-]. apply usableOk_touchAll. exact (Hinv _ _ H0).
Qed.

Lemma reachable_usableOk (frameInfo : gmap string FrameRec) :
  reachable frameInfo ->
  forall i r, frameInfo !! i = Some r -> usableOk r.
Proof.
  induction 1 as [|g rid pid d _ IH|g fuel frames qx qy fi res _ IH Hhit];
    intros i r.
  - rewrite lookup_empty. discriminate.
  - now apply frame_details_usableOk.
  - apply findRelevantSubFrame_Some in Hhit as (_ & -> & _).
    rewrite absStore_lookup. destruct (g !! i) as [r0|] eqn:H0; [|discriminate].
    simpl. intros [= <-]. specialize (IH _ _ H0).
    destruct (enumerated frames i r0); exact IH.
Qed.

(** No reachable registry has the key a record object stringifies to, so
    on a reachable registry every hit-test returns. *)
Lemma reachable_objectKey (frameInfo : gmap string FrameRec) :
  reachable frameInfo -> frameInfo !! objectKey = None.
Proof.
  induction 1 as [|g rid pid d _ IH|g fuel frames qx qy fi res _ IH Hhit].
  - apply lookup_empty.
  - apply frame_details_objectKey; [apply frameIdOf_objectKey|exact IH].
  - apply findRelevantSubFrame_Some in Hhit as (_ & -> & _).
    rewrite absStore_lookup, IH. reflexivity.
Qed.

Lemma findRelevantSubFrame_reachable (n : nat)
    (frameInfo : gmap string FrameRec) (frames : list string)
    (qx qy : jsval) :
  reachable frameInfo ->
  is_Some (findRelevantSubFrame (S n) frameInfo frames qx qy).
Proof. intros H. now apply findRelevantSubFrame_total, reachable_objectKey. Qed.

Lemma twoFrames_reachable : reachable twoFrames.
Proof.
  unfold twoFrames. rewrite <- frameIdOf_1_1.
  change "2-1" with (frameIdOf 2 1).
  do 2 apply reach_report. apply reach_start.
Qed.

Lemma twoFrames_report_reachable (d : Details) :
  reachable (frame_details twoFrames "1-1" d).
Proof.
  rewrite <- frameIdOf_1_1. apply reach_report, twoFrames_reachable.
Qed.

(** C6.  In every registry the main process goes through, a record with
    sizes has [usableWidth <= width] and [usableHeight <= height].  The
    record a report describes gets, from the last sub-report that matches
    it, the full sizes and the usable sizes [usable]: the full size minus
    the overflow of the child rectangle past the viewport of the parent
    when that overflow is positive, the full size otherwise.  A child at
    x = 100 of width 300 gets [usableWidth] 250 in a viewport 350 wide,
    and 300 in one 800 wide. *)
Theorem frame_details_usable :
  (forall frameInfo : gmap string FrameRec,
     reachable frameInfo ->
     forall i r, frameInfo !! i = Some r -> usableOk r)
  /\ (forall (frameInfo : gmap string FrameRec) (frameId : string)
        (d : Details) (i : string) (r : FrameRec),
       frame_details frameInfo frameId d !! i = Some r ->
       i <> frameId ->
       (exists sf, sf ∈ d_subframes d /\ Frame.url r = Some (sf_url sf)) ->
       exists sf,
         sf ∈ d_subframes d /\ Frame.url r = Some (sf_url sf)
         /\ Frame.width r = Num (sf_width sf)
         /\ Frame.height r = Num (sf_height sf)
         /\ Frame.usableWidth r
            = Num (usable (sf_x sf) (sf_width sf) (d_width d))
         /\ Frame.usableHeight r
            = Num (usable (sf_y sf) (sf_height sf) (d_height d))
         /\ usable (sf_x sf) (sf_width sf) (d_width d) <= sf_width sf
         /\ usable (sf_y sf) (sf_height sf) (d_height d) <= sf_height sf)
  /\ (forall pos size viewport,
        (0 < pos + size - viewport ->
         usable pos size viewport = size - (pos + size - viewport))
        /\ (pos + size - viewport <= 0 -> usable pos size viewport = size))
  /\ Frame.usableWidth
       <$> frame_details twoFrames "1-1"
             (mkDetails "https://root/" [childRect] 350 600 0 0) !! "2-1"
     = Some (Num 250)
  /\ Frame.usableWidth
       <$> frame_details twoFrames "1-1"
             (mkDetails "https://root/" [childRect] 800 600 0 0) !! "2-1"
     = Some (Num 300).
Proof.
  split; [exact reachable_usableOk|].
  split; [|split; [|split; vm_compute; reflexivity]].
  - intros frameInfo frameId d i r Hr Hne [sf0 [Hin Hurl]].
    rewrite frame_details_lookup in Hr.
    rewrite lookup_insert_ne in Hr by congruence.
    destruct (frameInfo !! i) as [r0|] eqn:Hi; [|discriminate].
    simpl in Hr. injection Hr as <-.
    rewrite touchAll_url in Hurl. unfold touchAll in *.
    destruct (List.find _ _) as [sf|] eqn:Hf.
    + apply find_some in Hf as [Hsf Hm].
      apply andb_prop in Hm as [Hu _]. apply bool_decide_eq_true_1 in Hu.
      exists sf. simpl. repeat split; try assumption; try apply usable_le.
      apply list_elem_of_In. now apply in_rev.
    + exfalso. apply list_elem_of_In, in_rev in Hin.
      apply (find_none _ _ Hf) in Hin. unfold matches in Hin.
      rewrite bool_decide_eq_true_2 in Hin by assumption.
      rewrite bool_decide_eq_false_2 in Hin by assumption. discriminate.
  - intros pos size viewport. split; [apply usable_overflow|apply usable_fits].
Qed.

Lemma frame_details_usable_witness : usableOk childClipped.
Proof.
  apply (proj1 frame_details_usable
           (frame_details twoFrames "1-1"
              (mkDetails "https://root/" [childRect] 350 600 0 0))
           (twoFrames_report_reachable _) "2-1").
  vm_compute. reflexivity.
Defined.

(** ** The hit-tester against the resolver *)

(** What the hit-tester stores for a frame with a parent is its local
    origin plus that of its parent alone: the walk up the chain stops after
    one step, because the next record is looked up under the key a record
    stringifies to. *)
Lemma findRelevantSubFrame_origin (fuel : nat)
    (frameInfo : gmap string FrameRec) (frames : list string)
    (qx qy : jsval) (fi : gmap string FrameRec) (res : option FrameRec)
    (i k : string) (r p : FrameRec) :
  findRelevantSubFrame fuel frameInfo frames qx qy = Some (fi, res) ->
  i ∈ frames -> frameInfo !! i = Some r ->
  Frame.parent r = Some k -> k <> "" -> frameInfo !! k = Some p ->
  exists r', fi !! i = Some r'
    /\ Frame.absX r' = add (Frame.x r) (Num (or0 (Frame.x p)))
    /\ Frame.absY r' = add (Frame.y r) (Num (or0 (Frame.y p))).
Proof.
  intros H Hin Hi Hp Hk Hpar.
  apply findRelevantSubFrame_Some in H as (_ & -> & _).
  rewrite absStore_lookup, Hi. simpl. unfold enumerated.
  rewrite Hp, (truthyStr_key k Hk), bool_decide_eq_true_2 by assumption.
  eexists. split; [reflexivity|]. unfold absolutized, hitOrigin.
  rewrite Hp. simpl. rewrite Hpar. simpl. rewrite !or0_or.
  split; reflexivity.
Qed.

(** With nothing above the parent the two origins coincide: the defect
    shows from the third level of nesting on. *)
Lemma findRelevantSubFrame_origin_one_level (fuel : nat)
    (frameInfo : gmap string FrameRec) (frames : list string)
    (qx qy : jsval) (fi : gmap string FrameRec) (res : option FrameRec)
    (i k : string) (r p : FrameRec) (rx ry : Z) :
  findRelevantSubFrame fuel frameInfo frames qx qy = Some (fi, res) ->
  i ∈ frames -> frameInfo !! i = Some r ->
  Frame.parent r = Some k -> k <> "" -> frameInfo !! k = Some p ->
  truthyStr (Frame.parent p) = false ->
  Frame.x r = Num rx -> Frame.y r = Num ry ->
  exists r' ax ay,
    fi !! i = Some r' /\ Frame.absX r' = Num ax /\ Frame.absY r' = Num ay
    /\ resolveAbsolute 1 frameInfo i = Some (ax, ay).
Proof.
  intros H Hin Hi Hp Hk Hpar Hroot Hx Hy.
  destruct (findRelevantSubFrame_origin _ _ _ _ _ _ _ _ _ _ _ H Hin Hi Hp Hk
              Hpar) as (r' & Hr' & Hax & Hay).
  exists r', (rx + or0 (Frame.x p)), (ry + or0 (Frame.y p)).
  rewrite Hax, Hay, Hx, Hy. repeat split; try assumption.
  unfold resolveAbsolute. rewrite Hi. simpl. rewrite Hp, Hx, Hy.
  rewrite (truthyStr_key k Hk). simpl. rewrite Hpar. simpl.
  now rewrite Hroot.
Qed.

(** C1.  On three levels of nesting the two origins differ: for the
    innermost frame ["4-1"] (local origin (10, 10), in a frame at (50, 50),
    in a frame at (100, 100)) a hit-test stores (60, 60), the resolver
    returns (160, 160), before and after the hit-test.  One level up, for
    ["3-1"], both give (150, 150). *)
Theorem hitTester_origin_stops_at_parent :
  exists fi,
    findRelevantSubFrame 1 nested nestedFrames (Num 70) (Num 70)
    = Some (fi, fi !! "4-1")
    /\ Frame.absX <$> fi !! "4-1" = Some (Num 60)
    /\ Frame.absY <$> fi !! "4-1" = Some (Num 60)
    /\ resolveAbsolute 3 nested "4-1" = Some (160, 160)
    /\ resolveAbsolute 3 fi "4-1" = Some (160, 160)
    /\ Frame.absX <$> fi !! "3-1" = Some (Num 150)
    /\ Frame.absY <$> fi !! "3-1" = Some (Num 150)
    /\ resolveAbsolute 3 nested "3-1" = Some (150, 150).
Proof.
  exists (absStore nested nestedFrames).
  do 7 (split; [vm_compute; reflexivity|]). vm_compute; reflexivity.
Qed.

(** C5.  On the same registry a hit-test at (70, 70) returns the frame
    ["4-1"], 20 by 20, whose absolute origin is (160, 160): the point is
    not inside its absolute bounds. *)
Theorem hitTester_returns_frame_off_point :
  exists fi r,
    findRelevantSubFrame 1 nested nestedFrames (Num 70) (Num 70)
    = Some (fi, Some r)
    /\ Frame.id r = Some "4-1"
    /\ Frame.width r = Num 20 /\ Frame.height r = Num 20
    /\ resolveAbsolute 3 nested "4-1" = Some (160, 160)
    /\ ~ (160 < 70 < 160 + 20).
Proof.
  exists (absStore nested nestedFrames).
  eexists. split; [vm_compute; reflexivity|].
  do 4 (split; [vm_compute; reflexivity|]). lia.
Qed.

(** C8.  On the same registry a hit-test at (165, 165) returns the frame
    ["3-1"], 300 wide, although the enumerated frame ["4-1"], 20 by 20 with
    the absolute origin (160, 160), strictly contains the point and is
    narrower: the test was made on the origin (60, 60) that the hit-tester
    stored for ["4-1"]. *)
Theorem hitTester_misses_narrowest :
  exists fi r,
    findRelevantSubFrame 1 nested nestedFrames (Num 165) (Num 165)
    = Some (fi, Some r)
    /\ Frame.id r = Some "3-1" /\ Frame.width r = Num 300
    /\ In "4-1" nestedFrames
    /\ Frame.width <$> nested !! "4-1" = Some (Num 20)
    /\ Frame.height <$> nested !! "4-1" = Some (Num 20)
    /\ resolveAbsolute 3 nested "4-1" = Some (160, 160)
    /\ 160 < 165 < 160 + 20 /\ 20 < 300
    /\ Frame.absX <$> fi !! "4-1" = Some (Num 60)
    /\ Frame.absY <$> fi !! "4-1" = Some (Num 60).
Proof.
  exists (absStore nested nestedFrames).
  eexists. split; [vm_compute; reflexivity|].
  do 2 (split; [vm_compute; reflexivity|]).
  split; [do 3 right; now left|].
  do 3 (split; [vm_compute; reflexivity|]).
  split; [lia|]. split; [lia|].
  split; vm_compute; reflexivity.
Qed.

(** ** The dispatcher *)

(** A "selectionRequest" whose start point hits a frame that is among the
    frames of the page is sent to that frame twice: once with both points
    translated, and once more, by the statement that serves every other
    action, with the start point translated and the end point as it
    came. *)
Lemma action_selectionRequest_hit (fuel : nat)
    (frameInfo : gmap string FrameRec) (frames : list string)
    (opts : list jsval) (fi : gmap string FrameRec) (subframe : FrameRec)
    (frameRef : string) :
  isNumber (nth 0 opts Undef) = true -> isNumber (nth 1 opts Undef) = true ->
  findRelevantSubFrame fuel frameInfo frames (nth 0 opts Undef)
    (nth 1 opts Undef) = Some (fi, Some subframe) ->
  findFrameRef frames (Frame.id subframe) = Some frameRef ->
  action fuel frameInfo frames "selectionRequest" opts
  = Some (fi,
      [FrameSend frameRef "selectionRequest"
         [sub (nth 0 opts Undef) (Frame.absX subframe);
          sub (nth 1 opts Undef) (Frame.absY subframe);
          sub (nth 2 opts Undef) (Frame.absX subframe);
          sub (nth 3 opts Undef) (Frame.absY subframe)];
       FrameSend frameRef "selectionRequest"
         (sub (nth 0 opts Undef) (Frame.absX subframe)
          :: sub (nth 1 opts Undef) (Frame.absY subframe)
          :: skipn 2 opts)]).
Proof.
  intros H0 H1 Hhit Href. unfold action. rewrite H0, H1, Hhit, Href.
  reflexivity.
Qed.

(** C2.  The selection from (120, 70) to (150, 90) starts in the child
    frame ["2-1"], whose origin is (100, 50).  The frame receives two
    messages: the first with both points translated, (20, 20) and
    (50, 40); the second with the end point untranslated, (150, 90). *)
Theorem action_selectionRequest_sent_twice :
  snd <$> action 1 described ["1-1"; "2-1"] "selectionRequest"
            [Num 120; Num 70; Num 150; Num 90]
  = Some [FrameSend "2-1" "selectionRequest"
            [Num 20; Num 20; Num 50; Num 40];
          FrameSend "2-1" "selectionRequest"
            [Num 20; Num 20; Num 150; Num 90]].
Proof. vm_compute. reflexivity. Qed.

(** ** The link aggregator *)

Lemma filter_map_toLink (info : option FrameRec) (frameId : string)
    (fx fy : Z) (keep : RawLink.t -> bool) (raw : list RawLink.t) :
  (forall l, unclipped (toLink info frameId fx fy l) = keep l) ->
  List.filter unclipped (map (toLink info frameId fx fy) raw)
  = map (toLink info frameId fx fy) (List.filter keep raw).
Proof.
  intros Hk. induction raw as [|l raw IH]; [reflexivity|].
  simpl. rewrite Hk, IH. destruct (keep l); reflexivity.
Qed.

(** The links of a report past the right or the bottom edge of the usable
    rectangle are the ones that go, when both usable sizes are set. *)
Lemma unclipped_sized (info : option FrameRec) (frameId : string)
    (fx fy w h : Z) (l : RawLink.t) :
  Frame.optNum Frame.usableWidth info = Num w ->
  Frame.optNum Frame.usableHeight info = Num h ->
  w <> 0 -> h <> 0 ->
  unclipped (toLink info frameId fx fy l)
  = (RawLink.x l <? w) && (RawLink.y l <? h).
Proof.
  intros Hw Hh Hw0 Hh0. unfold unclipped, toLink. simpl. rewrite Hw, Hh.
  simpl. destruct (Z.eqb_spec w 0), (Z.eqb_spec h 0); try contradiction.
  simpl. unfold lt. simpl. apply andb_comm.
Qed.

Lemma unclipped_unsized (info : option FrameRec) (frameId : string)
    (fx fy : Z) (l : RawLink.t) :
  Frame.optNum Frame.usableWidth info = Undef
  \/ Frame.optNum Frame.usableHeight info = Undef ->
  unclipped (toLink info frameId fx fy l) = true.
Proof.
  intros H. unfold unclipped, toLink. simpl.
  destruct H as [-> | ->]; simpl; [now rewrite orb_true_r|reflexivity].
Qed.

(** C3, as the code has it.  When both usable sizes of the reporting frame
    are registered and not zero, the batch is made of the links whose
    local position is left of [usableWidth] and above [usableHeight], in
    the order of the report: a link goes exactly when its x is at least
    [usableWidth] or its y at least [usableHeight].  When a usable size
    is not registered, every link stays.  A link that stays has its local
    coordinates plus the resolved origin of the frame as absolute
    coordinates. *)
Theorem frameLinks_clipping (fuel : nat) (frameInfo : gmap string FrameRec)
    (frameId : string) (rawLinks : list RawLink.t) (batch : list Link.t) :
  frameLinks fuel frameInfo frameId rawLinks = Some batch ->
  let info := frameInfo !! frameId in
  exists frameX frameY,
    resolveAbsolute fuel frameInfo frameId = Some (frameX, frameY)
    /\ (forall w h,
          Frame.optNum Frame.usableWidth info = Num w ->
          Frame.optNum Frame.usableHeight info = Num h ->
          w <> 0 -> h <> 0 ->
          batch
          = map (toLink info frameId frameX frameY)
              (List.filter
                 (fun l => (RawLink.x l <? w) && (RawLink.y l <? h))
                 rawLinks))
    /\ (Frame.optNum Frame.usableWidth info = Undef
        \/ Frame.optNum Frame.usableHeight info = Undef ->
        batch = map (toLink info frameId frameX frameY) rawLinks)
    /\ (forall e, In e batch ->
          exists l, In l rawLinks
            /\ Link.xInFrame e = RawLink.x l /\ Link.yInFrame e = RawLink.y l
            /\ Link.x e = RawLink.x l + frameX
            /\ Link.y e = RawLink.y l + frameY).
Proof.
  intros H info. unfold frameLinks in H.
  destruct (resolveAbsolute fuel frameInfo frameId) as [[fx fy]|];
    [|discriminate].
  injection H as <-. fold info. exists fx, fy. split; [reflexivity|].
  split; [|split].
  - intros w h Hw Hh Hw0 Hh0. apply filter_map_toLink. intros l.
    now apply unclipped_sized.
  - intros Hu. rewrite (filter_map_toLink _ _ _ _ (fun _ => true)).
    + f_equal. induction rawLinks as [|l ls IH]; [reflexivity|].
      simpl. now rewrite IH.
    + intros l. now apply unclipped_unsized.
  - intros e He. apply filter_In in He as [He _].
    apply in_map_iff in He as (l & <- & Hl). exists l. now repeat split.
Qed.

Lemma frameLinks_clipping_witness :
  exists frameX frameY,
    resolveAbsolute 1 described "2-1" = Some (frameX, frameY)
    /\ frameLinks 1 described "2-1" twoLinks
       = Some [toLink (described !! "2-1") "2-1" frameX frameY
                 (RawLink.mk 5 5 "first")].
Proof.
  destruct (frameLinks_clipping 1 described "2-1" twoLinks
              [toLink (described !! "2-1") "2-1" 100 50
                 (RawLink.mk 5 5 "first")])
    as (fx & fy & Hres & Hsized & _).
  - vm_compute. reflexivity.
  - exists fx, fy. split; [exact Hres|].
    assert (Hxy : Some (fx, fy) = Some (100, 50))
      by (rewrite <- Hres; vm_compute; reflexivity).
    injection Hxy as -> ->. vm_compute. reflexivity.
Defined.

(** The claim C3 as written fails on both counts.  In [described] the
    child frame ["2-1"] has a usable rectangle of 300 by 200; a link at
    (-5, 10) is outside it and stays in the batch.  The root page ["1-1"]
    has no usable rectangle registered, and its link stays as well. *)
Lemma frameLinks_keeps_link_outside :
  (frameLinks 1 described "2-1" [RawLink.mk (-5) 10 "a"]
   = Some [toLink (described !! "2-1") "2-1" 100 50 (RawLink.mk (-5) 10 "a")]
   /\ ~ insideUsable (described !! "2-1") (RawLink.mk (-5) 10 "a"))
  /\ (frameLinks 1 described "1-1" [RawLink.mk 5 10 "b"]
      = Some [toLink (described !! "1-1") "1-1" 0 0 (RawLink.mk 5 10 "b")]
      /\ ~ insideUsable (described !! "1-1") (RawLink.mk 5 10 "b")).
Proof.
  split; split; try (vm_compute; reflexivity).
  - intros (w & h & _ & _ & Hx & _). simpl in Hx. lia.
  - intros (w & h & Hw & _). vm_compute in Hw. discriminate.
Qed.

Lemma frameLinks_frameId (fuel : nat) (frameInfo : gmap string FrameRec)
    (frameId : string) (rawLinks : list RawLink.t) (batch : list Link.t) :
  frameLinks fuel frameInfo frameId rawLinks = Some batch ->
  Forall (fun l => Link.frameId l = frameId) batch.
Proof.
  unfold frameLinks.
  destruct (resolveAbsolute fuel frameInfo frameId) as [[fx fy]|];
    [|discriminate].
  intros [= <-]. apply List.Forall_forall. intros e He.
  apply filter_In in He as [He _].
  apply in_map_iff in He as (l & <- & _). reflexivity.
Qed.

(** After any report of a frame, the aggregate is the entries of other
    frames that were kept, followed by the batch of this report. *)
Lemma follow_response_split (fuel : nat) (frameInfo : gmap string FrameRec)
    (allFramesIds : list string) (frameId : string)
    (rawLinks : list RawLink.t) (allLinks all' : list Link.t) :
  follow_response fuel frameInfo allFramesIds frameId rawLinks allLinks
  = Some all' ->
  exists others batch,
    frameLinks fuel frameInfo frameId rawLinks = Some batch
    /\ all' = (others ++ batch)%list
    /\ Forall (fun l => Link.frameId l <> frameId) others
    /\ Forall (fun l => Link.frameId l = frameId) batch.
Proof.
  unfold follow_response.
  destruct (frameLinks fuel frameInfo frameId rawLinks) as [batch|] eqn:Hb;
    [|discriminate].
  intros [= <-]. eexists _, batch. split; [reflexivity|].
  split; [reflexivity|]. split.
  - apply List.Forall_forall. intros l Hl. apply filter_In in Hl as [_ Hl].
    apply andb_prop in Hl as [Hl _]. apply negb_true_iff in Hl.
    now apply bool_decide_eq_false_1 in Hl.
  - now apply frameLinks_frameId with fuel frameInfo rawLinks.
Qed.

(** C7.  After two reports of the frame [A], whatever happened to the
    registry and to the live frames in between, the aggregate is made of
    entries of other frames followed by the batch of the second report:
    the entries of [A] in it are that batch and nothing else. *)
Theorem follow_response_replaces_batch (fuel1 fuel2 : nat)
    (frameInfo1 frameInfo2 : gmap string FrameRec)
    (live1 live2 : list string) (A : string)
    (raw1 raw2 : list RawLink.t) (all0 all1 all2 : list Link.t) :
  follow_response fuel1 frameInfo1 live1 A raw1 all0 = Some all1 ->
  follow_response fuel2 frameInfo2 live2 A raw2 all1 = Some all2 ->
  exists others batch2,
    frameLinks fuel2 frameInfo2 A raw2 = Some batch2
    /\ all2 = (others ++ batch2)%list
    /\ Forall (fun l => Link.frameId l <> A) others
    /\ List.filter (fun l => bool_decide (Link.frameId l = A)) all2 = batch2.
Proof.
  intros _ H2. apply follow_response_split in H2
    as (others & batch & Hb & -> & Ho & Hbatch).
  exists others, batch. repeat split; try assumption.
  rewrite List.filter_app.
  assert (Hnone : List.filter (fun l => bool_decide (Link.frameId l = A))
                    others = []).
  { clear -Ho. induction Ho as [|l ls Hl _ IH]; [reflexivity|].
    simpl. now rewrite bool_decide_eq_false_2. }
  assert (Hall : List.filter (fun l => bool_decide (Link.frameId l = A))
                   batch = batch).
  { clear -Hbatch. induction Hbatch as [|l ls Hl _ IH]; [reflexivity|].
    simpl. rewrite bool_decide_eq_true_2 by assumption. now rewrite IH. }
  now rewrite Hnone, Hall.
Qed.

Lemma follow_response_replaces_batch_witness :
  exists others batch2,
    frameLinks 1 described "2-1" [RawLink.mk 7 7 "again"] = Some batch2
    /\ afterSecond = (others ++ batch2)%list
    /\ Forall (fun l => Link.frameId l <> "2-1") others
    /\ List.filter (fun l => bool_decide (Link.frameId l = "2-1")) afterSecond
       = batch2.
Proof.
  apply (follow_response_replaces_batch 1 1 described described
           liveFrames liveFrames "2-1" twoLinks [RawLink.mk 7 7 "again"]
           afterRoot afterFirst afterSecond);
    vm_compute; reflexivity.
Defined.

(** On that session: the aggregate holds the link of the root page and the
    one link of the second report of ["2-1"]. *)
Example afterSecond_links :
  map (fun l => (Link.frameId l, Link.rest l, Link.x l, Link.y l)) afterSecond
  = [("1-1", "home", 30, 40); ("2-1", "again", 107, 57)].
Proof. vm_compute. reflexivity. Qed.

(** ** The event translator *)

Lemma spanField_or (input : jsval) (off : Z) :
  spanField input off (or (add input (Num off)) Null).
Proof.
  repeat split.
  - intros ->. reflexivity.
  - intros v -> Hz. unfold add, or. simpl. now rewrite Hz.
  - intros v -> Hz. unfold add, or. simpl.
    destruct (Z.eqb_spec (v + off) 0); [contradiction|reflexivity].
Qed.

(** C10.  In what [translateMouseEvent] returns, with the offset the
    absolute origin of the sending frame: [startX], [startY], [endX] and
    [endY] are [null] when the field of the input is absent and when the
    translated value is 0, and the translated value otherwise; [x] and [y]
    are the input position plus the offset, 0 included. *)
Theorem translateMouseEvent_span_fields (fuel : nat)
    (frameInfo : gmap string FrameRec) (allWebContents : list (string * Z))
    (frameId : string) (clickInfo : Click.t) (m : Mouse.t) :
  translateMouseEvent fuel frameInfo allWebContents frameId clickInfo
  = Some m ->
  resolveAbsolute fuel frameInfo frameId
  = Some (Mouse.frameAbsX m, Mouse.frameAbsY m)
  /\ spanField (Click.startX clickInfo) (Mouse.frameAbsX m) (Mouse.startX m)
  /\ spanField (Click.startY clickInfo) (Mouse.frameAbsY m) (Mouse.startY m)
  /\ spanField (Click.endX clickInfo) (Mouse.frameAbsX m) (Mouse.endX m)
  /\ spanField (Click.endY clickInfo) (Mouse.frameAbsY m) (Mouse.endY m)
  /\ Mouse.x m = add (Click.x clickInfo) (Num (Mouse.frameAbsX m))
  /\ Mouse.y m = add (Click.y clickInfo) (Num (Mouse.frameAbsY m))
  /\ (forall cx, Click.x clickInfo = Num cx ->
        Mouse.x m = Num (cx + Mouse.frameAbsX m))
  /\ (forall cy, Click.y clickInfo = Num cy ->
        Mouse.y m = Num (cy + Mouse.frameAbsY m)).
Proof.
  intros H. split; [now apply translateMouseEvent_origin in H|].
  unfold translateMouseEvent in H.
  destruct (walkOwner _ _ _ _ _ _ _) as [[[fx fy] pid]|]; [|discriminate].
  injection H as <-. simpl.
  repeat (split; [apply spanField_or || reflexivity|]).
  split; intros c ->; reflexivity.
Qed.

Lemma translateMouseEvent_span_fields_witness :
  translateMouseEvent 1 described [("1-1", 7)] "2-1" dragInChild
  = Some dragInWindow
  /\ Mouse.startX dragInWindow = Null /\ Mouse.startY dragInWindow = Null
  /\ Mouse.endX dragInWindow = Num (50 + 100)
  /\ Mouse.x dragInWindow = Num (20 + 100).
Proof.
  assert (Hm : translateMouseEvent 1 described [("1-1", 7)] "2-1" dragInChild
               = Some dragInWindow) by (vm_compute; reflexivity).
  destruct (translateMouseEvent_span_fields _ _ _ _ _ _ Hm)
    as (_ & Hsx & Hsy & Hex & _ & _ & _ & Hx & _).
  split; [exact Hm|].
  split; [apply (proj1 (proj2 Hsx) (-100)); reflexivity|].
  split; [apply (proj1 Hsy); reflexivity|].
  split; [apply (proj2 (proj2 Hex) 50); [reflexivity|simpl; lia]|].
  apply (Hx 20). reflexivity.
Defined.

(** ** Instances on the example registries *)


Lemma findRelevantSubFrame_narrowest_witness :
  firstNarrowest
    (passing (absStore nested nestedFrames) nestedFrames (Num 165)
       (Num 165))
    (absStore nested nestedFrames !! "3-1")
  /\ findRelevantSubFrame 1 (absStore nested nestedFrames) nestedFrames
       (Num 165) (Num 165)
     = Some (absStore nested nestedFrames,
             absStore nested nestedFrames !! "3-1").
Proof.
  apply (findRelevantSubFrame_narrowest 1 nested nestedFrames).
  vm_compute. reflexivity.
Defined.

Lemma findRelevantSubFrame_writes_abs_witness :
  exists fi,
    findRelevantSubFrame 1 described liveFrames (Num 120) (Num 70)
    = Some (fi, fi !! "2-1")
    /\ Frame.absX <$> described !! "2-1" = Some Undef
    /\ Frame.absY <$> described !! "2-1" = Some Undef
    /\ Frame.absX <$> fi !! "2-1" = Some (Num 100)
    /\ Frame.absY <$> fi !! "2-1" = Some (Num 50)
    /\ fi <> described.
Proof.
  exists (absStore described liveFrames).
  assert (Hrec : described !! "2-1" = Some childRec)
    by (vm_compute; reflexivity).
  assert (Hcall : findRelevantSubFrame 1 described liveFrames
                    (Num 120) (Num 70)
                  = Some (absStore described liveFrames,
                          absStore described liveFrames !! "2-1"))
    by (vm_compute; reflexivity).
  destruct (findRelevantSubFrame_writes_abs _ _ _ _ _ _ _ Hcall)
    as (Hw & _ & _).
  destruct (Hw "2-1" childRec Hrec) as (r' & Hr' & Hax & Hay & _);
    [apply list_elem_of_In; right; left; reflexivity|reflexivity|].
  assert (Hroot : described !! default "" (Frame.parent childRec)
                  = Some (Frame.mk (Some "1-1") (Some "https://root/")
                            Undef Undef Undef Undef Undef Undef Undef Undef
                            None Undef Undef))
    by (vm_compute; reflexivity).
  rewrite Hroot in Hax, Hay. cbn in Hax, Hay.
  split; [exact Hcall|]. rewrite Hrec, Hr'. cbn [fmap option_fmap option_map].
  split; [reflexivity|]. split; [reflexivity|].
  split; [now rewrite Hax|]. split; [now rewrite Hay|].
  intros Heq. rewrite Heq, Hrec in Hr'. injection Hr' as <-.
  discriminate Hax.
Defined.

(** * Further properties *)

(** ** Reports *)

Lemma find_pointwise {A : Type} (f g : A -> bool) (l : list A) :
  (forall a, f a = g a) -> List.find f l = List.find g l.
Proof.
  intros H. induction l as [|a l IH]; [reflexivity|].
  simpl. now rewrite H, IH.
Qed.

Section Reports.

Variables (frameId : string) (d : Details).

Lemma touchAll_describe_or_same (sfs : list Subframe) (i : string)
    (r : FrameRec) :
  touchAll frameId d sfs i r = r
  \/ exists sf, In sf sfs /\ matches frameId sf i r = true
       /\ touchAll frameId d sfs i r = describe frameId d sf r.
Proof.
  unfold touchAll. destruct (List.find _ _) as [sf|] eqn:Hf; [|now left].
  right. apply find_some in Hf as [Hin Hm]. exists sf.
  split; [now apply in_rev|]. now split.
Qed.

Lemma touchAll_idem (sfs : list Subframe) (i : string) (r : FrameRec) :
  touchAll frameId d sfs i (touchAll frameId d sfs i r)
  = touchAll frameId d sfs i r.
Proof.
  unfold touchAll at 1.
  assert (Hm : forall sf, matches frameId sf i (touchAll frameId d sfs i r)
                          = matches frameId sf i r).
  { intros sf. unfold matches. now rewrite touchAll_url. }
  rewrite (find_pointwise _ _ _ Hm). unfold touchAll.
  destruct (List.find _ _); reflexivity.
Qed.

Lemma touchAll_unnamed (sfs : list Subframe) (i : string) (r : FrameRec) :
  (forall sf, In sf sfs -> Frame.url r <> Some (sf_url sf)) ->
  touchAll frameId d sfs i r = r.
Proof.
  intros Hno. destruct (touchAll_describe_or_same sfs i r)
    as [H|(sf & Hin & Hm & _)]; [exact H|].
  apply andb_prop in Hm as [Hu _]. apply bool_decide_eq_true_1 in Hu.
  now destruct (Hno sf Hin).
Qed.

Lemma frame_details_self (frameInfo : gmap string FrameRec) :
  frame_details frameInfo frameId d !! frameId
  = Some (setIdUrl (default Frame.empty (frameInfo !! frameId)) frameId
            (d_url d)).
Proof.
  rewrite frame_details_lookup, lookup_insert_eq. simpl.
  now rewrite touchAll_self.
Qed.

Lemma frame_details_other (frameInfo : gmap string FrameRec) (i : string) :
  i <> frameId ->
  frame_details frameInfo frameId d !! i
  = touchAll frameId d (d_subframes d) i <$> frameInfo !! i.
Proof.
  intros Hne. rewrite frame_details_lookup.
  now rewrite lookup_insert_ne by congruence.
Qed.

End Reports.

(** X1.  Reporting the same details twice leaves the registry as the
    first report left it. *)
Theorem frame_details_idempotent (frameInfo : gmap string FrameRec)
    (frameId : string) (d : Details) :
  frame_details (frame_details frameInfo frameId d) frameId d
  = frame_details frameInfo frameId d.
Proof.
  apply map_eq. intros i. destruct (decide (i = frameId)) as [->|Hne].
  - rewrite !frame_details_self. reflexivity.
  - rewrite !frame_details_other by assumption.
    destruct (frameInfo !! i) as [r|]; [|reflexivity]. simpl.
    now rewrite touchAll_idem.
Qed.

(** X2.  A report removes no record and adds the reporter's only; it
    leaves as they are the records whose url none of its sub-reports
    names; and on the reporter's own record it writes [id] and [url] and
    nothing else, even when a sub-report names the reporter's url. *)
Theorem frame_details_frame (frameInfo : gmap string FrameRec)
    (frameId : string) (d : Details) :
  dom (frame_details frameInfo frameId d) = {[frameId]} ∪ dom frameInfo
  /\ (forall i r,
        i <> frameId -> frameInfo !! i = Some r ->
        (forall sf, In sf (d_subframes d) ->
           Frame.url r <> Some (sf_url sf)) ->
        frame_details frameInfo frameId d !! i = Some r)
  /\ frame_details frameInfo frameId d !! frameId
     = Some (setIdUrl (default Frame.empty (frameInfo !! frameId)) frameId
               (d_url d)).
Proof.
  split; [|split].
  - apply set_eq. intros i. rewrite elem_of_union, elem_of_singleton.
    rewrite !elem_of_dom. destruct (decide (i = frameId)) as [->|Hne].
    + rewrite frame_details_self. split; eauto.
    + rewrite frame_details_other by assumption.
      rewrite fmap_is_Some. tauto.
  - intros i r Hne Hr Hno. rewrite frame_details_other, Hr by assumption.
    simpl. now rewrite touchAll_unnamed.
  - apply frame_details_self.
Qed.

Lemma frameIdOf_nonempty (routingId processId : Z) :
  frameIdOf routingId processId <> "".
Proof.
  unfold frameIdOf. destruct (pretty_Z_head routingId) as [Hne _].
  destruct (pretty routingId); [contradiction|discriminate].
Qed.

Lemma frame_details_keeps (frameInfo : gmap string FrameRec)
    (frameId : string) (d : Details) (p : string) :
  is_Some (frameInfo !! p) ->
  is_Some (frame_details frameInfo frameId d !! p).
Proof.
  intros Hp. destruct (decide (p = frameId)) as [->|Hne].
  - rewrite frame_details_self. eauto.
  - rewrite frame_details_other by assumption. now apply fmap_is_Some.
Qed.

Lemma recordOk_mono (g g' : gmap string FrameRec) (i : string)
    (r : FrameRec) :
  (forall p, is_Some (g !! p) -> is_Some (g' !! p)) ->
  recordOk g i r -> recordOk g' i r.
Proof.
  intros Hmono (Hid & Hurl & Hpar). split; [exact Hid|]. split; [exact Hurl|].
  destruct (Frame.parent r) as [p|]; [|exact Hpar].
  destruct Hpar as (Hp & Hi & Hreg & Hgeo). auto.
Qed.

Lemma frame_details_wellFormed (frameInfo : gmap string FrameRec)
    (routingId processId : Z) (d : Details) :
  wellFormed frameInfo ->
  wellFormed (frame_details frameInfo (frameIdOf routingId processId) d).
Proof.
  set (fid := frameIdOf routingId processId). intros Hwf i r.
  assert (Hmono : forall p, is_Some (frameInfo !! p) ->
            is_Some (frame_details frameInfo fid d !! p))
    by (intros p; apply frame_details_keeps).
  destruct (decide (i = fid)) as [->|Hne].
  - rewrite frame_details_self. intros [= <-].
    destruct (frameInfo !! fid) as [r0|] eqn:H0; simpl.
    + apply (recordOk_mono frameInfo _ _ _ Hmono).
      destruct (Hwf _ _ H0) as (_ & _ & Hpar).
      split; [reflexivity|]. split; [simpl; eauto|exact Hpar].
    + split; [reflexivity|]. split; [simpl; eauto|]. now simpl.
  - rewrite frame_details_other by assumption.
    destruct (frameInfo !! i) as [r0|] eqn:H0; [|discriminate].
    simpl. intros [= <-]. pose proof (Hwf _ _ H0) as Hr0.
    destruct (touchAll_describe_or_same fid d (d_subframes d) i r0)
      as [->|(sf & _ & _ & ->)].
    + now apply (recordOk_mono frameInfo _ _ _ Hmono).
    + destruct Hr0 as (Hid & Hurl & _).
      split; [exact Hid|]. split; [exact Hurl|]. simpl.
      split; [apply frameIdOf_nonempty|]. split; [congruence|].
      split; [rewrite frame_details_self; eauto|].
      now eexists _, _, _, _.
Qed.

Lemma absStore_wellFormed (frameInfo : gmap string FrameRec)
    (frames : list string) :
  wellFormed frameInfo -> wellFormed (absStore frameInfo frames).
Proof.
  intros Hwf i r. rewrite absStore_lookup.
  destruct (frameInfo !! i) as [r0|] eqn:H0; [|discriminate].
  simpl. intros [= <-].
  assert (Hok : recordOk (absStore frameInfo frames) i r0).
  { apply (recordOk_mono frameInfo); [|now apply Hwf].
    intros p Hp. rewrite absStore_lookup. now apply fmap_is_Some. }
  destruct (enumerated frames i r0); exact Hok.
Qed.

Lemma reachable_wellFormed_aux (frameInfo : gmap string FrameRec) :
  reachable frameInfo -> wellFormed frameInfo.
Proof.
  induction 1 as [|g rid pid d _ IH|g fuel frames qx qy fi res _ IH Hhit].
  - intros i r. rewrite lookup_empty. discriminate.
  - now apply frame_details_wellFormed.
  - apply findRelevantSubFrame_Some in Hhit as (_ & -> & _).
    now apply absStore_wellFormed.
Qed.

(** X3.  In every registry the main process goes through, a record
    carries its own key as [id] and has a url; a record without a parent
    has no geometry; a record with a parent names another frame, one that
    is registered, and has numbers as position and size. *)
Theorem reachable_wellFormed (frameInfo : gmap string FrameRec) :
  reachable frameInfo -> wellFormed frameInfo.
Proof. apply reachable_wellFormed_aux. Qed.

Lemma nested_reachable : reachable nested.
Proof.
  unfold nested. cbv zeta.
  change "1-1" with (frameIdOf 1 1). change "2-1" with (frameIdOf 2 1).
  change "3-1" with (frameIdOf 3 1). change "4-1" with (frameIdOf 4 1).
  do 7 apply reach_report. apply reach_start.
Qed.

Lemma reachable_wellFormed_witness : wellFormed nested.
Proof. apply reachable_wellFormed, nested_reachable. Defined.

(** ** Cycles *)

Section TwoCycle.

Variables (frameInfo : gmap string FrameRec) (A B : string).
Variables (rA rB : FrameRec).
Hypothesis HA : A <> "".
Hypothesis HB : B <> "".
Hypothesis HrA : frameInfo !! A = Some rA.
Hypothesis HrB : frameInfo !! B = Some rB.
Hypothesis HpA : Frame.parent rA = Some B.
Hypothesis HpB : Frame.parent rB = Some A.

Lemma walkParents_two_cycle (fuel : nat) :
  forall fx fy,
    walkParents fuel frameInfo fx fy (Some A) = None
    /\ walkParents fuel frameInfo fx fy (Some B) = None.
Proof.
  induction fuel as [|n IH]; intros fx fy; cbn [walkParents];
    rewrite (truthyStr_key A HA), (truthyStr_key B HB); [now split|].
  simpl default. rewrite HrA, HrB. simpl. rewrite HpA, HpB.
  split; apply IH.
Qed.

Lemma resolveAbsolute_two_cycle (fuel : nat) :
  resolveAbsolute fuel frameInfo A = None.
Proof.
  unfold resolveAbsolute. rewrite HrA. simpl. rewrite HpA.
  destruct fuel as [|n]; cbn [walkParents]; rewrite (truthyStr_key B HB);
    [reflexivity|].
  simpl default. rewrite HrB. simpl. rewrite HpB.
  apply walkParents_two_cycle.
Qed.

End TwoCycle.

Lemma touchAll_named (frameId : string) (d : Details)
    (sfs : list Subframe) (i : string) (r : FrameRec) (sf : Subframe) :
  i <> frameId -> In sf sfs -> Frame.url r = Some (sf_url sf) ->
  Frame.parent (touchAll frameId d sfs i r) = Some frameId.
Proof.
  intros Hne Hin Hurl. unfold touchAll.
  destruct (List.find _ _) as [sf'|] eqn:Hf; [reflexivity|].
  apply in_rev in Hin. apply (find_none _ _ Hf) in Hin.
  unfold matches in Hin.
  rewrite bool_decide_eq_true_2 in Hin by assumption.
  rewrite bool_decide_eq_false_2 in Hin by assumption. discriminate.
Qed.

(** X4.  Two frames that come to describe each other leave a cycle in
    the registry: after [A] has announced itself with the url [d_url dA],
    [B] has reported a sub-report for that url, and [A] has reported a
    sub-report for the url of [B], the walk up the parents of [A] never
    ends, so no link report of [A] and no mouse event of [A] is ever
    answered. *)
Theorem mutualReports_hang (frameInfo : gmap string FrameRec)
    (A B : string) (dA dB : Details) (sfA sfB : Subframe) :
  A <> "" -> B <> "" -> A <> B ->
  In sfB (d_subframes dA) -> sf_url sfB = d_url dB ->
  In sfA (d_subframes dB) -> sf_url sfA = d_url dA ->
  forall fuel,
    resolveAbsolute fuel (mutualReports frameInfo A B dA dB) A = None
    /\ (forall live raw all,
          follow_response fuel (mutualReports frameInfo A B dA dB) live A
            raw all = None)
    /\ (forall wcs clickInfo,
          translateMouseEvent fuel (mutualReports frameInfo A B dA dB) wcs A
            clickInfo = None).
Proof.
  intros HA HB Hne HinB HuB HinA HuA fuel.
  set (g1 := frame_details frameInfo A dA).
  set (g2 := frame_details g1 B dB).
  assert (H1 : g1 !! A = Some (setIdUrl (default Frame.empty
                                            (frameInfo !! A)) A (d_url dA)))
    by apply frame_details_self.
  set (a1 := setIdUrl (default Frame.empty (frameInfo !! A)) A (d_url dA))
    in H1.
  assert (H2A : g2 !! A
                = Some (touchAll B dB (d_subframes dB) A a1)).
  { unfold g2. rewrite frame_details_other by assumption. now rewrite H1. }
  assert (H2B : exists b2, g2 !! B = Some b2
                           /\ Frame.url b2 = Some (d_url dB)).
  { unfold g2. rewrite frame_details_self. eauto. }
  destruct H2B as (b2 & H2B & Hub2).
  set (a2 := touchAll B dB (d_subframes dB) A a1) in H2A.
  assert (Hpa2 : Frame.parent a2 = Some B).
  { apply touchAll_named with sfA; [assumption|assumption|].
    now rewrite HuA. }
  assert (H3A : mutualReports frameInfo A B dA dB !! A
                = Some (setIdUrl a2 A (d_url dA))).
  { unfold mutualReports. fold g1. fold g2.
    now rewrite frame_details_self, H2A. }
  assert (H3B : mutualReports frameInfo A B dA dB !! B
                = Some (touchAll A dA (d_subframes dA) B b2)).
  { unfold mutualReports. fold g1. fold g2.
    rewrite frame_details_other by congruence. now rewrite H2B. }
  assert (Hpb3 : Frame.parent (touchAll A dA (d_subframes dA) B b2)
                 = Some A).
  { apply touchAll_named with sfB; [congruence|assumption|].
    now rewrite HuB. }
  assert (Hres : forall n,
            resolveAbsolute n (mutualReports frameInfo A B dA dB) A = None).
  { intros n. now apply (resolveAbsolute_two_cycle _ A B _ _ HA HB H3A H3B). }
  split; [apply Hres|]. split.
  - intros live raw all. unfold follow_response, frameLinks.
    now rewrite Hres.
  - intros wcs clickInfo.
    destruct (translateMouseEvent fuel _ wcs A clickInfo) as [m|] eqn:Hm;
      [|reflexivity].
    apply translateMouseEvent_origin in Hm. now rewrite Hres in Hm.
Qed.

Lemma mutualReports_hang_witness :
  resolveAbsolute 100
    (mutualReports ∅ "1-1" "2-1"
       (mkDetails "https://a/" [mkSubframe "https://b/" 0 0 10 10] 50 50 0 0)
       (mkDetails "https://b/" [mkSubframe "https://a/" 0 0 10 10] 50 50 0 0))
    "1-1"
  = None.
Proof.
  apply (mutualReports_hang ∅ "1-1" "2-1"
           (mkDetails "https://a/" [mkSubframe "https://b/" 0 0 10 10]
              50 50 0 0)
           (mkDetails "https://b/" [mkSubframe "https://a/" 0 0 10 10]
              50 50 0 0)
           (mkSubframe "https://a/" 0 0 10 10)
           (mkSubframe "https://b/" 0 0 10 10));
    try discriminate; try reflexivity; simpl; now left.
Defined.

(** ** Hit-tests on registries built by reports *)

Lemma findFrameRef_enumerated (frames : list string) (i : string) :
  In i frames -> findFrameRef frames (Some i) = Some i.
Proof.
  unfold findFrameRef. induction frames as [|f fs IH]; [contradiction|].
  intros Hin. simpl. destruct (decide (f = i)) as [->|Hne].
  - now rewrite bool_decide_eq_true_2.
  - rewrite bool_decide_eq_false_2 by congruence. apply IH.
    destruct Hin; [contradiction|assumption].
Qed.

(** The record a hit-test returns is that of an enumerated frame with a
    parent, as the registry holds it after the hit-test. *)
Lemma findRelevantSubFrame_enumerated (fuel : nat)
    (frameInfo : gmap string FrameRec) (frames : list string)
    (qx qy : jsval) (fi : gmap string FrameRec) (r : FrameRec) :
  findRelevantSubFrame fuel frameInfo frames qx qy = Some (fi, Some r) ->
  exists i, In i frames /\ fi !! i = Some r
    /\ truthyStr (Frame.parent r) = true /\ inside r qx qy = true.
Proof.
  intros H. apply findRelevantSubFrame_first in H.
  destruct H as (before & after & w & Hc & _).
  assert (Hin : In r (passing fi frames qx qy)).
  { rewrite Hc. apply in_or_app. right. now left. }
  unfold passing in Hin. apply filter_In in Hin as [Hin Hins].
  apply list_elem_of_In, list_elem_of_omap in Hin as (i & Hi & Hr).
  apply list_elem_of_In in Hi. unfold absRefs in Hi.
  apply filter_In in Hi as [Hi Hp]. rewrite Hr in Hp.
  exists i. now repeat split.
Qed.

(** On a registry built by reports, a hit comes with what a dispatcher
    needs: the record returned is that of one of the frames of the page,
    it carries the id of that frame, so the frame is found, and the point
    passes the test of the hit-tester on what the record stores. *)
Lemma hit_frame_found (fuel : nat) (frameInfo : gmap string FrameRec)
    (frames : list string) (qx qy : jsval) (fi : gmap string FrameRec)
    (r : FrameRec) :
  reachable frameInfo ->
  findRelevantSubFrame fuel frameInfo frames qx qy = Some (fi, Some r) ->
  exists i,
    In i frames /\ fi !! i = Some r /\ Frame.id r = Some i
    /\ findFrameRef frames (Frame.id r) = Some i
    /\ inside r qx qy = true.
Proof.
  intros Hreach Hhit.
  pose proof (reachable_wellFormed_aux _ (reach_hit _ _ _ _ _ _ _ Hreach Hhit))
    as Hwf.
  destruct (findRelevantSubFrame_enumerated _ _ _ _ _ _ _ Hhit)
    as (i & Hin & Hi & _ & Hins).
  destruct (Hwf _ _ Hi) as (Hid & _).
  exists i. repeat split; try assumption.
  rewrite Hid. now apply findFrameRef_enumerated.
Qed.



(** ** Dispatch on registries built by reports *)



Lemma described_reachable : reachable described.
Proof. apply twoFrames_report_reachable. Qed.





(** X9.  Whatever the input, with or without a page and whether a frame
    is hit or not, the events of "send-input-event" are balanced: a
    "mouseDown" handed to the page is followed at once by a "mouseUp" with
    the same button at the same point, and there is no "mouseUp" without
    it. *)
Theorem send_input_event_balanced (fuel : nat)
    (frameInfo : gmap string FrameRec) (wc : option (list string))
    (inputInfo : InputInfo.t) (fi : gmap string FrameRec)
    (msgs : list inputSent) (e : ending) :
  send_input_event fuel frameInfo wc inputInfo = Some (fi, msgs, e) ->
  balanced msgs = true.
Proof.
  unfold send_input_event.
  destruct wc as [frames|]; [|now intros [= <- <- <-]].
  destruct (findRelevantSubFrame _ _ _ _ _) as [[fi' [r|]]|];
    [| |discriminate].
  - destruct (findFrameRef _ _); intros [= <- <- <-]; [|reflexivity].
    unfold typeIs. repeat case_bool_decide; reflexivity.
  - intros [= <- <- <-]. unfold typeIs.
    repeat case_bool_decide; simpl;
      rewrite ?bool_decide_eq_true_2 by reflexivity; reflexivity.
Qed.

Lemma send_input_event_balanced_witness :
  balanced
    [Native (MouseEv.mk (Some "mouseEnter") (Num 5) (Num 5) None None None
               None);
     Native (MouseEv.mk (Some "mouseMove") (Num 5) (Num 5) None None None
               None);
     Native (MouseEv.mk (Some "mouseDown") (Num 5) (Num 5) None None
               (Some "right") (Some 1));
     Native (MouseEv.mk (Some "mouseUp") (Num 5) (Num 5) None None
               (Some "right") None);
     Native (MouseEv.mk (Some "mouseLeave") (Num 5) (Num 5) None None None
               None)]
  = true.
Proof.
  apply (send_input_event_balanced 1 described (Some liveFrames)
           (InputInfo.mk (Some "click") (Num 5) (Num 5) Undef Undef
              (Some "right"))
           (absStore described liveFrames) _ Returns).
  vm_compute. reflexivity.
Defined.

(** The calls of "send-keyboard-event" are events and notices, never
    "main-error". *)
Lemma keyboardCalls_no_error (mainRouting : Z) (frames : list (Z * Z))
    (keyCode : option (list N)) :
  ~ In KeyError (keyboardCalls mainRouting frames keyCode).1.
Proof.
  destruct keyCode as [k|]; cbn [keyboardCalls fst].
  - intros Hin. cbn in Hin. destruct Hin as [Hin|Hin]; [discriminate|].
    apply in_app_or in Hin as [Hin|Hin].
    + destruct (_ =? _)%nat; [|contradiction].
      destruct Hin as [Hin|[]]. discriminate.
    + destruct Hin as [Hin|Hin]; [discriminate|].
      apply in_map_iff in Hin as (? & [=] & _).
  - intros [Hin|[]]. discriminate.
Qed.

(** A notice among the calls is for a frame of the page other than its
    main frame, and comes with a key code. *)
Lemma keyboardCalls_notify (mainRouting : Z) (frames : list (Z * Z))
    (keyCode : option (list N)) (r p : Z) :
  In (KeyNotify r p) (keyboardCalls mainRouting frames keyCode).1
  <-> is_Some keyCode /\ In (r, p) frames /\ r <> mainRouting.
Proof.
  destruct keyCode as [k|]; cbn [keyboardCalls fst].
  - split.
    + intros Hin. split; [eauto|].
      cbn in Hin. destruct Hin as [Hin|Hin]; [discriminate|].
      apply in_app_or in Hin as [Hin|Hin].
      * destruct (_ =? _)%nat; [|contradiction].
        destruct Hin as [Hin|[]]. discriminate.
      * destruct Hin as [Hin|Hin]; [discriminate|].
        apply in_map_iff in Hin as ([r' p'] & [= -> ->] & Hf).
        apply filter_In in Hf as [Hin Hr]. split; [exact Hin|].
        cbn in Hr. now apply negb_true_iff, Z.eqb_neq in Hr.
    + intros (_ & Hin & Hr). cbn. right. apply in_or_app. right. right.
      apply in_map_iff. exists (r, p). split; [reflexivity|].
      apply filter_In. split; [exact Hin|].
      cbn. now apply negb_true_iff, Z.eqb_neq.
  - split; [|intros ([? [=]] & _)].
    intros [H|[]]. discriminate.
Qed.

(** What the handler sends on a page: the calls up to the one that
    throws, and then "main-error" when one did. *)
Lemma send_keyboard_event_prefix (mainRouting : Z) (frames : list (Z * Z))
    (keyCode : option (list N)) (broken : option nat) :
  let calls := (keyboardCalls mainRouting frames keyCode).1 in
  exists (n : nat) (thrown : bool),
    send_keyboard_event (Some (mainRouting, frames)) keyCode broken
    = (firstn n calls ++ (if thrown then [KeyError] else []))%list
    /\ (thrown = true
        <-> keyCode = None
            \/ exists b, broken = Some b /\ (b < List.length calls)%nat).
Proof.
  intros calls. unfold send_keyboard_event.
  assert (Hthrows : (keyboardCalls mainRouting frames keyCode).2 = true
                    <-> keyCode = None)
    by (destruct keyCode; cbn; split; congruence).
  destruct (keyboardCalls mainRouting frames keyCode) as [cs throws] eqn:Hk.
  cbn [fst snd] in *. subst calls.
  destruct broken as [b|].
  - destruct (b <? List.length cs)%nat eqn:Hb.
    + exists b, true. split; [reflexivity|].
      apply Nat.ltb_lt in Hb. split; [|reflexivity]. eauto.
    + exists (List.length cs), throws. rewrite firstn_all.
      split; [reflexivity|]. apply Nat.ltb_ge in Hb.
      rewrite Hthrows. split; [tauto|].
      intros [H|(b' & [= <-] & Hlt)]; [exact H|lia].
  - exists (List.length cs), throws. rewrite firstn_all.
    split; [reflexivity|]. rewrite Hthrows. split; [tauto|].
    intros [H|(b' & [=] & _)]. exact H.
Qed.

Lemma In_firstn {A : Type} (x : A) (n : nat) (l : list A) :
  In x (firstn n l) -> In x l.
Proof.
  intros Hin. rewrite <- (firstn_skipn n l). apply in_or_app. now left.
Qed.

Lemma last_occurrence {A : Type} (x : A) (l pre post : list A) :
  ~ In x l -> (pre ++ x :: post = l ++ [x])%list -> post = [].
Proof.
  revert pre. induction l as [|a l IH]; intros pre Hn H.
  - destruct pre as [|b pre]; [now injection H|].
    injection H as _ H. now destruct pre.
  - destruct pre as [|b pre].
    + injection H as <- _. exfalso. apply Hn. now left.
    + injection H as _ H. apply (IH pre); [|exact H].
      intros Hin. apply Hn. now right.
Qed.

(** Every call of the handler sends something. *)
Lemma send_keyboard_event_sends (wc : option (Z * list (Z * Z)))
    (keyCode : option (list N)) (broken : option nat) :
  send_keyboard_event wc keyCode broken <> [].
Proof.
  unfold send_keyboard_event, keyboardCalls.
  destruct wc as [[mainRouting frames]|]; [|discriminate].
  destruct keyCode, broken as [[|b]|];
    try destruct (_ <? _)%nat; cbn; discriminate.
Qed.

(** X10.  "send-keyboard-event" without a page sends "main-error" and
    nothing else.  On a page on which no call throws it hands the page a
    "keyDown" first; the "keyUp" follows exactly when the options have a
    key code, and "main-error" is sent exactly when they have none: a call
    without key code leaves the key down.  A "char" is sent exactly when
    the key code is one code unit long.  The frames notified are those
    whose routing id differs from the main frame's, whatever their
    process.  Whatever call throws, "main-error" is sent exactly when the
    key code is missing or a call threw, it is then the last message, the
    messages before it are the first of the calls, and a frame is notified
    only when it is a frame of the page other than the main frame and the
    options have a key code. *)
Theorem send_keyboard_event_shape (keyCode : option (list N))
    (broken : option nat) :
  send_keyboard_event None keyCode broken = [KeyError]
  /\ (forall mainRouting frames,
        let msgs :=
          send_keyboard_event (Some (mainRouting, frames)) keyCode None in
        (exists rest, msgs = KeyInput "keyDown" :: rest)
        /\ (In (KeyInput "keyUp") msgs <-> is_Some keyCode)
        /\ (In KeyError msgs <-> keyCode = None)
        /\ (In (KeyInput "char") msgs
            <-> exists k, keyCode = Some k /\ List.length k = 1%nat)
        /\ (forall r p,
              In (KeyNotify r p) msgs
              <-> is_Some keyCode /\ In (r, p) frames /\ r <> mainRouting))
  /\ (forall mainRouting frames,
        let msgs :=
          send_keyboard_event (Some (mainRouting, frames)) keyCode broken in
        let calls := (keyboardCalls mainRouting frames keyCode).1 in
        (In KeyError msgs
         <-> keyCode = None
             \/ exists b, broken = Some b /\ (b < List.length calls)%nat)
        /\ (forall pre post, msgs = (pre ++ KeyError :: post)%list ->
            post = [])
        /\ (exists n,
              msgs = firstn n calls
              \/ msgs = (firstn n calls ++ [KeyError])%list)
        /\ (msgs = [KeyError]
            \/ exists rest, msgs = KeyInput "keyDown" :: rest)
        /\ (forall r p,
              In (KeyNotify r p) msgs ->
              is_Some keyCode /\ In (r, p) frames /\ r <> mainRouting)).
Proof.
  split; [reflexivity|]. split.
  - intros mainRouting frames msgs.
    assert (Hmsgs : msgs
                    = ((keyboardCalls mainRouting frames keyCode).1
                       ++ (if (keyboardCalls mainRouting frames keyCode).2
                           then [KeyError] else []))%list)
      by (subst msgs; unfold send_keyboard_event;
          now destruct (keyboardCalls _ _ _)).
    pose proof (keyboardCalls_no_error mainRouting frames keyCode) as Hne.
    pose proof (keyboardCalls_notify mainRouting frames keyCode) as Hnot.
    clearbody msgs. subst msgs.
    destruct keyCode as [k|]; cbn [keyboardCalls fst snd] in *;
      rewrite ?app_nil_r.
    + split; [eexists; reflexivity|].
      split; [split; [eauto|intros _; cbn; right; apply in_or_app; right;
                            now left]|].
      split; [split; [intros Hin; now apply Hne in Hin|discriminate]|].
      split; [|exact Hnot].
      split.
      * intros Hin. exists k. split; [reflexivity|].
        cbn in Hin. destruct Hin as [Hin|Hin]; [discriminate|].
        apply in_app_or in Hin as [Hin|Hin].
        -- destruct (_ =? _)%nat eqn:Hl; [|contradiction].
           now apply Nat.eqb_eq in Hl.
        -- destruct Hin as [Hin|Hin]; [discriminate|].
           apply in_map_iff in Hin as (? & [=] & _).
      * intros (k' & [= <-] & Hl). cbn. right. apply in_or_app. left.
        rewrite Hl. now left.
    + split; [eexists; reflexivity|].
      split.
      { split; [|intros [? [=]]]. intros [H|[H|[]]]; discriminate. }
      split; [split; [reflexivity|intros _; right; now left]|].
      split.
      { split; [|intros (? & [=] & _)]. intros [H|[H|[]]]; discriminate. }
      intros r p. split; [|intros ([? [=]] & _)].
      intros [H|[H|[]]]; discriminate.
  - intros mainRouting frames msgs calls.
    destruct (send_keyboard_event_prefix mainRouting frames keyCode broken)
      as (n & thrown & Hmsgs & Hthrown).
    fold calls in Hmsgs, Hthrown. fold msgs in Hmsgs.
    pose proof (keyboardCalls_no_error mainRouting frames keyCode) as Hne.
    fold calls in Hne.
    assert (Hpre : ~ In KeyError (firstn n calls))
      by (intros Hin; apply Hne; now apply In_firstn in Hin).
    subst msgs. rewrite Hmsgs.
    split; [|split; [|split; [|split]]].
    + rewrite <- Hthrown. destruct thrown.
      * split; [reflexivity|]. intros _. apply in_or_app. right. now left.
      * rewrite app_nil_r. split; [intros Hin; now apply Hpre in Hin|].
        discriminate.
    + intros pre post H. destruct thrown.
      * symmetry in H. now apply last_occurrence in H.
      * rewrite app_nil_r in H. exfalso. apply Hpre. rewrite H.
        apply in_or_app. right. now left.
    + exists n. destruct thrown; [now right|left; apply app_nil_r].
    + assert (Hcalls : exists rest, calls = KeyInput "keyDown" :: rest)
        by (subst calls; destruct keyCode; cbn; eauto).
      destruct Hcalls as (rest & Hcalls). rewrite Hcalls.
      destruct n as [|n].
      * destruct thrown; [now left|]. cbn.
        exfalso. revert Hmsgs. cbn [firstn app].
        apply send_keyboard_event_sends.
      * right. cbn. eauto.
    + intros r p Hin. apply in_app_or in Hin as [Hin|Hin].
      * apply In_firstn in Hin.
        now apply (keyboardCalls_notify mainRouting frames keyCode).
      * destruct thrown; [|contradiction].
        destruct Hin as [Hin|[]]. discriminate.
Qed.

(** ** The two origins *)

Lemma walkParents_absEq (g1 g2 : gmap string FrameRec) :
  absEq g1 g2 ->
  forall fuel fx fy p,
    walkParents fuel g1 fx fy p = walkParents fuel g2 fx fy p.
Proof.
  intros Hg. induction fuel as [|n IH]; intros fx fy p; [reflexivity|].
  cbn [walkParents]. destruct (truthyStr p); [|reflexivity].
  destruct (g1 !! default "" p) as [r1|] eqn:H1.
  - destruct (absEq_Some _ _ _ _ Hg H1) as (r2 & -> & Hc).
    apply clearAbs_fields in Hc as (Hx & Hy & Hp & _). simpl.
    rewrite Hx, Hy, Hp. apply IH.
  - rewrite (absEq_None _ _ _ Hg H1). apply IH.
Qed.

Lemma resolveAbsolute_absEq (g1 g2 : gmap string FrameRec) (fuel : nat)
    (i : string) :
  absEq g1 g2 -> resolveAbsolute fuel g1 i = resolveAbsolute fuel g2 i.
Proof.
  intros Hg. unfold resolveAbsolute.
  destruct (g1 !! i) as [r1|] eqn:H1.
  - destruct (absEq_Some _ _ _ _ Hg H1) as (r2 & -> & Hc).
    apply clearAbs_fields in Hc as (Hx & Hy & Hp & _). simpl.
    rewrite Hx, Hy, Hp. now apply walkParents_absEq.
  - rewrite (absEq_None _ _ _ Hg H1). now apply walkParents_absEq.
Qed.

Lemma translateMouseEvent_returns (fuel : nat)
    (frameInfo : gmap string FrameRec) (allWebContents : list (string * Z))
    (frameId : string) (clickInfo : Click.t) (fx fy : Z) :
  resolveAbsolute fuel frameInfo frameId = Some (fx, fy) ->
  exists m,
    translateMouseEvent fuel frameInfo allWebContents frameId clickInfo
    = Some m
    /\ Mouse.x m = add (Click.x clickInfo) (Num fx)
    /\ Mouse.y m = add (Click.y clickInfo) (Num fy)
    /\ Mouse.xInFrame m = Click.x clickInfo
    /\ Mouse.yInFrame m = Click.y clickInfo
    /\ Mouse.frameAbsX m = fx /\ Mouse.frameAbsY m = fy.
Proof.
  unfold resolveAbsolute, translateMouseEvent. intros H.
  rewrite <- (walkOwner_origin frameInfo fuel frameId _ _ _ frameId) in H.
  destruct (walkOwner _ _ _ _ _ _ _) as [[[fx' fy'] pid]|]; [|discriminate].
  simpl in H. injection H as -> ->. eexists. split; [reflexivity|].
  now repeat split.
Qed.

(** X11.  The two walks agree right below a top-level page.  On a
    registry built by reports, when a hit-test returns a frame whose
    parent has no parent, [translateMouseEvent] for that frame, on the
    registry the hit-test left, returns an event whose [frameAbsX] and
    [frameAbsY] are the origin the hit-test stored in the record of the
    frame; its [x] and [y] are the local point with that origin added, and
    the local point is kept in [xInFrame] and [yInFrame]. *)
Theorem hit_translate_same_origin (fuel n : nat)
    (frameInfo : gmap string FrameRec) (frames : list string)
    (qx qy : jsval) (fi : gmap string FrameRec) (r : FrameRec)
    (allWebContents : list (string * Z)) (clickInfo : Click.t) :
  reachable frameInfo ->
  findRelevantSubFrame fuel frameInfo frames qx qy = Some (fi, Some r) ->
  truthyStr
    (Frame.optStr Frame.parent (fi !! default "" (Frame.parent r))) = false ->
  exists i m,
    Frame.id r = Some i
    /\ In i frames /\ fi !! i = Some r
    /\ translateMouseEvent (S n) fi allWebContents i clickInfo = Some m
    /\ Frame.absX r = Num (Mouse.frameAbsX m)
    /\ Frame.absY r = Num (Mouse.frameAbsY m)
    /\ Mouse.x m = add (Click.x clickInfo) (Frame.absX r)
    /\ Mouse.y m = add (Click.y clickInfo) (Frame.absY r)
    /\ Mouse.xInFrame m = Click.x clickInfo
    /\ Mouse.yInFrame m = Click.y clickInfo.
Proof.
  intros Hreach Hhit Htop.
  pose proof (reach_hit _ _ _ _ _ _ _ Hreach Hhit) as Hreach'.
  pose proof (reachable_wellFormed_aux _ Hreach') as Hwf.
  destruct (hit_frame_found _ _ _ _ _ _ _ Hreach Hhit)
    as (i & Hin & Hi & _).
  destruct (Hwf _ _ Hi) as (Hid & _ & Hpar).
  destruct (findRelevantSubFrame_enumerated _ _ _ _ _ _ _ Hhit)
    as (_ & _ & _ & Hp & _).
  destruct (Frame.parent r) as [k|] eqn:Hk; [|discriminate].
  destruct Hpar as (Hkne & _ & [p Hp'] & x & y & _ & _ & Hx & Hy & _).
  simpl in Htop. rewrite Hp' in Htop. simpl in Htop.
  (* the stored origin is the resolver's *)
  assert (Hst : fi = absStore frameInfo frames)
    by (apply findRelevantSubFrame_Some in Hhit as (_ & -> & _); reflexivity).
  assert (Habs : Frame.absX r = Num (x + or0 (Frame.x p))
                 /\ Frame.absY r = Num (y + or0 (Frame.y p))).
  { pose proof Hi as Hi'. rewrite Hst, absStore_lookup in Hi'.
    destruct (frameInfo !! i) as [r0|] eqn:H0; [|discriminate].
    simpl in Hi'. injection Hi' as Hi'.
    assert (Hpr : Frame.parent r0 = Some k).
    { rewrite <- Hk. destruct (enumerated frames i r0); now subst r. }
    assert (He : enumerated frames i r0 = true).
    { unfold enumerated. rewrite bool_decide_eq_true_2
        by now apply list_elem_of_In.
      now rewrite Hpr, (truthyStr_key k Hkne). }
    rewrite He in Hi'.
    assert (Hh : hitOrigin fi r = hitOrigin frameInfo r0).
    { apply hitOrigin_absEq; [rewrite Hst; apply absStore_absEq|].
      now rewrite <- Hi'. }
    assert (Hr : (Frame.absX r, Frame.absY r) = hitOrigin fi r)
      by (rewrite Hh, <- Hi'; unfold absolutized; simpl;
          now destruct (hitOrigin frameInfo r0)).
    unfold hitOrigin in Hr. rewrite Hk in Hr. simpl in Hr.
    rewrite Hp', Hx, Hy, !or0_or in Hr. simpl in Hr.
    injection Hr as -> ->. now split. }
  destruct Habs as [Hax Hay].
  assert (Hres : resolveAbsolute (S n) fi i
                 = Some (x + or0 (Frame.x p), y + or0 (Frame.y p))).
  { unfold resolveAbsolute. rewrite Hi.
    cbn [Frame.optNum Frame.optStr]. rewrite Hk, Hx, Hy.
    cbn [walkParents or0]. rewrite (truthyStr_key k Hkne).
    simpl default. rewrite Hp'. cbn [Frame.optNum Frame.optStr].
    destruct n; cbn [walkParents]; now rewrite Htop. }
  destruct (translateMouseEvent_returns (S n) fi allWebContents i clickInfo
              _ _ Hres) as (m & Hm & Hmx & Hmy & Hxf & Hyf & Hfx & Hfy).
  exists i, m. rewrite Hax, Hay, Hfx, Hfy, Hmx, Hmy.
  now repeat split.
Qed.

Lemma hit_translate_same_origin_witness :
  exists m,
    findRelevantSubFrame 1 described liveFrames (Num 120) (Num 70)
    = Some (absStore described liveFrames,
            Some (setAbs childRec (Num 100) (Num 50)))
    /\ translateMouseEvent 1 (absStore described liveFrames) [("1-1", 7)]
         "2-1" dragInChild = Some m
    /\ Mouse.frameAbsX m = 100 /\ Mouse.frameAbsY m = 50
    /\ Mouse.x m = add (Click.x dragInChild) (Num 100)
    /\ Mouse.y m = add (Click.y dragInChild) (Num 50).
Proof.
  assert (Hhit : findRelevantSubFrame 1 described liveFrames (Num 120)
                   (Num 70)
                 = Some (absStore described liveFrames,
                         Some (setAbs childRec (Num 100) (Num 50))))
    by (vm_compute; reflexivity).
  destruct (hit_translate_same_origin 1 0 described liveFrames (Num 120)
              (Num 70) (absStore described liveFrames)
              (setAbs childRec (Num 100) (Num 50)) [("1-1", 7)] dragInChild
              described_reachable Hhit)
    as (i & m & Hi & _ & _ & Hm & Hax & Hay & Hx & Hy & _);
    [vm_compute; reflexivity|].
  injection Hi as <-. injection Hax as Hax. injection Hay as Hay.
  exists m. split; [exact Hhit|]. split; [exact Hm|].
  split; [now symmetry|]. split; [now symmetry|]. split; assumption.
Defined.

(** ** Follow-mode sessions *)

Lemma linksOf_app (B : string) (l1 l2 : list Link.t) :
  linksOf B (l1 ++ l2)%list = (linksOf B l1 ++ linksOf B l2)%list.
Proof. apply List.filter_app. Qed.

Lemma linksOf_same (B : string) (l : list Link.t) :
  Forall (fun e => Link.frameId e = B) l -> linksOf B l = l.
Proof.
  induction 1 as [|e l He _ IH]; [reflexivity|].
  unfold linksOf in *. simpl. rewrite bool_decide_eq_true_2 by exact He.
  now rewrite IH.
Qed.

Lemma linksOf_other (A B : string) (l : list Link.t) :
  A <> B -> Forall (fun e => Link.frameId e = A) l -> linksOf B l = [].
Proof.
  intros HAB. induction 1 as [|e l He _ IH]; [reflexivity|].
  unfold linksOf in *. simpl.
  rewrite bool_decide_eq_false_2 by congruence. exact IH.
Qed.

Lemma linksOf_stillLive (allFramesIds : list string) (A B : string)
    (l : list Link.t) :
  linksOf B (List.filter (stillLive allFramesIds A) l)
  = if bool_decide (B <> A) && bool_decide (B ∈ allFramesIds)
    then linksOf B l else [].
Proof.
  induction l as [|e l IH]; [now destruct (_ && _)|].
  unfold linksOf, stillLive in *. cbn [List.filter].
  destruct (decide (Link.frameId e = A)) as [HA|HA];
    destruct (decide (Link.frameId e ∈ allFramesIds)) as [HL|HL];
    destruct (decide (Link.frameId e = B)) as [HB|HB];
    rewrite ?(bool_decide_eq_true_2 _ HA), ?(bool_decide_eq_false_2 _ HA),
      ?(bool_decide_eq_true_2 _ HL), ?(bool_decide_eq_false_2 _ HL);
    cbn [negb andb List.filter];
    rewrite ?(bool_decide_eq_true_2 _ HB), ?(bool_decide_eq_false_2 _ HB),
      IH;
    try reflexivity; subst B.
  - rewrite (bool_decide_eq_false_2 (Link.frameId e <> A)) by tauto.
    reflexivity.
  - rewrite (bool_decide_eq_false_2 (Link.frameId e <> A)) by tauto.
    reflexivity.
  - rewrite (bool_decide_eq_true_2 (Link.frameId e <> A)) by exact HA.
    rewrite (bool_decide_eq_true_2 _ HL). reflexivity.
  - rewrite (bool_decide_eq_false_2 _ HL). now rewrite andb_false_r.
Qed.

(** The entries of each frame after one report. *)
Lemma follow_response_linksOf (fuel : nat)
    (frameInfo : gmap string FrameRec) (allFramesIds : list string)
    (A : string) (rawLinks : list RawLink.t) (allLinks all' : list Link.t)
    (B : string) :
  follow_response fuel frameInfo allFramesIds A rawLinks allLinks
  = Some all' ->
  (B = A -> Some (linksOf B all') = frameLinks fuel frameInfo A rawLinks)
  /\ (B <> A -> B ∈ allFramesIds -> linksOf B all' = linksOf B allLinks)
  /\ (B <> A -> B ∉ allFramesIds -> linksOf B all' = []).
Proof.
  unfold follow_response.
  destruct (frameLinks fuel frameInfo A rawLinks) as [batch|] eqn:Hb;
    [|discriminate].
  intros [= <-]. rewrite linksOf_app, linksOf_stillLive.
  pose proof (frameLinks_frameId _ _ _ _ _ Hb) as Hall.
  split; [|split].
  - intros ->. rewrite (bool_decide_eq_false_2 (A <> A)) by tauto.
    simpl. now rewrite (linksOf_same A batch).
  - intros HBA Hin. rewrite !bool_decide_eq_true_2 by assumption. simpl.
    rewrite (linksOf_other A B batch) by (assumption || (intros ->; tauto)).
    apply app_nil_r.
  - intros HBA Hin. rewrite (bool_decide_eq_false_2 (B ∈ _)) by assumption.
    rewrite andb_false_r. simpl.
    apply (linksOf_other A B); [intros ->; tauto|assumption].
Qed.

(** X12.  A report of the frame [A] leaves the entries of every other
    frame that is still in the page as they were, in their order, and
    removes every entry of a frame that is not in the page any more; a
    frame that reports without being in the page has its batch in the
    list all the same. *)
Theorem follow_response_others (fuel : nat)
    (frameInfo : gmap string FrameRec) (allFramesIds : list string)
    (A : string) (rawLinks : list RawLink.t) (allLinks all' : list Link.t) :
  follow_response fuel frameInfo allFramesIds A rawLinks allLinks
  = Some all' ->
  Some (linksOf A all') = frameLinks fuel frameInfo A rawLinks
  /\ forall B, B <> A ->
       linksOf B all'
       = if bool_decide (B ∈ allFramesIds) then linksOf B allLinks else [].
Proof.
  intros H. split.
  - now apply (follow_response_linksOf _ _ _ _ _ _ _ A H).
  - intros B HBA.
    destruct (follow_response_linksOf _ _ _ _ _ _ _ B H) as (_ & Hin & Hout).
    case_bool_decide; auto.
Qed.

Lemma follow_response_others_witness :
  linksOf "1-1" afterFirst = linksOf "1-1" afterRoot
  /\ linksOf "3-1" afterFirst = [].
Proof.
  assert (H : follow_response 1 described liveFrames "2-1" twoLinks afterRoot
              = Some afterFirst) by (vm_compute; reflexivity).
  destruct (follow_response_others _ _ _ _ _ _ _ H) as [_ Hothers].
  split.
  - apply (Hothers "1-1"). discriminate.
  - apply (Hothers "3-1"). discriminate.
Defined.

Lemma linksAfter_inv (fuel : nat) (B : string) (evs : list linkEvent) :
  forall (allLinks : list Link.t) (acc : option (list Link.t))
         (all' : list Link.t),
    linksOf B allLinks = [] \/ acc = Some (linksOf B allLinks) ->
    linksAfter fuel evs allLinks = Some all' ->
    linksOf B all' = []
    \/ lastReport fuel evs B acc = Some (linksOf B all').
Proof.
  induction evs as [|ev evs IH]; intros allLinks acc all' Hinv Hrun.
  - injection Hrun as <-. exact Hinv.
  - simpl in Hrun.
    destruct (linkStep fuel ev allLinks) as [all1|] eqn:Hstep;
      [|discriminate].
    destruct ev as [frames flt switchTo|frameInfo live A raw]; simpl in *.
    + injection Hstep as <-. apply (IH _ _ _ ) with (2 := Hrun).
      destruct frames as [fs|]; [|exact Hinv].
      destruct switchTo; [now left|exact Hinv].
    + apply (IH _ _ _) with (2 := Hrun).
      destruct (follow_response_linksOf _ _ _ _ _ _ _ B Hstep)
        as (Hsame & Hin & Hout).
      case_bool_decide as HAB.
      * right. symmetry. now apply Hsame.
      * destruct (decide (B ∈ live)) as [Hl|Hl].
        -- rewrite (Hin ltac:(congruence) Hl). exact Hinv.
        -- left. apply Hout; congruence.
Qed.

(** X13.  In every run of "follow-mode-start" and "follow-response" calls
    from the empty list the program starts with, the entries of a frame in
    [allLinks] are either none or exactly the batch of the latest report
    of that frame: links of two reports of one frame are never in the list
    together, whatever happens to the registry and to the page between
    the calls. *)
Theorem linksAfter_latest_report (fuel : nat) (evs : list linkEvent)
    (all' : list Link.t) (B : string) :
  linksAfter fuel evs [] = Some all' ->
  linksOf B all' = []
  \/ lastReport fuel evs B None = Some (linksOf B all').
Proof. apply linksAfter_inv. now left. Qed.

Lemma linksAfter_latest_report_witness :
  exists all',
    linksAfter 1 session [] = Some all'
    /\ linksOf "2-1" all' = []
    /\ Some (linksOf "1-1" all')
       = frameLinks 1 described "1-1" [RawLink.mk 31 41 "home"].
Proof.
  destruct (linksAfter 1 session []) as [all'|] eqn:Hrun;
    [|vm_compute in Hrun; discriminate].
  exists all'. split; [reflexivity|].
  split.
  - vm_compute in Hrun. injection Hrun as <-. vm_compute. reflexivity.
  - destruct (linksAfter_latest_report 1 session all' "1-1" Hrun)
      as [Hnone|Hlast].
    + vm_compute in Hrun. injection Hrun as <-. vm_compute in Hnone.
      discriminate.
    + symmetry. exact Hlast.
Defined.

(** ** The save name of a download *)

Lemma append_String (c : ascii) (a b : string) :
  String c a +:+ b = String c (a +:+ b).
Proof. reflexivity. Qed.

Lemma append_empty_l (b : string) : "" +:+ b = b.
Proof. reflexivity. Qed.

Lemma append_empty_r (a : string) : a +:+ "" = a.
Proof. induction a as [|c a IH]; [reflexivity|]. now rewrite append_String, IH. Qed.

Lemma append_assoc (a b c : string) : (a +:+ b) +:+ c = a +:+ (b +:+ c).
Proof.
  induction a as [|x a IH]; [reflexivity|].
  now rewrite !append_String, IH.
Qed.

Lemma append_length (a b : string) :
  String.length (a +:+ b) = (String.length a + String.length b)%nat.
Proof.
  induction a as [|x a IH]; [reflexivity|].
  rewrite append_String. simpl. now rewrite IH.
Qed.

Lemma append_inv_head (a b c : string) : a +:+ b = a +:+ c -> b = c.
Proof.
  induction a as [|x a IH]; [trivial|].
  rewrite !append_String. intros [= H]. now apply IH.
Qed.

Lemma append_inv_tail (c a b : string) : a +:+ c = b +:+ c -> a = b.
Proof.
  revert b. induction a as [|x a IH]; intros [|y b] H.
  - reflexivity.
  - exfalso. apply (f_equal String.length) in H.
    rewrite !append_length in H. simpl in H. lia.
  - exfalso. apply (f_equal String.length) in H.
    rewrite !append_length in H. simpl in H. lia.
  - rewrite !append_String in H. injection H as -> H.
    now rewrite (IH b H).
Qed.

Lemma substring_0_append (a b : string) :
  substring 0 (String.length a) (a +:+ b) = a.
Proof.
  induction a as [|x a IH]; [now destruct b|].
  rewrite append_String. simpl. now rewrite IH.
Qed.

Lemma substring_all (s : string) : substring 0 (String.length s) s = s.
Proof. induction s as [|x s IH]; [reflexivity|]. simpl. now rewrite IH. Qed.

Lemma substring_skip_append (a b : string) :
  substring (String.length a) (String.length b) (a +:+ b) = b.
Proof.
  induction a as [|x a IH]; [apply substring_all|].
  rewrite append_String. simpl. exact IH.
Qed.

Lemma prefix_append (pat b : string) :
  String.prefix pat b = true -> exists b', b = pat +:+ b'.
Proof.
  revert b. induction pat as [|x pat IH]; intros b H.
  - now exists b.
  - destruct b as [|y b]; [discriminate|]. simpl in H.
    destruct (Ascii.ascii_dec x y) as [<-|]; [|discriminate].
    destruct (IH b H) as [b' ->]. now exists b'.
Qed.

Lemma prefix_append_true (pat b : string) :
  String.prefix pat (pat +:+ b) = true.
Proof.
  induction pat as [|x pat IH]; [now destruct b|].
  rewrite append_String. simpl.
  destruct (Ascii.ascii_dec x x); [exact IH|congruence].
Qed.

(** What [lastIndexOf] finds is an occurrence, and the last one. *)
Lemma lastIndexFrom_Some (pat : string) (s : string) :
  forall i acc j,
    lastIndexFrom pat s i acc = Some j ->
    (acc = Some j /\ forall a b, s = a +:+ b -> String.prefix pat b = false)
    \/ exists a b,
         s = a +:+ b /\ (String.length a + i)%nat = j
         /\ String.prefix pat b = true
         /\ forall a' b', s = a' +:+ b' -> String.prefix pat b' = true ->
              (String.length a' <= String.length a)%nat.
Proof.
  induction s as [|c s IH]; intros i acc j H.
  - cbn [lastIndexFrom] in H.
    destruct (String.prefix pat "") eqn:Hp.
    + right. injection H as <-. exists "", "". repeat split; trivial.
      intros [|x a'] b' Hs _; [simpl; lia|discriminate].
    + left. split; [exact H|].
      intros [|x a] b Hs; [|discriminate]. rewrite append_empty_l in Hs. now subst b.
  - cbn [lastIndexFrom] in H. apply IH in H.
    destruct H as [[Hacc Hnone]|(a & b & -> & Hlen & Hp & Hlast)].
    + destruct (String.prefix pat (String c s)) eqn:Hp.
      * right. injection Hacc as <-. exists "", (String c s).
        repeat split; trivial.
        intros [|x a'] b' Hs Hb'; [simpl; lia|].
        rewrite append_String in Hs. injection Hs as <- Hs.
        now rewrite (Hnone a' b' Hs) in Hb'.
      * left. split; [exact Hacc|].
        intros [|x a] b Hs.
        -- rewrite append_empty_l in Hs. now subst b.
        -- rewrite append_String in Hs. injection Hs as <- Hs.
           now apply (Hnone a b).
    + right. exists (String c a), b. rewrite append_String.
      split; [reflexivity|]. split; [simpl; lia|]. split; [exact Hp|].
      intros [|x a'] b' Hs Hb'; [simpl; lia|].
      rewrite append_String in Hs. injection Hs as <- Hs.
      simpl. apply le_n_S. now apply (Hlast a' b').
Qed.

Lemma lastIndexOf_Some (pat s : string) (j : nat) :
  lastIndexOf pat s = Some j ->
  exists a b,
    s = a +:+ pat +:+ b /\ String.length a = j
    /\ forall a' b', s = a' +:+ pat +:+ b' ->
         (String.length a' <= String.length a)%nat.
Proof.
  intros H. apply lastIndexFrom_Some in H.
  destruct H as [[[=] _]|(a & b & -> & Hlen & Hp & Hlast)].
  apply prefix_append in Hp as [b' ->].
  exists a, b'. split; [reflexivity|]. split; [lia|].
  intros a' b'' Hs. apply (Hlast a' _ Hs), prefix_append_true.
Qed.

Lemma lastIndexFrom_acc (pat : string) (s : string) :
  forall i k, lastIndexFrom pat s i (Some k) <> None.
Proof.
  induction s as [|c s IH]; intros i k; cbn [lastIndexFrom].
  - now destruct (String.prefix pat "").
  - destruct (String.prefix pat (String c s)); apply IH.
Qed.

Lemma lastIndexFrom_None (pat : string) (s : string) :
  forall i, lastIndexFrom pat s i None = None ->
    forall a b, s = a +:+ b -> String.prefix pat b = false.
Proof.
  induction s as [|c s IH]; intros i H a b Hs; cbn [lastIndexFrom] in H.
  - destruct a; [|discriminate]. rewrite append_empty_l in Hs. subst b.
    now destruct (String.prefix pat "").
  - destruct (String.prefix pat (String c s)) eqn:Hp;
      [now apply lastIndexFrom_acc in H|].
    destruct a as [|x a].
    + rewrite append_empty_l in Hs. now subst b.
    + rewrite append_String in Hs. injection Hs as <- Hs.
      now apply (IH (S i) H a b).
Qed.

Lemma lastIndexOf_None (pat s : string) :
  lastIndexOf pat s = None -> ~ occurs pat s.
Proof.
  intros H (a & b & Hs).
  pose proof (lastIndexFrom_None pat s 0 H a (pat +:+ b) Hs) as Hp.
  now rewrite prefix_append_true in Hp.
Qed.

Lemma substring_after (a : string) (c : ascii) (r : string) :
  substring (String.length a + 1)
    (String.length (a +:+ String c r) - (String.length a + 1))
    (a +:+ String c r) = r.
Proof.
  induction a as [|x a IH].
  - rewrite append_empty_l. cbn [String.length Nat.add substring].
    rewrite Nat.sub_succ, Nat.sub_0_r. apply substring_all.
  - rewrite append_String. cbn [String.length Nat.add substring].
    rewrite Nat.sub_succ. exact IH.
Qed.

(** Where the number goes: before the last [pat] of [filename]. *)
Lemma numbered_at (filename pat : string) (c : ascii) (pat' : string)
    (n : N) (i : nat) :
  pat = String c pat' -> c = "."%char ->
  extStart filename = Some i -> lastIndexOf pat filename = Some i ->
  exists stem b,
    filename = stem +:+ pat +:+ b
    /\ numbered filename n
       = stem +:+ " (" +:+ pretty n +:+ ")" +:+ pat +:+ b
    /\ forall a' b', pat +:+ b = a' +:+ pat +:+ b' -> a' = "".
Proof.
  intros -> -> He Hl. apply lastIndexOf_Some in Hl
    as (a & b & Hs & Hlen & Hlast).
  exists a, b. split; [exact Hs|]. split.
  - unfold numbered. rewrite He, <- Hlen, Hs, substring_0_append.
    change (a +:+ String "."%char pat' +:+ b)
      with (a +:+ String "."%char (pat' +:+ b)).
    rewrite substring_after. reflexivity.
  - intros a' b' Hext.
    assert (Hle : (String.length (a +:+ a') <= String.length a)%nat).
    { apply (Hlast _ b'). rewrite Hs, Hext. now rewrite append_assoc. }
    rewrite append_length in Hle. destruct a'; [reflexivity|simpl in Hle; lia].
Qed.

(** X14.  The name tried for a file that exists already is the name of
    the download with " (n)" put in, and nothing else changed: at the end
    when the name has no dot; before the last ".tar." when it has one;
    before the last dot otherwise. *)
Theorem numbered_shape (filename : string) (n : N) :
  exists stem ext,
    filename = stem +:+ ext
    /\ numbered filename n = stem +:+ " (" +:+ pretty n +:+ ")" +:+ ext
    /\ ((~ occurs "." filename /\ ext = "")
        \/ exists pat,
             (pat = ".tar." \/ pat = "." /\ ~ occurs ".tar." filename)
             /\ (exists b, ext = pat +:+ b)
             /\ forall a' b', ext = a' +:+ pat +:+ b' -> a' = "").
Proof.
  destruct (lastIndexOf ".tar." filename) as [i|] eqn:Htar.
  - destruct (numbered_at filename ".tar." "." "tar." n i eq_refl eq_refl)
      as (stem & b & Hs & Hn & Hlast);
      [unfold extStart; now rewrite Htar|exact Htar|].
    exists stem, (".tar." +:+ b). split; [exact Hs|]. split; [exact Hn|].
    right. exists ".tar.". split; [now left|]. split; [now exists b|].
    exact Hlast.
  - apply lastIndexOf_None in Htar as Hnotar.
    destruct (lastIndexOf "." filename) as [i|] eqn:Hdot.
    + destruct (numbered_at filename "." "." "" n i eq_refl eq_refl)
        as (stem & b & Hs & Hn & Hlast);
        [unfold extStart; now rewrite Htar|exact Hdot|].
      exists stem, ("." +:+ b). split; [exact Hs|]. split; [exact Hn|].
      right. exists ".". split; [now right|]. split; [now exists b|].
      exact Hlast.
    + exists filename, "". rewrite !append_empty_r. split; [reflexivity|].
      split.
      * unfold numbered, extStart. now rewrite Htar, Hdot.
      * left. split; [now apply lastIndexOf_None|reflexivity].
Qed.

Lemma numbered_split (filename : string) :
  exists stem ext,
    filename = stem +:+ ext
    /\ forall n,
         numbered filename n = stem +:+ " (" +:+ pretty n +:+ ")" +:+ ext.
Proof.
  unfold numbered. destruct (extStart filename) as [i|] eqn:He.
  - unfold extStart in He.
    destruct (lastIndexOf ".tar." filename) as [j|] eqn:Htar.
    + injection He as ->. apply lastIndexOf_Some in Htar
        as (a & b & Hs & Hlen & _).
      exists a, (".tar." +:+ b). split; [exact Hs|]. intros n.
      rewrite <- Hlen, Hs, substring_0_append.
      change (a +:+ ".tar." +:+ b) with (a +:+ String "."%char ("tar." +:+ b)).
      now rewrite substring_after.
    + apply lastIndexOf_Some in He as (a & b & Hs & Hlen & _).
      exists a, ("." +:+ b). split; [exact Hs|]. intros n.
      rewrite <- Hlen, Hs, substring_0_append.
      change (a +:+ "." +:+ b) with (a +:+ String "."%char b).
      now rewrite substring_after.
  - exists filename, "". rewrite append_empty_r. split; [reflexivity|].
    intros n. now rewrite append_empty_r.
Qed.

Lemma candidate_inj (filename : string) (n m : N) :
  candidate filename n = candidate filename m -> n = m.
Proof.
  destruct (numbered_split filename) as (stem & ext & Hs & Hn).
  assert (Hlonger : forall k, numbered filename k <> filename).
  { intros k Hk. rewrite Hn in Hk. rewrite Hs in Hk.
    apply (f_equal String.length) in Hk.
    rewrite !append_length in Hk. simpl in Hk. lia. }
  unfold candidate.
  destruct (N.eqb_spec n 0) as [->|Hn0], (N.eqb_spec m 0) as [->|Hm0];
    intros H; trivial.
  - symmetry in H. now apply Hlonger in H.
  - now apply Hlonger in H.
  - rewrite !Hn in H. apply (append_inv_head stem) in H.
    apply (append_inv_head " (") in H.
    apply (append_inv_tail (")" +:+ ext)) in H.
    now apply pretty_N_inj in H.
Qed.

Section SaveNameFacts.

Variable isFile : string -> bool.
Variable joinPath : string -> string -> string.
Variable downloadpath : string.

#[local] Abbreviation probe n f :=
  (isFile (joinPath downloadpath (candidate f n))).

Lemma saveLoop_inv (fuel : nat) (filename : string) :
  forall d n name save,
    saveLoop isFile joinPath downloadpath fuel filename d
      (candidate filename d) (joinPath downloadpath (candidate filename d))
    = Some (n, name, save) ->
    (d <= n)%N /\ name = candidate filename n
    /\ save = joinPath downloadpath name /\ isFile save = false
    /\ forall k, (d <= k < n)%N -> probe k filename = true.
Proof.
  induction fuel as [|fuel IH]; intros d n name save H; cbn [saveLoop] in H.
  - destruct (probe d filename) eqn:Hp; [discriminate|].
    injection H as <- <- <-. repeat split; trivial; lia.
  - destruct (probe d filename) eqn:Hp.
    + replace (numbered filename (d + 1))
        with (candidate filename (d + 1)) in H
        by (unfold candidate; now destruct (N.eqb_spec (d + 1) 0); [lia|]).
      apply IH in H as (Hle & Hname & Hsave & Hfree & Hall).
      split; [lia|]. repeat split; trivial.
      intros k Hk. destruct (N.eq_dec k d) as [->|Hne]; [exact Hp|].
      apply Hall. lia.
    + injection H as <- <- <-. repeat split; trivial; lia.
Qed.

Lemma saveLoop_returns (fuel : nat) (filename : string) :
  forall d,
    probe (d + N.of_nat fuel) filename = false ->
    is_Some (saveLoop isFile joinPath downloadpath fuel filename d
               (candidate filename d)
               (joinPath downloadpath (candidate filename d))).
Proof.
  induction fuel as [|fuel IH]; intros d H; cbn [saveLoop].
  - rewrite N.add_0_r in H. rewrite H. eauto.
  - destruct (probe d filename) eqn:Hp; [|eauto].
    replace (numbered filename (d + 1))
      with (candidate filename (d + 1))
      by (unfold candidate; now destruct (N.eqb_spec (d + 1) 0); [lia|]).
    apply IH. rewrite <- H. do 3 f_equal. lia.
Qed.

(** X15.  When the loop is left, the name chosen is the first free one:
    it is the name of the download itself or the numbered name of
    [duplicateNumber], no file exists under it, and a file exists under
    the plain name and under every numbered name before it. *)
Theorem saveName_first_free (fuel : nat) (filename : string) (n : N)
    (name save : string) :
  saveName isFile joinPath downloadpath fuel filename
  = Some (n, name, save) ->
  name = candidate filename n
  /\ save = joinPath downloadpath name
  /\ isFile save = false
  /\ forall k, (k < n)%N -> probe k filename = true.
Proof.
  intros H. apply (saveLoop_inv fuel filename 0) in H
    as (_ & Hname & Hsave & Hfree & Hall).
  repeat split; trivial. intros k Hk. apply Hall. lia.
Qed.

(** X16.  The loop ends in a folder of finitely many files: if every
    existing file is one of [files] and [joinPath] sends different names
    to different paths, the loop is left after at most [length files]
    rounds. *)
Theorem saveName_terminates (files : list string) (filename : string) :
  (forall p, isFile p = true -> In p files) ->
  (forall a b, joinPath downloadpath a = joinPath downloadpath b -> a = b) ->
  exists n name save,
    saveName isFile joinPath downloadpath (List.length files) filename
    = Some (n, name, save)
    /\ (n <= N.of_nat (List.length files))%N.
Proof.
  intros Hfiles Hinj.
  set (tries := map (fun k => joinPath downloadpath
                                (candidate filename (N.of_nat k)))
                  (seq 0 (S (List.length files)))).
  assert (Hnd : List.NoDup tries).
  { apply Finite.Injective_map_NoDup; [|apply seq_NoDup].
    intros a b Hab. apply Hinj, candidate_inj in Hab. lia. }
  assert (Hfree : exists k, (k <= List.length files)%nat
                            /\ probe (N.of_nat k) filename = false).
  { destruct (forallb isFile tries) eqn:Hall.
    - exfalso. rewrite forallb_forall in Hall.
      assert (Hincl : incl tries files)
        by (intros p Hp; apply Hfiles, Hall, Hp).
      apply NoDup_incl_length in Hincl; [|exact Hnd].
      unfold tries in Hincl. rewrite length_map, length_seq in Hincl. lia.
    - assert (Hex : existsb (fun p => negb (isFile p)) tries = true).
      { clear -Hall. induction tries as [|p l IH]; [discriminate|].
        simpl in *. destruct (isFile p); [now apply IH|reflexivity]. }
      apply existsb_exists in Hex as (p & Hp & Hneg).
      apply in_map_iff in Hp as (k & <- & Hk). apply in_seq in Hk.
      exists k. split; [lia|]. now apply negb_true_iff. }
  destruct Hfree as (k & Hk & Hp).
  assert (Hsome : is_Some (saveName isFile joinPath downloadpath
                             (List.length files) filename)).
  { unfold saveName.
    assert (Hmore : forall fuel extra d,
               is_Some (saveLoop isFile joinPath downloadpath fuel filename d
                          (candidate filename d)
                          (joinPath downloadpath (candidate filename d))) ->
               is_Some (saveLoop isFile joinPath downloadpath (fuel + extra)
                          filename d (candidate filename d)
                          (joinPath downloadpath (candidate filename d)))).
    { induction fuel as [|fuel IH]; intros extra d [r Hr];
        cbn [saveLoop] in Hr.
      - destruct extra; cbn [Nat.add saveLoop];
          destruct (probe d filename); try discriminate; eauto.
      - cbn [Nat.add saveLoop]. destruct (probe d filename); [|eauto].
        replace (numbered filename (d + 1))
          with (candidate filename (d + 1)) in *
          by (unfold candidate; now destruct (N.eqb_spec (d + 1) 0); [lia|]).
        apply IH. eauto. }
    replace (List.length files) with (k + (List.length files - k))%nat by lia.
    apply (Hmore k _ 0%N). apply saveLoop_returns. exact Hp. }
  destruct Hsome as [[[n name] save] Hrun]. exists n, name, save.
  split; [exact Hrun|].
  apply (saveLoop_inv _ filename 0) in Hrun as (_ & _ & _ & Hfree & Hall).
  destruct (N.le_gt_cases n (N.of_nat (List.length files))) as [|Hgt];
    [assumption|exfalso].
  rewrite (Hall (N.of_nat k)) in Hp by lia. discriminate.
Qed.

End SaveNameFacts.

Lemma numbered_notes :
  numbered "notes.tar.gz" 2 = "notes (2).tar.gz"
  /\ numbered "a.b.txt" 1 = "a.b (1).txt"
  /\ numbered "README" 1 = "README (1)"
  /\ numbered ".profile" 3 = " (3).profile".
Proof. repeat split; vm_compute; reflexivity. Qed.

Lemma saveName_first_free_witness :
  saveName inFolder joinSlash "/dl" 2 "notes.tar.gz"
  = Some (2%N, "notes (2).tar.gz", "/dl/notes (2).tar.gz")
  /\ inFolder "/dl/notes (2).tar.gz" = false
  /\ inFolder "/dl/notes (1).tar.gz" = true.
Proof.
  assert (H : saveName inFolder joinSlash "/dl" 2 "notes.tar.gz"
              = Some (2%N, "notes (2).tar.gz", "/dl/notes (2).tar.gz"))
    by (vm_compute; reflexivity).
  destruct (saveName_first_free inFolder joinSlash "/dl" _ _ _ _ _ H)
    as (_ & _ & Hfree & Hall).
  split; [exact H|]. split; [exact Hfree|].
  apply (Hall 1%N). reflexivity.
Defined.

Lemma saveName_terminates_witness :
  exists n name save,
    saveName inFolder joinSlash "/dl" 2 "notes.tar.gz" = Some (n, name, save)
    /\ (n <= 2)%N.
Proof.
  apply (saveName_terminates inFolder joinSlash "/dl"
           ["/dl/notes.tar.gz"; "/dl/notes (1).tar.gz"] "notes.tar.gz").
  - intros p Hp. apply list_elem_of_In.
    unfold inFolder in Hp. now apply bool_decide_eq_true_1 in Hp.
  - intros a b Hab. unfold joinSlash in Hab.
    apply (append_inv_head "/dl") in Hab.
    now apply (append_inv_head "/") in Hab.
Defined.

(** ** Requests on the list of downloads *)

Lemma entryAt_Some (downloads : list Download.t) (downloadId : option Z)
    (d : Download.t) :
  entryAt downloads downloadId = Some d ->
  exists k,
    downloadId = Some (Z.of_nat k) /\ downloads !! k = Some d
    /\ (k < List.length downloads)%nat
    /\ spliceStart (List.length downloads) downloadId = k.
Proof.
  destruct downloadId as [z|]; [|discriminate]. cbn [entryAt].
  destruct (Z.ltb_spec z 0) as [|Hz]; [discriminate|]. intros Hd.
  exists (Z.to_nat z). rewrite Z2Nat.id by exact Hz.
  pose proof (lookup_lt_Some _ _ _ Hd) as Hlt.
  repeat split; trivial. unfold spliceStart.
  destruct (Z.ltb_spec z 0); [lia|]. f_equal. lia.
Qed.

Lemma splice1_delete (downloads : list Download.t) (downloadId : option Z) :
  splice1 downloads downloadId
  = delete (spliceStart (List.length downloads) downloadId) downloads.
Proof. unfold splice1. now rewrite delete_take_drop. Qed.

Lemma tryItem_cancel (d : option Download.t) (i : Z) :
  In (ItemCancel i) (tryItem ItemCancel d)
  <-> exists e, d = Some e /\ Download.destroyed e = false
                /\ Download.item e = i.
Proof.
  destruct d as [e|]; cbn [tryItem].
  - destruct (Download.destroyed e) eqn:He; split.
    + intros [].
    + intros (? & [= <-] & Hd & _). congruence.
    + intros [[= <-]|[]]. now exists e.
    + intros (? & [= <-] & _ & <-). now left.
  - split; [intros []|intros (? & [=] & _)].
Qed.

Lemma download_list_request_remove (cleardownloadsonquit : bool)
    (downloadId : option Z) (downloads : list Download.t) :
  exists marked,
    (forall d, entryAt downloads downloadId = Some d ->
       exists k, downloadId = Some (Z.of_nat k)
         /\ marked = <[k := Download.setState d "removed"]> downloads)
    /\ (entryAt downloads downloadId = None -> marked = downloads)
    /\ download_list_request cleardownloadsonquit "remove" downloadId
         downloads
       = (map settle (splice1 marked downloadId),
          (tryItem ItemCancel (entryAt downloads downloadId)
           ++ (if cleardownloadsonquit
                  || bool_decide (map settle (splice1 marked downloadId) = [])
               then [DeleteFile]
               else [WriteFile (map settle (splice1 marked downloadId))])
           ++ [SendList (map settle (splice1 marked downloadId))])%list).
Proof.
  exists (match downloadId, entryAt downloads downloadId with
          | Some z, Some d =>
              <[Z.to_nat z := Download.setState d "removed"]> downloads
          | _, _ => downloads
          end).
  split; [|split].
  - intros d Hd. rewrite Hd.
    destruct (entryAt_Some _ _ _ Hd) as (k & -> & _).
    exists k. now rewrite Nat2Z.id.
  - intros ->. now destruct downloadId.
  - unfold download_list_request.
    rewrite !(bool_decide_eq_false_2 ("remove" = _)) by discriminate.
    rewrite bool_decide_eq_true_2 by reflexivity.
    destruct downloadId; reflexivity.
Qed.

(** X17.  A "remove" request cancels the item of the entry at the index
    given, and no other; with an index in the list it takes that entry
    out; with an index past the end it changes nothing.  With a negative
    index, or none, there is no entry to mark and to cancel, yet the
    [splice] that follows still takes an entry out of a list that has
    one: counted from the end, or the first; that download is dropped
    from the list without being cancelled. *)
Theorem download_remove (cleardownloadsonquit : bool)
    (downloadId : option Z) (downloads after : list Download.t)
    (effs : list dlEffect) :
  download_list_request cleardownloadsonquit "remove" downloadId downloads
  = (after, effs) ->
  (forall i,
     In (ItemCancel i) effs
     <-> exists d, entryAt downloads downloadId = Some d
                   /\ Download.destroyed d = false /\ Download.item d = i)
  /\ (forall d, entryAt downloads downloadId = Some d ->
        exists k, downloadId = Some (Z.of_nat k)
                  /\ after = map settle (delete k downloads))
  /\ (forall z, downloadId = Some z ->
        Z.of_nat (List.length downloads) <= z ->
        after = map settle downloads)
  /\ (downloadId = None \/ (exists z, downloadId = Some z /\ z < 0) ->
      downloads <> [] ->
      (forall i, ~ In (ItemCancel i) effs)
      /\ exists k, (k < List.length downloads)%nat
                   /\ after = map settle (delete k downloads)).
Proof.
  destruct (download_list_request_remove cleardownloadsonquit downloadId
              downloads) as (marked & Hsome & Hnone & ->).
  intros [= <- <-].
  assert (Hcancel : forall i,
            In (ItemCancel i)
              (tryItem ItemCancel (entryAt downloads downloadId)
               ++ (if cleardownloadsonquit
                      || bool_decide
                           (map settle (splice1 marked downloadId) = [])
                   then [DeleteFile]
                   else [WriteFile (map settle (splice1 marked downloadId))])
               ++ [SendList (map settle (splice1 marked downloadId))])%list
            <-> In (ItemCancel i)
                  (tryItem ItemCancel (entryAt downloads downloadId))).
  { intros i. rewrite in_app_iff. split; [|now left].
    intros [H|H]; [exact H|]. exfalso.
    apply in_app_or in H as [H|[H|[]]]; [|discriminate].
    destruct (_ || _); destruct H as [H|[]]; discriminate. }
  split; [|split; [|split]].
  - intros i. rewrite Hcancel. apply tryItem_cancel.
  - intros d Hd.
    destruct (Hsome d Hd) as (k & Hid & ->).
    destruct (entryAt_Some _ _ _ Hd) as (k' & Hid' & Hk & Hlt & Hstart).
    assert (k' = k) as -> by (rewrite Hid in Hid'; injection Hid'; lia).
    exists k. split; [exact Hid|]. f_equal.
    rewrite splice1_delete, length_insert, Hstart.
    rewrite !delete_take_drop.
    rewrite take_insert_ge by lia. now rewrite drop_insert_lt by lia.
  - intros z -> Hz.
    assert (Hno : entryAt downloads (Some z) = None).
    { cbn [entryAt]. destruct (Z.ltb_spec z 0); [reflexivity|].
      apply lookup_ge_None. lia. }
    rewrite (Hnone Hno). f_equal. unfold splice1, spliceStart.
    destruct (Z.ltb_spec z 0); [lia|].
    rewrite Z.min_r, Nat2Z.id by lia.
    rewrite firstn_all, skipn_all2 by lia. apply app_nil_r.
  - intros Hid Hne.
    assert (Hno : entryAt downloads downloadId = None).
    { destruct Hid as [->|(z & -> & Hz)]; [reflexivity|].
      cbn [entryAt]. now destruct (Z.ltb_spec z 0); [|lia]. }
    split.
    + intros i Hi. apply Hcancel in Hi. rewrite Hno in Hi. exact Hi.
    + rewrite (Hnone Hno).
      exists (spliceStart (List.length downloads) downloadId).
      assert (Hlen : (0 < List.length downloads)%nat)
        by (destruct downloads; [congruence|simpl; lia]).
      split.
      * destruct Hid as [->|(z & -> & Hz)]; [exact Hlen|].
        unfold spliceStart. destruct (Z.ltb_spec z 0); lia.
      * f_equal. apply splice1_delete.
Qed.

Lemma download_remove_witness :
  download_list_request false "remove" (Some (-1)) threeDownloads
  = ([Download.mk "a.iso" "downloading" 1 false;
      Download.mk "b.pdf" "completed" 2 true],
     [WriteFile [Download.mk "a.iso" "downloading" 1 false;
                 Download.mk "b.pdf" "completed" 2 true];
      SendList [Download.mk "a.iso" "downloading" 1 false;
                Download.mk "b.pdf" "completed" 2 true]])
  /\ forall i,
       ~ In (ItemCancel i)
           [WriteFile [Download.mk "a.iso" "downloading" 1 false;
                       Download.mk "b.pdf" "completed" 2 true];
            SendList [Download.mk "a.iso" "downloading" 1 false;
                      Download.mk "b.pdf" "completed" 2 true]].
Proof.
  assert (H : download_list_request false "remove" (Some (-1)) threeDownloads
              = ([Download.mk "a.iso" "downloading" 1 false;
                  Download.mk "b.pdf" "completed" 2 true],
                 [WriteFile [Download.mk "a.iso" "downloading" 1 false;
                             Download.mk "b.pdf" "completed" 2 true];
                  SendList [Download.mk "a.iso" "downloading" 1 false;
                            Download.mk "b.pdf" "completed" 2 true]]))
    by (vm_compute; reflexivity).
  split; [exact H|].
  destruct (download_remove _ _ _ _ _ H) as (_ & _ & _ & Hneg).
  apply Hneg; [right; exists (-1); split; [reflexivity|lia]|discriminate].
Defined.

(** ** The permission handler *)

Section PermissionFacts.

Variable toLowerCase : string -> string.
Variable trim : string -> string.
Variable regexMatch : string -> string -> option bool.
Variable domainName : string -> string.
Variable appName : string.

Lemma scanRules_spec (permissionName url verb : string)
    (rules : list string) :
  forall settingRule r,
    scanRules trim regexMatch permissionName url rules verb settingRule
    = Some r ->
    r = if bool_decide (settingRule = "")
        then if existsb (ruleApplies trim regexMatch permissionName url)
                  rules
             then verb else ""
        else settingRule.
Proof.
  induction rules as [|rule rest IH]; intros sr r H; cbn [scanRules] in H.
  - injection H as <-. cbn [existsb]. now case_bool_decide.
  - cbn [existsb]. unfold ruleApplies at 1.
    destruct (bool_decide (trim rule = "")) eqn:Hblank; cbn [orb negb andb] in *.
    + now apply IH.
    + destruct (bool_decide (sr = "")) eqn:Hsr; cbn [negb] in H.
      * destruct (ruleSets regexMatch permissionName url rule)
          as [[|]|] eqn:Hset; [| |discriminate].
        -- rewrite bool_decide_eq_true_2 by reflexivity. cbn [orb].
           apply IH in H. rewrite H.
           case_bool_decide as Hv; [|reflexivity].
           rewrite Hv. now destruct (existsb _ rest).
        -- rewrite bool_decide_eq_false_2 by discriminate. cbn [orb].
           apply IH in H. now rewrite Hsr in H.
      * apply IH in H. now rewrite Hsr in H.
Qed.

Lemma ruleSets_total (permissionName url rule : string) :
  (forall pattern, regexMatch url pattern <> None) ->
  ruleSets regexMatch permissionName url rule <> None.
Proof.
  intros Hre. unfold ruleSets.
  destruct (splitOn "~" rule) as [|pattern names]; [discriminate|].
  destruct (List.find _ names) as [p|]; [|discriminate].
  case_bool_decide; [discriminate|apply Hre].
Qed.

Lemma scanRules_total (permissionName url verb : string)
    (rules : list string) :
  (forall pattern, regexMatch url pattern <> None) ->
  forall settingRule,
    is_Some (scanRules trim regexMatch permissionName url rules verb
               settingRule).
Proof.
  intros Hre. induction rules as [|rule rest IH]; intros sr;
    cbn [scanRules]; [eauto|].
  destruct (_ || _); [apply IH|].
  pose proof (ruleSets_total permissionName url rule Hre) as Hset.
  destruct (ruleSets regexMatch permissionName url rule) as [[|]|];
    [apply IH|apply IH|congruence].
Qed.

Lemma scanOverrides_spec (permissions : gmap string string)
    (permissionName url r : string) :
  scanOverrides trim regexMatch permissions permissionName url overrides ""
  = Some r ->
  r = if overrideApplies trim regexMatch permissions permissionName url
           "asked" then "ask"
      else if overrideApplies trim regexMatch permissions permissionName url
                "blocked" then "block"
      else if overrideApplies trim regexMatch permissions permissionName url
                "allowed" then "allow"
      else "".
Proof.
  unfold overrides, overrideApplies. cbn [scanOverrides].
  destruct (scanRules _ _ _ _ (permList permissions "asked") _ _)
    as [r1|] eqn:H1; [|discriminate].
  destruct (scanRules _ _ _ _ (permList permissions "blocked") _ _)
    as [r2|] eqn:H2; [|discriminate].
  destruct (scanRules _ _ _ _ (permList permissions "allowed") _ _)
    as [r3|] eqn:H3; [|discriminate].
  intros [= <-].
  apply scanRules_spec in H1, H2, H3.
  rewrite bool_decide_eq_true_2 in H1 by reflexivity.
  destruct (existsb _ (permList permissions "asked")).
  - subst r1. rewrite bool_decide_eq_false_2 in H2 by discriminate.
    subst r2. now rewrite bool_decide_eq_false_2 in H3 by discriminate.
  - subst r1. rewrite bool_decide_eq_true_2 in H2 by reflexivity.
    destruct (existsb _ (permList permissions "blocked")).
    + subst r2. now rewrite bool_decide_eq_false_2 in H3 by discriminate.
    + subst r2. now rewrite bool_decide_eq_true_2 in H3 by reflexivity.
Qed.

Lemma scanOverrides_total (permissions : gmap string string)
    (permissionName url : string) :
  (forall pattern, regexMatch url pattern <> None) ->
  is_Some (scanOverrides trim regexMatch permissions permissionName url
             overrides "").
Proof.
  intros Hre. unfold overrides. cbn [scanOverrides].
  destruct (scanRules_total permissionName url "ask"
              (permList permissions "asked") Hre "") as [r1 ->].
  destruct (scanRules_total permissionName url "block"
              (permList permissions "blocked") Hre r1) as [r2 ->].
  destruct (scanRules_total permissionName url "allow"
              (permList permissions "allowed") Hre r2) as [r3 ->].
  eauto.
Qed.


(** The handler with its branches laid out on the final permission and
    permission name. *)
Lemma permissionHandler_eq (perm : string) (details : Details.t)
    (permissions : gmap string string)
    (fps : gmap string (list string)) :
  forall permission0 permission permissionName,
    permission0 = removeDashes (toLowerCase perm) ->
    permission = (if bool_decide (permission0 = "media")
                  then mediaKind details else permission0) ->
    permissionName
    = (if truthyStr (permissions !! ("permission" +:+ permission))
       then "permission" +:+ permission else "permissionunknown") ->
    permissionHandler toLowerCase trim regexMatch domainName appName perm
      details permissions fps
    = if bool_decide (permission0 = "mediakeysystem")
      then (Returned false, [], fps)
      else if bool_decide (permission = "openexternal")
              && truthyStr (Details.externalURL details)
              && startsWith (default "" (Details.externalURL details))
                   (appName +:+ ":")
      then (Navigated,
            [NavigateTo (default "" (Details.externalURL details))], fps)
      else
        match scanOverrides trim regexMatch permissions permissionName
                (Details.requestingUrl details) overrides "" with
        | None => (Thrown, [], fps)
        | Some settingRule =>
            let domain := domainName (Details.requestingUrl details) in
            let setting :=
              if bool_decide (settingRule = "")
              then permissions !! permissionName else Some settingRule in
            if bool_decide (permission = "certificateerror")
               && bool_decide (Details.fingerprint details
                               ∈ default [] (fps !! domain))
            then (Returned true, [Notify CachedCertificate], fps)
            else if bool_decide (setting = Some "ask")
            then (Asking permission permissionName settingRule domain,
                  [ShowDialog], fps)
            else
              (Returned (bool_decide (setting = Some "allow")),
               [Notify (if bool_decide (settingRule = "")
                        then GlobalSetting setting permissionName
                        else AutomaticRule (default "" setting))],
               if bool_decide (permission = "certificateerror")
                  && bool_decide (setting = Some "allow")
               then pushFingerprint fps domain (Details.fingerprint details)
               else fps)
        end.
Proof.
  intros p0 p pn -> -> ->. unfold permissionHandler.
  destruct (bool_decide (_ = "mediakeysystem")); [reflexivity|].
  destruct (_ && _ && _); [reflexivity|].
  destruct (truthyStr _); reflexivity.
Qed.

(** X19.  A request is granted without a dialog only for a certificate
    allowed before on its domain, or when no rule of "permissionsasked"
    and none of "permissionsblocked" applies and a rule of
    "permissionsallowed" applies or the setting of the permission is
    "allow": a blocked rule and an asked rule both win over an allowed
    rule and over the setting.  "mediakeysystem" is never granted. *)
Theorem permissionHandler_grants (perm : string) (details : Details.t)
    (permissions : gmap string string)
    (fps fps' : gmap string (list string)) (effs : list permEffect) :
  permissionHandler toLowerCase trim regexMatch domainName appName perm
    details permissions fps = (Returned true, effs, fps') ->
  let permission0 := removeDashes (toLowerCase perm) in
  let permission :=
    if bool_decide (permission0 = "media") then mediaKind details
    else permission0 in
  let permissionName :=
    if truthyStr (permissions !! ("permission" +:+ permission))
    then "permission" +:+ permission else "permissionunknown" in
  let url := Details.requestingUrl details in
  permission0 <> "mediakeysystem"
  /\ ((permission = "certificateerror"
       /\ trusted fps (domainName url) (Details.fingerprint details))
      \/ (overrideApplies trim regexMatch permissions permissionName url
            "asked" = false
          /\ overrideApplies trim regexMatch permissions permissionName url
               "blocked" = false
          /\ (overrideApplies trim regexMatch permissions permissionName url
                "allowed" = true
              \/ permissions !! permissionName = Some "allow"))).
Proof.
  intros H permission0 permission permissionName url.
  rewrite (permissionHandler_eq perm details permissions fps permission0
             permission permissionName eq_refl eq_refl eq_refl) in H.
  case_bool_decide as Hkey; [discriminate|]. split; [exact Hkey|].
  destruct (_ && _ && _); [discriminate|].
  destruct (scanOverrides _ _ _ _ _ _ _) as [sr|] eqn:Hscan;
    [|discriminate].
  apply scanOverrides_spec in Hscan. fold url in Hscan. cbn zeta in H.
  destruct (bool_decide (permission = "certificateerror")
            && bool_decide (Details.fingerprint details ∈ _)) eqn:Hcached.
  - left. apply andb_prop in Hcached as [Hc Hin].
    apply bool_decide_eq_true_1 in Hc, Hin. now split.
  - right. case_bool_decide as Hask; [discriminate|].
    injection H as Hallow _ _. apply bool_decide_eq_true_1 in Hallow.
    destruct (overrideApplies _ _ _ _ _ "asked");
      [subst sr; discriminate|].
    destruct (overrideApplies _ _ _ _ _ "blocked");
      [subst sr; discriminate|].
    destruct (overrideApplies _ _ _ _ _ "allowed"); [auto|].
    subst sr. rewrite bool_decide_eq_true_2 in Hallow by reflexivity. auto.
Qed.

Lemma pushFingerprint_trusted (fps : gmap string (list string))
    (domain fingerprint : string) :
  trusted (pushFingerprint fps domain fingerprint) domain fingerprint.
Proof.
  unfold trusted, pushFingerprint. rewrite lookup_insert_eq. cbn.
  apply elem_of_app. right. now left.
Qed.

Lemma pushFingerprint_keeps (fps : gmap string (list string))
    (d f domain fingerprint : string) :
  trusted fps d f -> trusted (pushFingerprint fps domain fingerprint) d f.
Proof.
  unfold trusted, pushFingerprint. intros H.
  destruct (decide (d = domain)) as [->|Hne].
  - rewrite lookup_insert_eq. cbn. apply elem_of_app. now left.
  - now rewrite lookup_insert_ne by congruence.
Qed.

Lemma permissionHandler_keeps (perm : string) (details : Details.t)
    (permissions : gmap string string)
    (fps fps' : gmap string (list string)) (out : outcome)
    (effs : list permEffect) (d f : string) :
  permissionHandler toLowerCase trim regexMatch domainName appName perm
    details permissions fps = (out, effs, fps') ->
  trusted fps d f -> trusted fps' d f.
Proof.
  intros H Ht.
  rewrite (permissionHandler_eq perm details permissions fps _ _ _
             eq_refl eq_refl eq_refl) in H.
  destruct (bool_decide (_ = "mediakeysystem")); [now injection H as _ _ <-|].
  destruct (_ && _ && _); [now injection H as _ _ <-|].
  destruct (scanOverrides _ _ _ _ _ _ _) as [sr|];
    [|now injection H as _ _ <-].
  cbn zeta in H.
  destruct (_ && bool_decide (Details.fingerprint details ∈ _));
    [now injection H as _ _ <-|].
  destruct (bool_decide (_ = Some "ask")); [now injection H as _ _ <-|].
  injection H as _ _ <-.
  destruct (_ && _); [now apply pushFingerprint_keeps|exact Ht].
Qed.

Lemma dialogAnswered_keeps (permission permissionName settingRule domain
    fingerprint : string) (response : Z) (checkboxChecked : bool)
    (permissions permissions' : gmap string string)
    (fps fps' : gmap string (list string)) (allow : bool)
    (effs : list permEffect) (d f : string) :
  dialogAnswered permission permissionName settingRule domain fingerprint
    response checkboxChecked permissions fps
  = (allow, effs, permissions', fps') ->
  trusted fps d f -> trusted fps' d f.
Proof.
  unfold dialogAnswered. intros [= _ _ _ <-] Ht.
  destruct (_ && _); [now apply pushFingerprint_keeps|exact Ht].
Qed.

Lemma certAllowed_trusted (domain fingerprint : string)
    (fps : gmap string (list string)) :
  certAllowed toLowerCase trim regexMatch domainName appName domain
    fingerprint fps ->
  trusted fps domain fingerprint.
Proof.
  induction 1 as [perm details permissions fps effs fps' Hp Hd Hf H
                 |pn sr cb permissions fps effs permissions' fps' H
                 |fps perm details permissions out effs fps' _ IH H
                 |fps p pn sr d' f' resp cb permissions allow effs
                    permissions' fps' _ IH H].
  - rewrite (permissionHandler_eq perm details permissions fps _ _ _
               eq_refl eq_refl eq_refl) in H.
    rewrite Hp in H.
    rewrite (bool_decide_eq_false_2 ("certificateerror" = "mediakeysystem"))
      in H by discriminate.
    rewrite (bool_decide_eq_false_2 ("certificateerror" = "media"))
      in H by discriminate.
    rewrite (bool_decide_eq_false_2 ("certificateerror" = "openexternal"))
      in H by discriminate.
    cbn [andb] in H.
    destruct (scanOverrides _ _ _ _ _ _ _) as [sr|]; [|discriminate].
    cbn zeta in H. rewrite Hd, Hf in H.
    rewrite (bool_decide_eq_true_2 ("certificateerror" = "certificateerror"))
      in H by reflexivity.
    cbn [andb] in H.
    destruct (bool_decide (fingerprint ∈ _)) eqn:Hin.
    { injection H as _ <-. now apply bool_decide_eq_true_1 in Hin. }
    destruct (bool_decide (_ = Some "ask")); [discriminate|].
    injection H as -> _ <-. apply pushFingerprint_trusted.
  - apply (f_equal snd) in H. cbn in H. subst fps'.
    apply pushFingerprint_trusted.
  - now apply (permissionHandler_keeps _ _ _ _ _ _ _ _ _ H).
  - now apply (dialogAnswered_keeps _ _ _ _ _ _ _ _ _ _ _ _ _ _ _ H).
Qed.


Lemma scanOverrides_insert (permissions : gmap string string)
    (key value permissionName url : string) :
  key ∉ ["permissionsasked"; "permissionsblocked"; "permissionsallowed"] ->
  scanOverrides trim regexMatch (<[key := value]> permissions)
    permissionName url overrides ""
  = scanOverrides trim regexMatch permissions permissionName url
      overrides "".
Proof.
  intros Hkey.
  assert (Hlist : forall o,
            In o ["asked"; "blocked"; "allowed"] ->
            permList (<[key := value]> permissions) o
            = permList permissions o).
  { intros o Ho. unfold permList. rewrite lookup_insert_ne; [reflexivity|].
    intros ->. apply Hkey.
    destruct Ho as [<-|[<-|[<-|[]]]]; set_solver. }
  unfold overrides. cbn [scanOverrides].
  rewrite !Hlist by (cbn; tauto). reflexivity.
Qed.

(** X21.  "Remember for this session".  When a request ended in the
    dialog and the dialog was answered, the same request made again is
    granted at once if it is a certificate error that was allowed;
    is decided at once, as it was answered, if the box was ticked, the
    answer could be saved (any answer but "allow" for "displaycapture")
    and the dialog did not come from a rule of "permissionsasked"; and
    ends in the dialog again otherwise: a saved answer never overrides
    an asked rule. *)
Theorem answer_remembered (perm : string) (details : Details.t)
    (permissions permissions' : gmap string string)
    (fps fps1 fps2 : gmap string (list string))
    (permission permissionName settingRule domain : string)
    (effs effs2 : list permEffect) (response : Z) (checkboxChecked : bool)
    (allow : bool) :
  permissionHandler toLowerCase trim regexMatch domainName appName perm
    details permissions fps
  = (Asking permission permissionName settingRule domain, effs, fps1) ->
  dialogAnswered permission permissionName settingRule domain
    (Details.fingerprint details) response checkboxChecked permissions fps1
  = (allow, effs2, permissions', fps2) ->
  permissionName
  ∉ ["permissionsasked"; "permissionsblocked"; "permissionsallowed"] ->
  exists effs3 fps3,
    permissionHandler toLowerCase trim regexMatch domainName appName perm
      details permissions' fps2
    = (if bool_decide (permission = "certificateerror") && allow
       then Returned true
       else if checkboxChecked
               && (negb allow
                   || negb (bool_decide (permission = "displaycapture")))
               && bool_decide (settingRule = "")
       then Returned allow
       else Asking permission permissionName settingRule domain,
       effs3, fps3).
Proof.
  intros Hfirst Hanswer Hkey.
  rewrite (permissionHandler_eq perm details permissions fps _ _ _
             eq_refl eq_refl eq_refl) in Hfirst.
  set (p0 := removeDashes (toLowerCase perm)) in *.
  set (p := if bool_decide (p0 = "media") then mediaKind details else p0)
    in *.
  set (pn := if truthyStr (permissions !! ("permission" +:+ p))
             then "permission" +:+ p else "permissionunknown") in *.
  destruct (bool_decide (p0 = "mediakeysystem")) eqn:Hmks; [discriminate|].
  destruct (bool_decide (p = "openexternal") && _ && _) eqn:Hnav;
    [discriminate|].
  destruct (scanOverrides trim regexMatch permissions pn _ overrides "")
    as [sr|] eqn:Hscan; [|discriminate].
  cbn zeta in Hfirst.
  destruct (bool_decide (p = "certificateerror") && _) eqn:Hcached;
    [discriminate|].
  destruct (bool_decide (_ = Some "ask")) eqn:Hask; [|discriminate].
  injection Hfirst as <- <- <- <- _ <-.
  apply bool_decide_eq_true_1 in Hask.
  unfold dialogAnswered in Hanswer.
  set (action := if response =? 0 then "allow" else "block") in *.
  injection Hanswer as <- _ <- <-.
  assert (Haction : action = "allow" \/ action = "block")
    by (unfold action; destruct (response =? 0); auto).
  set (save := checkboxChecked && _) in *.
  (* the permission name is the same at the second call *)
  assert (Hpn : (if truthyStr
                      ((if save then <[pn := action]> permissions
                        else permissions) !! ("permission" +:+ p))
                 then "permission" +:+ p else "permissionunknown") = pn).
  { destruct save; [|reflexivity]. unfold pn.
    destruct (truthyStr (permissions !! ("permission" +:+ p))) eqn:Ht.
    - rewrite lookup_insert_eq.
      now destruct Haction as [-> | ->].
    - destruct (decide ("permissionunknown" = "permission" +:+ p))
        as [<-|Hne].
      + rewrite lookup_insert_eq. now destruct Haction as [-> | ->].
      + rewrite lookup_insert_ne by exact Hne. now rewrite Ht. }
  assert (Hscan' : scanOverrides trim regexMatch
                     (if save then <[pn := action]> permissions
                      else permissions) pn
                     (Details.requestingUrl details) overrides ""
                   = Some sr).
  { destruct save; [|exact Hscan]. now rewrite scanOverrides_insert. }
  rewrite (permissionHandler_eq perm details _ _ _ _ _
             eq_refl eq_refl eq_refl).
  fold p0. fold p. rewrite Hmks, Hnav, Hpn, Hscan'. cbn zeta.
  pose proof (pushFingerprint_trusted fps
                (domainName (Details.requestingUrl details))
                (Details.fingerprint details)) as Ht.
  unfold trusted in Ht. apply (bool_decide_eq_true_2 _) in Ht.
  assert (Hsetting :
            (if bool_decide (sr = "") then permissions !! pn else Some sr)
            = Some "ask") by exact Hask.
  clear Hask Hpn Hscan' Hscan Hnav Hmks.
  destruct (bool_decide (p = "certificateerror")) eqn:Hcert;
    cbn [andb] in Hcached |- *;
    destruct Haction as [Ha|Ha]; rewrite Ha in *; clear Ha;
    destruct save eqn:Hsave; subst save; rewrite ?Hsave;
    rewrite ?lookup_insert_eq;
    destruct (bool_decide (sr = "")) eqn:Hsr;
    rewrite ?Hsetting;
    rewrite ?(bool_decide_eq_true_2 ("allow" = "allow") eq_refl),
      ?(bool_decide_eq_true_2 (Some "allow" = Some "allow") eq_refl),
      ?(bool_decide_eq_true_2 (Some "ask" = Some "ask") eq_refl),
      ?(bool_decide_eq_false_2 ("block" = "allow")),
      ?(bool_decide_eq_false_2 (Some "allow" = Some "ask")),
      ?(bool_decide_eq_false_2 (Some "block" = Some "ask")),
      ?(bool_decide_eq_false_2 (Some "block" = Some "allow")),
      ?(bool_decide_eq_false_2 (Some "ask" = Some "allow"))
      by discriminate;
    cbn [andb orb negb]; rewrite ?Ht, ?Hcached, ?andb_false_r; eauto.
Qed.

End PermissionFacts.

(** Comparisons of literals, by their value. *)
Ltac decide_literals :=
  repeat match goal with
    | |- context [bool_decide (?a = ?b)] =>
        first [ rewrite (bool_decide_eq_true_2 (a = b) eq_refl)
              | rewrite (bool_decide_eq_false_2 (a = b)) by discriminate ]
    end.

Lemma permissionHandler_grants_witness :
  permissionHandler id id plainMatch id "vieb" "media" micRequest
    somePermissions ∅
  = (Returned true, [Notify (AutomaticRule "allow")], ∅)
  /\ overrideApplies id plainMatch somePermissions "permissionmicrophone"
       "https://meet.example/" "blocked" = false.
Proof.
  assert (H : permissionHandler id id plainMatch id "vieb" "media" micRequest
                somePermissions ∅
              = (Returned true, [Notify (AutomaticRule "allow")], ∅))
    by (vm_compute; reflexivity).
  split; [exact H|].
  destruct (permissionHandler_grants id id plainMatch id "vieb" _ _ _ _ _ _ H)
    as [_ [[Hc _]|(_ & Hb & _)]].
  - vm_compute in Hc. discriminate.
  - exact Hb.
Defined.


Lemma answer_remembered_witness :
  exists effs3 fps3,
    permissionHandler id id plainMatch id "vieb" "media" meetRequest
      (<["permissioncamera" := "allow"]> somePermissions) ∅
    = (Asking "camera" "permissioncamera" "ask" "https://meet.example/",
       effs3, fps3).
Proof.
  apply (answer_remembered id id plainMatch id "vieb" "media" meetRequest
           somePermissions (<["permissioncamera" := "allow"]> somePermissions)
           ∅ ∅ ∅ "camera" "permissioncamera" "ask" "https://meet.example/"
           [ShowDialog]
           [Notify (AskRule "allow");
            SetPermission "permissioncamera" "allow"]
           0 true true).
  - vm_compute. reflexivity.
  - unfold dialogAnswered. cbn [Z.eqb]. decide_literals.
    cbn [andb orb negb app]. reflexivity.
  - rewrite !elem_of_cons, elem_of_nil. intros [H|[H|[H|[]]]]; discriminate.
Defined.

(** ** Login attempts *)

Lemma spliceFirst_NoDup (id : Z) (l : list Z) :
  NoDup l -> NoDup (spliceFirst id l) /\ id ∉ spliceFirst id l.
Proof.
  induction 1 as [|x l Hx Hnd [IH1 IH2]]; cbn [spliceFirst].
  - split; [constructor|apply not_elem_of_nil].
  - destruct (Z.eqb_spec x id) as [->|Hne]; [now split|].
    split.
    + constructor; [|exact IH1].
      intros Hin. apply Hx. clear -Hin.
      induction l as [|y l IH]; [exact Hin|]. cbn [spliceFirst] in Hin.
      destruct (y =? id); [now right|].
      apply elem_of_cons in Hin as [->|Hin]; [now left|right; auto].
    + rewrite elem_of_cons. intros [->|Hin]; [congruence|auto].
Qed.

Lemma attemptsReachable_NoDup (l : list Z) :
  attemptsReachable l -> NoDup l.
Proof.
  induction 1 as [|visible id l _ IH]; [constructor|].
  unfold login. destruct visible; [exact IH|].
  case_bool_decide as Hin; cbn [fst].
  - now apply spliceFirst_NoDup.
  - apply NoDup_app. split; [exact IH|]. split; [|apply NoDup_singleton].
    intros x Hx ->%list_elem_of_singleton. contradiction.
Qed.

(** X22.  [loginAttempts] never holds an id twice, so the events of one
    page take turns while the dialog is hidden: when the id of the page
    is on the list the event is let through and the id is off the list
    after it; when it is not, the dialog is shown and the id is on the
    list after it.  An event that comes while the dialog is on screen
    changes nothing. *)
Theorem login_takes_turns (l : list Z) (id : Z) :
  attemptsReachable l ->
  NoDup l
  /\ login true id l = (l, LoginIgnored)
  /\ (id ∈ l ->
      (login false id l).2 = LoginPassed /\ id ∉ (login false id l).1)
  /\ (id ∉ l ->
      (login false id l).2 = LoginPrompted /\ id ∈ (login false id l).1).
Proof.
  intros Hl%attemptsReachable_NoDup. split; [exact Hl|].
  split; [reflexivity|]. unfold login. split; intros Hin.
  - rewrite bool_decide_eq_true_2 by exact Hin. cbn [fst snd].
    split; [reflexivity|]. now apply spliceFirst_NoDup.
  - rewrite bool_decide_eq_false_2 by exact Hin. cbn [fst snd].
    split; [reflexivity|]. apply elem_of_app. right. now left.
Qed.

Lemma login_takes_turns_witness :
  NoDup [7; 9]
  /\ (login false 7 [7; 9]).2 = LoginPassed
  /\ 7 ∉ (login false 7 [7; 9]).1.
Proof.
  assert (Hreach : attemptsReachable [7; 9]).
  { apply (attempts_login false 9 [7]).
    apply (attempts_login false 7 []). constructor. }
  destruct (login_takes_turns [7; 9] 7 Hreach) as (Hnd & _ & Hin & _).
  split; [exact Hnd|]. apply Hin. now left.
Defined.

(** ** Command-line arguments *)

Lemma splitOn_cons (sep : ascii) (s : string) :
  exists piece pieces, splitOn sep s = piece :: pieces.
Proof.
  induction s as [|c s (piece & pieces & IH)]; cbn [splitOn]; [eauto|].
  destruct (Ascii.eqb c sep); [eauto|]. rewrite IH. eauto.
Qed.

(** Splitting and joining again gives the string back. *)
Lemma joinWith_splitOn (sep : ascii) (s : string) :
  joinWith (String sep "") (splitOn sep s) = s.
Proof.
  induction s as [|c s IH]; [reflexivity|]. cbn [splitOn].
  destruct (splitOn_cons sep s) as (piece & pieces & Hs).
  rewrite Hs in *. destruct (Ascii.eqb_spec c sep) as [->|Hne].
  - change (joinWith (String sep "") ("" :: piece :: pieces))
      with (String sep (joinWith (String sep "") (piece :: pieces))).
    now rewrite IH.
  - rewrite <- IH. now destruct pieces.
Qed.

Lemma splitOn_append (sep : ascii) (name rest : string) :
  (forall a b, name <> a +:+ String sep b) ->
  splitOn sep (name +:+ String sep rest) = name :: splitOn sep rest.
Proof.
  induction name as [|c name IH]; intros Hname.
  - rewrite append_empty_l. cbn [splitOn]. now rewrite Ascii.eqb_refl.
  - rewrite append_String. cbn [splitOn].
    destruct (Ascii.eqb_spec c sep) as [->|Hne].
    + exfalso. now apply (Hname "" name).
    + rewrite IH; [reflexivity|].
      intros a b ->. now apply (Hname (String c a) b).
Qed.

Lemma startsWith_empty (s : string) : startsWith s "" = true.
Proof. now destruct s. Qed.

Lemma startsWith_same (c : ascii) (s start : string) :
  startsWith (String c s) (String c start) = startsWith s start.
Proof.
  unfold startsWith. cbn [String.prefix].
  now destruct (Ascii.ascii_dec c c).
Qed.

Lemma startsWith_differ (c d : ascii) (s start : string) :
  c <> d -> startsWith (String c s) (String d start) = false.
Proof.
  intros Hne. unfold startsWith. cbn [String.prefix].
  destruct (Ascii.ascii_dec d c); [congruence|reflexivity].
Qed.

(** The value of an option is all that follows its first "=". *)
Lemma valueOf_option (name value : string) :
  (forall a b, name <> a +:+ "=" +:+ b) ->
  valueOf (name +:+ "=" +:+ value) = value.
Proof.
  intros Hname. unfold valueOf.
  change (name +:+ "=" +:+ value) with (name +:+ String "="%char value).
  rewrite splitOn_append by exact Hname. cbn [skipn].
  apply (joinWith_splitOn "="%char).
Qed.

(** X23.  Every option that takes a value gets all that follows its
    first "=", signs "=" in it included, and sets what belongs to it and
    nothing else; an argument that does not start with "-" is a url, and
    no other argument is. *)
Theorem parseArg_values (trim toLowerCase : string -> string)
    (numberPositive : string -> bool) (a : string) :
  (forall name set value,
     In (name, set)
       (valueOptions toLowerCase (isTruthyArg trim toLowerCase numberPositive))
     ->
     trim a = "--" +:+ name +:+ "=" +:+ value ->
     parseArg trim toLowerCase numberPositive a = set value)
  /\ (parseArg trim toLowerCase numberPositive a = Url (trim a)
      <-> startsWith (trim a) "-" = false).
Proof.
  split.
  - intros name set value Hin Ha.
    assert (Hvalue : forall n,
              (forall x y, "--" +:+ n <> x +:+ "=" +:+ y) ->
              valueOf ("--" +:+ n +:+ "=" +:+ value) = value).
    { intros n Hn.
      change ("--" +:+ n +:+ "=" +:+ value)
        with (("--" +:+ n) +:+ "=" +:+ value).
      now apply valueOf_option. }
    assert (Hnoeq : forall n,
              forallb (fun c => negb (Ascii.eqb c "=")) (list_ascii_of_string n)
              = true ->
              forall x y, n <> x +:+ "=" +:+ y).
    { intros n. induction n as [|c n IH]; intros Hall x y Hxy.
      - destruct x; discriminate.
      - cbn in Hall. apply andb_prop in Hall as [Hc Hall].
        destruct x as [|d x].
        + injection Hxy as -> _. discriminate.
        + injection Hxy as _ Hxy. now apply (IH Hall x y). }
    unfold parseArg. rewrite Ha. unfold valueOptions in Hin.
    repeat (destruct Hin as [[= <- <-]|Hin];
            [match goal with
             | |- context [valueOf ("--" +:+ ?n +:+ "=" +:+ value)] =>
                 rewrite (Hvalue n (Hnoeq ("--" +:+ n) eq_refl))
             end;
             cbv [append];
             repeat match goal with
               | |- context [bool_decide (?x = ?y)] =>
                   rewrite (bool_decide_eq_false_2 (x = y)) by discriminate
               end;
             repeat first
               [ rewrite startsWith_same
               | rewrite startsWith_empty
               | rewrite startsWith_differ by discriminate ];
             reflexivity|]).
    destruct Hin.
  - unfold parseArg. destruct (startsWith (trim a) "-"); [|tauto].
    split; [|discriminate]. intros H.
    repeat match type of H with
           | (if ?b then _ else _) = _ => destruct b; try discriminate
           end.
Qed.
